(** * Rewrite patterns of onnx-mlir over a model of the host operation graph

    The development embeds

    - the ZLow peephole patterns of
      [src/Accelerators/NNPA/Transform/ZLow/ZLowRewrite.cpp]
      (dead stick/unstick removal, the two round-trip removals, the
      load/store retargeting steps of the chain eliminator and the
      deallocation inserter for [async.execute]), and
    - [LoopOpRewriteMaxTripCountPattern] of [src/Dialect/ONNX/Rewrite.cpp]

    as state-passing functions over an arena model of the operation graph:
    operations and blocks are addressed by stable identifiers, every value
    carries its ordered use list, and a failed host assertion (an index
    out of range, a [cast] of the wrong kind, ...) is the outcome [Abort].
    The chain eliminator [UnstickLoadStoreStickRemovalPattern] with its
    matchers is embedded over the same model.

    The helper functions of the ConvTranspose decomposition
    ([src/Transform/ONNX/DecomposeAfter.cpp], and their earlier versions in
    [src/Dialect/ONNX/Rewrite.cpp]) compute on shapes and attribute arrays
    of 64-bit integers.  They are embedded as functions on typed values
    that log the operations they create, a failed host assertion being
    [None]. *)

From Stdlib Require Import ZArith Lia Bool List SpecFloat.
From stdpp Require Import base option list gmap strings.

Open Scope Z_scope.

(* ================================================================== *)
(** ** 64-bit integers and binary64 numbers *)
(* ================================================================== *)

(** [int64_t] arithmetic wraps around in two's complement. *)
Definition wrap64 (z : Z) : Z := (z + 2 ^ 63) mod 2 ^ 64 - 2 ^ 63.

(** [double] is IEEE binary64 with rounding to nearest even, as specified by
    the standard library's [SpecFloat]. *)
Definition sitofp (z : Z) : spec_float := binary_normalize 53 1024 z 0 false.

Definition fmul : spec_float -> spec_float -> spec_float := SFmul 53 1024.

Definition fdiv : spec_float -> spec_float -> spec_float := SFdiv 53 1024.

(** The signed integer mantissa of a finite number. *)
Definition signedMantissa (s : bool) (m : positive) : Z :=
  if s then Z.neg m else Z.pos m.

(** [ceil] of <math.h>: the least integral [double] not below [x]. *)
Definition ceil (x : spec_float) : spec_float :=
  match x with
  | S754_finite s m e =>
      if 0 <=? e then x
      else binary_normalize 53 1024 (- ((- signedMantissa s m) / 2 ^ (- e))) 0 s
  | _ => x
  end.

(** Conversion [double -> int64_t] truncates toward zero; out of range (and
    for NaN and the infinities) the x86-64 conversion yields [INT64_MIN]. *)
Definition fptosi (x : spec_float) : Z :=
  match x with
  | S754_zero _ => 0
  | S754_finite s m e =>
      let t := if 0 <=? e then signedMantissa s m * 2 ^ e
               else Z.quot (signedMantissa s m) (2 ^ (- e)) in
      if (- 2 ^ 63 <=? t) && (t <? 2 ^ 63) then t else - 2 ^ 63
  | _ => - 2 ^ 63
  end.

(** [ceil((1.0 * (upperBound - lowerBound)) / (1.0 * step))], Rewrite.cpp
    lines 739-740. *)
Definition derivedTripCount (lowerBound upperBound step : Z) : Z :=
  fptosi (ceil (fdiv (fmul (sitofp 1) (sitofp (wrap64 (upperBound - lowerBound))))
                     (fmul (sitofp 1) (sitofp step)))).

(** The exact integer ceiling of [a / b] for [b > 0]. *)
Definition ceilDiv (a b : Z) : Z := - ((- a) / b).

(* ================================================================== *)
(** ** Affine maps *)
(* ================================================================== *)

Inductive AffineExprKind := Add | Mul | Mod | FloorDiv | CeilDiv.

Inductive AffineExpr :=
  | AffineDimExpr (position : nat)
  | AffineSymbolExpr (position : nat)
  | AffineConstantExpr (value : Z)
  | AffineBinaryOpExpr (kind : AffineExprKind) (lhs rhs : AffineExpr).

Record AffineMap := mkAffineMap {
  numDims : nat;
  numSymbols : nat;
  mapResults : list AffineExpr;
}.




(** [AffineExpr::replaceDimsAndSymbols]: dimension [i] becomes
    [dimReplacements[i]] and symbol [i] becomes [symReplacements[i]]; a
    position without replacement is kept. *)
Fixpoint replaceDimsAndSymbols (dimReplacements symReplacements : list AffineExpr)
    (e : AffineExpr) : AffineExpr :=
  match e with
  | AffineDimExpr i => default e (dimReplacements !! i)
  | AffineSymbolExpr i => default e (symReplacements !! i)
  | AffineConstantExpr _ => e
  | AffineBinaryOpExpr k l r =>
      AffineBinaryOpExpr k (replaceDimsAndSymbols dimReplacements symReplacements l)
                           (replaceDimsAndSymbols dimReplacements symReplacements r)
  end.

(** [AffineMap::getPermutationMap]: one dimension per entry of the
    permutation vector, result [i] being dimension [permutation[i]]. *)
Definition getPermutationMap (permutation : list nat) : AffineMap :=
  {| numDims := S (foldr Nat.max 0%nat permutation);
     numSymbols := 0;
     mapResults := AffineDimExpr <$> permutation |}.

(** [this.compose(map)]: the map [x |-> this(map(x))].  The symbols of [map]
    are renamed past those of [this], then the dimensions of every result of
    [this] are replaced by the results of [map]; the host asserts that
    [this] has as many dimensions as [map] has results. *)
Definition compose (this map : AffineMap) : option AffineMap :=
  if decide (numDims this = length (mapResults map)) then
    let newDims := AffineDimExpr <$> seq 0 (numDims map) in
    let newSymbols :=
      AffineSymbolExpr <$> seq (numSymbols this) (numSymbols map) in
    let newMapResults :=
      replaceDimsAndSymbols newDims newSymbols <$> mapResults map in
    Some {| numDims := numDims map;
            numSymbols := (numSymbols this + numSymbols map)%nat;
            mapResults :=
              replaceDimsAndSymbols newMapResults [] <$> mapResults this |}
  else None.

(** NCHW -> NHWC, the permutation vector of ZLowRewrite.cpp lines 375, 444. *)
Definition permutationNCHW : list nat := [0; 2; 3; 1]%nat.


(* ================================================================== *)
(** ** The host operation graph *)
(* ================================================================== *)

Open Scope nat_scope.

(** Operations and blocks are addressed by stable identifiers (the pointers
    of the host). *)
Abbreviation OpId := nat.
Abbreviation BlockId := nat.

(** A value is a result of an operation or an argument of a block. *)
Inductive Value :=
  | OpResult (definingOp : OpId) (resultNumber : nat)
  | BlockArgument (ownerBlock : BlockId) (argNumber : nat).

#[global] Instance Value_eq_dec : EqDecision Value.
Proof. solve_decision. Defined.

#[global] Instance Value_countable : Countable Value.
Proof.
  refine (inj_countable'
    (fun v => match v with
              | OpResult o i => inl (o, i)
              | BlockArgument b i => inr (b, i)
              end)
    (fun s => match s with
              | inl (o, i) => OpResult o i
              | inr (b, i) => BlockArgument b i
              end) _).
  by intros [].
Defined.

(** One entry of a use list: operand [operandNumber] of operation [useOwner]. *)
Record OpOperand := mkUse { useOwner : OpId; operandNumber : nat }.

#[global] Instance OpOperand_eq_dec : EqDecision OpOperand.
Proof. solve_decision. Defined.

Inductive ElementType :=
  | IntegerType (width : nat)
  | FloatType (width : nat)
  | IndexType.

#[global] Instance ElementType_eq_dec : EqDecision ElementType.
Proof. solve_decision. Defined.

(** A dimension is known ([Some n]) or dynamic ([None]). *)
Inductive Type_ :=
  | MemRefType (elementType : ElementType) (shape : list (option nat))
               (identityLayout : bool)
  | TensorType (elementType : ElementType) (shape : option (list (option nat)))
  | ScalarType (elementType : ElementType)
  | NoneType
  | OtherType.

#[global] Instance Type_eq_dec : EqDecision Type_.
Proof. solve_decision. Defined.

(** The operations the patterns distinguish.  [ViewLikeOp] stands for any
    operation implementing [ViewLikeOpInterface] (its view source is operand
    0), [OtherOp] for every other operation. *)
Inductive OpName :=
  | ZLowStickOp | ZLowUnstickOp | ZLowDummyOp
  | AllocOp | DeallocOp | AffineLoadOp | AffineStoreOp | ViewLikeOp
  | AsyncExecuteOp | AsyncYieldOp | AsyncAwaitOp
  | ONNXConstantOp | ONNXLoopOp | ONNXReturnOp | ONNXLessOp | ONNXAddOp
  | ONNXSubOp | ONNXDivOp | ONNXCeilOp | ONNXCastOp | ONNXMinOp
  | OtherOp (name : string).

#[global] Instance OpName_eq_dec : EqDecision OpName.
Proof. solve_decision. Defined.

(** The attributes the patterns read or write: the layout tag of a
    stick/unstick, the [value] of a constant when it is a
    [DenseElementsAttr] (its elements, sign-extended), the target element
    type of a cast, and the index map of an affine load/store. *)
Record Attributes := mkAttributes {
  layoutAttr : option string;
  valueAttr : option (list Z);
  toAttr : option ElementType;
  mapAttr : option AffineMap;
}.

Definition noAttributes : Attributes :=
  {| layoutAttr := None; valueAttr := None; toAttr := None; mapAttr := None |}.

Record Operation := mkOperation {
  opName : OpName;
  opOperands : list Value;
  opResultTypes : list Type_;
  opAttrs : Attributes;
  opRegions : list (list BlockId);
  opBlock : BlockId;
}.

Record Block := mkBlock {
  blockArguments : list Type_;
  blockOperations : list OpId;
  blockParentOp : option OpId;
}.

(** The graph: operations, blocks, and the use list of every value, most
    recently added use first. *)
Record IR := mkIR {
  irOps : gmap nat Operation;
  irBlocks : gmap nat Block;
  irUses : gmap Value (list OpOperand);
}.

(** *** Outcomes and the rewriting monad *)

Inductive res (A : Type) :=
  | Ok (a : A) (g : IR)
  | Abort.

Arguments Ok {A} a g.
Arguments Abort {A}.

Definition M (A : Type) : Type := IR -> res A.

Definition ret {A} (a : A) : M A := fun g => Ok a g.

Definition bind {A B} (c : M A) (k : A -> M B) : M B :=
  fun g => match c g with
           | Ok a g' => k a g'
           | Abort => Abort
           end.

Notation "'let*' x ':=' c 'in' k" := (bind c (fun x => k))
  (at level 10, x pattern, c at level 100, k at level 200).

Definition abort {A} : M A := fun _ => Abort.

(** A host accessor whose precondition fails aborts. *)
Definition assertSome {A} (o : option A) : M A :=
  match o with
  | Some a => ret a
  | None => abort
  end.

Definition gets {A} (f : IR -> A) : M A := fun g => Ok (f g) g.

Definition modify (f : IR -> IR) : M unit := fun g => Ok tt (f g).

(** A query of the graph whose host precondition may fail. *)
Definition getsSome {A} (f : IR -> option A) : M A :=
  fun g => assertSome (f g) g.

Fixpoint forM_ {A} (l : list A) (f : A -> M unit) : M unit :=
  match l with
  | [] => ret tt
  | x :: l' => let* _ := f x in forM_ l' f
  end.

Inductive LogicalResult := success | failure.

(** *** Queries *)

Definition isBlockArgument (v : Value) : bool :=
  match v with
  | BlockArgument _ _ => true
  | OpResult _ _ => false
  end.

Definition getDefiningOp (v : Value) : option OpId :=
  match v with
  | OpResult o _ => Some o
  | BlockArgument _ _ => None
  end.

Definition getType (g : IR) (v : Value) : option Type_ :=
  match v with
  | OpResult o i => op ← irOps g !! o; opResultTypes op !! i
  | BlockArgument b i => blk ← irBlocks g !! b; blockArguments blk !! i
  end.

Definition getUses (g : IR) (v : Value) : list OpOperand :=
  default [] (irUses g !! v).

Definition getUsers (g : IR) (v : Value) : list OpId :=
  useOwner <$> getUses g v.

Definition hasOneUse (g : IR) (v : Value) : bool :=
  bool_decide (length (getUses g v) = 1).

Definition use_empty (g : IR) (v : Value) : bool :=
  bool_decide (getUses g v = []).

Definition getOperand (g : IR) (o : OpId) (i : nat) : option Value :=
  op ← irOps g !! o; opOperands op !! i.

Definition isa (g : IR) (o : OpId) (n : OpName) : bool :=
  match irOps g !! o with
  | Some op => bool_decide (opName op = n)
  | None => false
  end.

(** [dyn_cast_or_null<memref::AllocOp>(v.getDefiningOp())]. *)
Definition definingAllocOp (g : IR) (v : Value) : option OpId :=
  match getDefiningOp v with
  | Some o => if isa g o AllocOp then Some o else None
  | None => None
  end.

Fixpoint indexOf (o : OpId) (l : list OpId) : option nat :=
  match l with
  | [] => None
  | x :: l' => if decide (x = o) then Some 0 else S <$> indexOf o l'
  end.

(** [a->isBeforeInBlock(b)]; the host asserts that both operations lie in the
    same block. *)
Definition isBeforeInBlock (g : IR) (a b : OpId) : option bool :=
  opA ← irOps g !! a;
  opB ← irOps g !! b;
  if decide (opBlock opA = opBlock opB) then
    blk ← irBlocks g !! opBlock opA;
    ia ← indexOf a (blockOperations blk);
    ib ← indexOf b (blockOperations blk);
    Some (bool_decide (ia < ib))
  else None.

(** [block->getTerminator()]: the last operation of a non-empty block. *)
Definition getTerminator (g : IR) (b : BlockId) : option OpId :=
  blk ← irBlocks g !! b; last (blockOperations blk).

(** [op->getParentOp()], null for an operation of a top-level block. *)
Definition getParentOp (g : IR) (o : OpId) : option OpId :=
  op ← irOps g !! o; blk ← irBlocks g !! opBlock op; blockParentOp blk.

Definition getElementType (t : Type_) : option ElementType :=
  match t with
  | MemRefType e _ _ => Some e
  | TensorType e _ => Some e
  | _ => None
  end.

(** [v.getType().cast<ShapedType>().getElementType().isa<IntegerType>()];
    the cast asserts on a type that is not shaped. *)
Definition hasIntegerElementType (g : IR) (v : Value) : option bool :=
  t ← getType g v;
  e ← getElementType t;
  Some (match e with IntegerType _ => true | _ => false end).

(** [hasNonIdentityLayout] of LayoutHelper: a memref whose layout is not the
    identity. *)
Definition hasNonIdentityLayout (t : Type_) : bool :=
  match t with
  | MemRefType _ _ identity => negb identity
  | _ => false
  end.

Definition hasStaticShape (shape : list (option nat)) : bool :=
  forallb (fun d => match d with Some _ => true | None => false end) shape.

(** *** Mutations *)

Definition getOp (o : OpId) : M Operation :=
  fun g => match irOps g !! o with
           | Some op => Ok op g
           | None => Abort
           end.

Definition getBlock (b : BlockId) : M Block :=
  fun g => match irBlocks g !! b with
           | Some blk => Ok blk g
           | None => Abort
           end.

(** [cast<OpTy>(op)] asserts the kind of the operation. *)
Definition castOp (n : OpName) (o : OpId) : M unit :=
  fun g => if isa g o n then Ok tt g else Abort.

Definition withOperands (op : Operation) (l : list Value) : Operation :=
  {| opName := opName op; opOperands := l; opResultTypes := opResultTypes op;
     opAttrs := opAttrs op; opRegions := opRegions op; opBlock := opBlock op |}.

Definition withResultTypes (op : Operation) (l : list Type_) : Operation :=
  {| opName := opName op; opOperands := opOperands op; opResultTypes := l;
     opAttrs := opAttrs op; opRegions := opRegions op; opBlock := opBlock op |}.

Definition withAttrs (op : Operation) (a : Attributes) : Operation :=
  {| opName := opName op; opOperands := opOperands op;
     opResultTypes := opResultTypes op;
     opAttrs := a; opRegions := opRegions op; opBlock := opBlock op |}.

Definition withBlock (op : Operation) (b : BlockId) : Operation :=
  {| opName := opName op; opOperands := opOperands op;
     opResultTypes := opResultTypes op;
     opAttrs := opAttrs op; opRegions := opRegions op; opBlock := b |}.

Definition withOperations (blk : Block) (l : list OpId) : Block :=
  {| blockArguments := blockArguments blk; blockOperations := l;
     blockParentOp := blockParentOp blk |}.

Definition withMap (a : Attributes) (m : AffineMap) : Attributes :=
  {| layoutAttr := layoutAttr a; valueAttr := valueAttr a; toAttr := toAttr a;
     mapAttr := Some m |}.

(** A new use is linked at the head of the use list. *)
Definition addUse (v : Value) (u : OpOperand) (g : IR) : IR :=
  {| irOps := irOps g; irBlocks := irBlocks g;
     irUses := <[v := u :: getUses g v]> (irUses g) |}.

Definition removeUse (v : Value) (u : OpOperand) (g : IR) : IR :=
  {| irOps := irOps g; irBlocks := irBlocks g;
     irUses := <[v := filter (fun u' => u' ≠ u) (getUses g v)]> (irUses g) |}.

Definition putOp (o : OpId) (op : Operation) (g : IR) : IR :=
  {| irOps := <[o := op]> (irOps g); irBlocks := irBlocks g; irUses := irUses g |}.

(** [op->setOperand(i, v)]: the operand leaves the use list of its old value
    and enters, at the head, the use list of [v]. *)
Definition setOperand (o : OpId) (i : nat) (v : Value) : M unit :=
  let* op := getOp o in
  let* old := assertSome (opOperands op !! i) in
  modify (fun g =>
    putOp o (withOperands op (<[i := v]> (opOperands op)))
      (addUse v (mkUse o i) (removeUse old (mkUse o i) g))).

(** [v.replaceAllUsesWith(w)]: every use of [v], in use-list order, is set
    to [w]; the host asserts [v != w]. *)
Definition replaceAllUsesWith (v w : Value) : M unit :=
  if decide (v = w) then abort
  else
    let* us := gets (fun g => getUses g v) in
    forM_ us (fun u => setOperand (useOwner u) (operandNumber u) w).

(** [op->replaceUsesOfWith(from, to)]: every operand of [op] equal to [from]
    is set to [to]. *)
Definition replaceUsesOfWith (o : OpId) (from to : Value) : M unit :=
  let* op := getOp o in
  forM_ (seq 0 (length (opOperands op)))
    (fun i => if decide (opOperands op !! i = Some from)
              then setOperand o i to else ret tt).

(** The graph without operation [o] of block [b]: the operation leaves the
    block and its operands leave their use lists. *)
Definition erased (o : OpId) (b : BlockId) (g : IR) : IR :=
  {| irOps := delete o (irOps g);
     irBlocks :=
       alter (fun blk => withOperations blk
                           (filter (fun x => x ≠ o) (blockOperations blk)))
             b (irBlocks g);
     irUses := filter (fun u => useOwner u ≠ o) <$> irUses g |}.

(** [rewriter.eraseOp(op)]: the host asserts that no result of [op] is still
    used.  The patterns below erase operations without regions only. *)
Definition eraseOp (o : OpId) : M unit :=
  let* op := getOp o in
  let* unused := gets (fun g =>
    forallb (fun i => use_empty g (OpResult o i))
            (seq 0 (length (opResultTypes op)))) in
  if negb unused then abort
  else modify (erased o (opBlock op)).

(** The insertion point of a builder: new operations go into [ipBlock]
    before [ipBefore], or at the end of the block. *)
Record InsertPoint := mkInsertPoint { ipBlock : BlockId; ipBefore : option OpId }.

Definition setInsertionPoint (g : IR) (o : OpId) : option InsertPoint :=
  op ← irOps g !! o;
  Some {| ipBlock := opBlock op; ipBefore := Some o |}.

Definition setInsertionPointAfter (g : IR) (o : OpId) : option InsertPoint :=
  op ← irOps g !! o;
  blk ← irBlocks g !! opBlock op;
  i ← indexOf o (blockOperations blk);
  Some {| ipBlock := opBlock op; ipBefore := blockOperations blk !! S i |}.

Definition insertAt (anchor : option OpId) (x : OpId) (l : list OpId) : list OpId :=
  match anchor with
  | None => l ++ [x]
  | Some a =>
      match indexOf a l with
      | Some i => take i l ++ x :: drop i l
      | None => l ++ [x]
      end
  end.

(** The operands of a new operation enter the use lists in operand order. *)
Definition registerUses (o : OpId) (operands : list Value) (g : IR) : IR :=
  foldl (fun g' iv => addUse iv.2 (mkUse o iv.1) g') g (imap pair operands).

(** [builder.create<Op>(...)] at an insertion point; the new operation has a
    fresh identity and no regions. *)
Definition createOp (ip : InsertPoint) (n : OpName) (operands : list Value)
    (resultTypes : list Type_) (attrs : Attributes) : M OpId :=
  let* blk := getBlock (ipBlock ip) in
  fun g =>
    let o := fresh (dom (irOps g)) in
    Ok o
      (registerUses o operands
         {| irOps := <[o := mkOperation n operands resultTypes attrs [] (ipBlock ip)]>
                       (irOps g);
            irBlocks := <[ipBlock ip :=
                            withOperations blk
                              (insertAt (ipBefore ip) o (blockOperations blk))]>
                          (irBlocks g);
            irUses := irUses g |}).

Definition lookupOrDefault (mapping : gmap Value Value) (v : Value) : Value :=
  default v (mapping !! v).

(** [rewriter.clone(op, mapping)], for the operations without regions that
    the patterns clone (constants, loads, stores). *)
Definition cloneOp (ip : InsertPoint) (o : OpId) (mapping : gmap Value Value)
    : M OpId :=
  let* op := getOp o in
  match opRegions op with
  | [] => createOp ip (opName op) (lookupOrDefault mapping <$> opOperands op)
            (opResultTypes op) (opAttrs op)
  | _ :: _ => abort
  end.

(** Unlink [o] from its block and link it at [ip]. *)
Definition detachOp (o : OpId) : M unit :=
  let* op := getOp o in
  modify (fun g =>
    {| irOps := irOps g;
       irBlocks :=
         alter (fun blk => withOperations blk
                             (filter (fun x => x ≠ o) (blockOperations blk)))
               (opBlock op) (irBlocks g);
       irUses := irUses g |}).

Definition attachOp (o : OpId) (ip : InsertPoint) : M unit :=
  let* op := getOp o in
  let* blk := getBlock (ipBlock ip) in
  modify (fun g =>
    {| irOps := <[o := withBlock op (ipBlock ip)]> (irOps g);
       irBlocks := <[ipBlock ip :=
                       withOperations blk
                         (insertAt (ipBefore ip) o (blockOperations blk))]>
                     (irBlocks g);
       irUses := irUses g |}).

Definition moveBefore (o p : OpId) : M unit :=
  let* _ := detachOp o in
  let* ip := getsSome (fun g => setInsertionPoint g p) in
  attachOp o ip.

Definition moveAfter (o p : OpId) : M unit :=
  let* _ := detachOp o in
  let* ip := getsSome (fun g => setInsertionPointAfter g p) in
  attachOp o ip.

Definition setResultType (o : OpId) (i : nat) (t : Type_) : M unit :=
  let* op := getOp o in
  if decide (i < length (opResultTypes op)) then
    modify (putOp o (withResultTypes op (<[i := t]> (opResultTypes op))))
  else abort.

Definition setMapAttr (o : OpId) (m : AffineMap) : M unit :=
  let* op := getOp o in
  modify (putOp o (withAttrs op (withMap (opAttrs op) m))).

(** The ODS accessors of [zlow.stick] and [zlow.unstick]: operands [X] and
    [Out], and the optional layout attribute. *)
Definition getX (o : OpId) : M Value :=
  getsSome (fun g => getOperand g o 0).

Definition getOut (o : OpId) : M Value :=
  getsSome (fun g => getOperand g o 1).

Definition getLayout (o : OpId) : M (option string) :=
  let* op := getOp o in ret (layoutAttr (opAttrs op)).

(** Modelled from the spec: the tag of the dimension-permuting layout variant,
    the constant [LAYOUT_NCHW] of LayoutHelper.hpp. *)
Definition LAYOUT_NCHW : string := "NCHW".

(* ================================================================== *)
(** ** ZLow patterns (ZLowRewrite.cpp) *)
(* ================================================================== *)

(** Remove unstick if there is no use of its second operand except itself. *)
Definition UnstickRemovalPattern (unstickOp : OpId) : M LogicalResult :=
  let* _ := castOp ZLowUnstickOp unstickOp in
  let* out := getOut unstickOp in
  let* one := gets (fun g => hasOneUse g out) in
  if negb one then ret failure
  else
    let* _ := eraseOp unstickOp in
    ret success.

(** Remove stick if there is no use of its second operand except itself. *)
Definition StickRemovalPattern (stickOp : OpId) : M LogicalResult :=
  let* _ := castOp ZLowStickOp stickOp in
  let* out := getOut stickOp in
  let* one := gets (fun g => hasOneUse g out) in
  if negb one then ret failure
  else
    let* _ := eraseOp stickOp in
    ret success.

(** The search loop of [UnstickStickRemovalPattern] over the users of the
    stick input: the first user that is an unstick whose [Out] is the stick
    input and that is before the stick in its block.  [None] is a failed host
    assertion, [Some None] a search without result. *)
Fixpoint findUnstickBeforeStick (g : IR) (stickInput : Value) (stickOp : OpId)
    (users : list OpId) : option (option OpId) :=
  match users with
  | [] => Some None
  | user :: rest =>
      if negb (isa g user ZLowUnstickOp) then
        findUnstickBeforeStick g stickInput stickOp rest
      else
        match getOperand g user 1 with
        | None => None
        | Some out =>
            if decide (out = stickInput) then
              match isBeforeInBlock g user stickOp with
              | None => None
              | Some true => Some (Some user)
              | Some false => findUnstickBeforeStick g stickInput stickOp rest
              end
            else findUnstickBeforeStick g stickInput stickOp rest
        end
  end.

Definition UnstickStickRemovalPattern (stickOp : OpId) : M LogicalResult :=
  let* _ := castOp ZLowStickOp stickOp in
  let* stickInput := getX stickOp in
  let* stickLayout := getLayout stickOp in
  (* Input is a block argument, ignore it. *)
  if isBlockArgument stickInput then ret failure
  else
    (* Get UnstickOp that produced the stick input. *)
    let* found := getsSome (fun g =>
      findUnstickBeforeStick g stickInput stickOp (getUsers g stickInput)) in
    match found with
    | None => ret failure
    | Some unstickOp =>
        (* Stick and Unstick use the same layout. *)
        let* unstickLayout := getLayout unstickOp in
        match stickLayout, unstickLayout with
        | Some sl, Some ul =>
            if decide (sl = ul) then
              (* Rewrite *)
              let* out := getOut stickOp in
              let* x := getX unstickOp in
              let* _ := replaceAllUsesWith out x in
              let* _ := eraseOp stickOp in
              ret success
            else ret failure
        | _, _ => ret failure
        end
    end.

(** The search loop of [StickViewUnstickRemovalPattern] over the users of
    the view source; [getLayout().value()] asserts that the tag is present. *)
Fixpoint findUnstickBeforeView (g : IR) (viewSource : Value) (viewOp : OpId)
    (users : list OpId) : option (option OpId) :=
  match users with
  | [] => Some None
  | user :: rest =>
      if negb (isa g user ZLowUnstickOp) then
        findUnstickBeforeView g viewSource viewOp rest
      else
        match irOps g !! user ≫= (fun op => layoutAttr (opAttrs op)) with
        | None => None
        | Some unstickLayout =>
            if decide (unstickLayout = LAYOUT_NCHW) then
              findUnstickBeforeView g viewSource viewOp rest
            else
              match getOperand g user 1 with
              | None => None
              | Some out =>
                  if decide (out = viewSource) then
                    match isBeforeInBlock g user viewOp with
                    | None => None
                    | Some true => Some (Some user)
                    | Some false =>
                        findUnstickBeforeView g viewSource viewOp rest
                    end
                  else findUnstickBeforeView g viewSource viewOp rest
              end
        end
  end.

(** [t.dyn_cast<MemRefType>().getShape()]; dereferencing the null result of
    the cast aborts. *)
Definition memRefShape (t : Type_) : option (list (option nat)) :=
  match t with
  | MemRefType _ shape _ => Some shape
  | _ => None
  end.

Definition StickViewUnstickRemovalPattern (stickOp : OpId) : M LogicalResult :=
  let* _ := castOp ZLowStickOp stickOp in
  let* stickInput := getX stickOp in
  (* Do not handle NCHW layout stickification that transposes data. *)
  let* stickLayoutOpt := getLayout stickOp in
  let* stickLayout := assertSome stickLayoutOpt in
  if decide (stickLayout = LAYOUT_NCHW) then ret failure
  else
  (* Input is a block argument, ignore it. *)
  if isBlockArgument stickInput then ret failure
  else
  (* Input must have no affine layout. *)
  let* stickInputType := getsSome (fun g => getType g stickInput) in
  if hasNonIdentityLayout stickInputType then ret failure
  else
  (* Input is a view. *)
  let* viewOp := assertSome (getDefiningOp stickInput) in
  let* isView := gets (fun g => isa g viewOp ViewLikeOp) in
  if negb isView then ret failure
  else
  (* Get the source of the view. *)
  let* viewSource := getsSome (fun g => getOperand g viewOp 0) in
  (* Get UnstickOp that unstickifies the view source. *)
  let* found := getsSome (fun g =>
    findUnstickBeforeView g viewSource viewOp (getUsers g viewSource)) in
  match found with
  | None => ret failure
  | Some unstickOp =>
      (* Match shapes. *)
      let* stickRes := getOut stickOp in
      let* unstickInput := getX unstickOp in
      let* stickResShape := getsSome (fun g => getType g stickRes ≫= memRefShape) in
      if negb (hasStaticShape stickResShape) then ret failure
      else
      let* unstickInputShape :=
        getsSome (fun g => getType g unstickInput ≫= memRefShape) in
      if decide (stickResShape ≠ unstickInputShape) then ret failure
      else
        (* Rewrite *)
        let* _ := eraseOp stickOp in
        let* _ := replaceAllUsesWith stickRes unstickInput in
        (* Remove the view op if there is no use. *)
        let* view := getOp viewOp in
        let* _ := assertSome (opResultTypes view !! 0) in
        let* unused := gets (fun g => use_empty g (OpResult viewOp 0)) in
        let* _ := if unused then eraseOp viewOp else ret tt in
        ret success
  end.

(** *** The load and store steps of [UnstickLoadStoreStickRemovalPattern] *)

(** [rewriter.replaceOp(op, {v})] for an operation with one result. *)
Definition replaceOp (o : OpId) (v : Value) : M unit :=
  let* op := getOp o in
  if decide (length (opResultTypes op) = 1) then
    let* _ := replaceAllUsesWith (OpResult o 0) v in
    eraseOp o
  else abort.

Definition getAffineMapAttr (o : OpId) : M AffineMap :=
  let* op := getOp o in assertSome (mapAttr (opAttrs op)).

(** The body of the loop over [loadOps], lines 363-386: the load is cloned
    onto the stickified memref, its index map is permuted for layout NCHW,
    and a [ZLowDummyOp] converts the loaded element back.  The result is
    the cloned operation. *)
Definition rewriteLoadOp (stickifiedMemRef : Value)
    (stickifiedElementType cpuElementType : ElementType)
    (unstickNCHWLayout : bool) (loadOp : OpId) : M OpId :=
  let* ip := getsSome (fun g => setInsertionPointAfter g loadOp) in
  (* Clone loadOp with new Memref, indices and return type. *)
  let* loadMemref := getsSome (fun g => getOperand g loadOp 0) in
  let* clonedOp := cloneOp ip loadOp {[ loadMemref := stickifiedMemRef ]} in
  let* _ := setResultType clonedOp 0 (ScalarType stickifiedElementType) in
  (* Permute affine_map in case of NCHW layout. *)
  let* _ :=
    if unstickNCHWLayout then
      let* oldMap := getAffineMapAttr loadOp in
      let* newMap := assertSome (compose (getPermutationMap permutationNCHW) oldMap) in
      setMapAttr clonedOp newMap
    else ret tt in
  let* dummyConverter :=
    createOp ip ZLowDummyOp [OpResult clonedOp 0] [ScalarType cpuElementType]
      noAttributes in
  let* _ := replaceOp loadOp (OpResult dummyConverter 0) in
  ret clonedOp.

(** The loop of lines 407-421 over the operands of the stick-side
    allocation: the defining operations that are not before the store-side
    allocation are moved behind it, one after the other. *)
Fixpoint moveAllocOperands (storeAllocOp : OpId) (operands : list Value)
    (justMovedOp : option OpId) : M (option OpId) :=
  match operands with
  | [] => ret justMovedOp
  | oprd :: rest =>
      match getDefiningOp oprd with
      | None => moveAllocOperands storeAllocOp rest justMovedOp
      | Some opToMove =>
          let* before := getsSome (fun g => isBeforeInBlock g opToMove storeAllocOp) in
          if before : bool then moveAllocOperands storeAllocOp rest justMovedOp
          else
            let* _ := moveAfter opToMove (default storeAllocOp justMovedOp) in
            moveAllocOperands storeAllocOp rest (Some opToMove)
      end
  end.

(** The body of the loop over [storeOps], lines 389-451, for a store and the
    stick linked to it.  The result is the cloned operation. *)
Definition rewriteStoreOp (stickifiedElementType : ElementType)
    (storeOp myStickOp : OpId) : M OpId :=
  let* storeValue := getsSome (fun g => getOperand g storeOp 0) in
  let* storeMemref := getsSome (fun g => getOperand g storeOp 1) in
  let* stickMemref := getOut myStickOp in
  let* stickLayoutOpt := getLayout myStickOp in
  let* stickLayout := assertSome stickLayoutOpt in
  let stickNCHWLayout := bool_decide (stickLayout = LAYOUT_NCHW) in
  (* Move stickMemref's AllocOp up, just after storeMemref's AllocOp. *)
  let* storeAllocOp := assertSome (getDefiningOp storeMemref) in
  let* stickAllocOp := assertSome (getDefiningOp stickMemref) in
  let* stickAlloc := getOp stickAllocOp in
  let* justMovedOp := moveAllocOperands storeAllocOp (opOperands stickAlloc) None in
  let* _ := moveAfter stickAllocOp (default storeAllocOp justMovedOp) in
  (* Replace storeOp. *)
  let* ip := getsSome (fun g => setInsertionPointAfter g storeOp) in
  let* dummyConverter :=
    createOp ip ZLowDummyOp [storeValue] [ScalarType stickifiedElementType]
      noAttributes in
  (* Clone storeOp with new Memref, Value, and Indices. *)
  let* clonedOp :=
    cloneOp ip storeOp
      (<[ storeValue := OpResult dummyConverter 0 ]> {[ storeMemref := stickMemref ]}) in
  (* Permute affine_map in case of NCHW layout. *)
  let* _ :=
    if stickNCHWLayout then
      let* oldMap := getAffineMapAttr storeOp in
      let* newMap := assertSome (compose (getPermutationMap permutationNCHW) oldMap) in
      setMapAttr clonedOp newMap
    else ret tt in
  let* _ := eraseOp storeOp in
  ret clonedOp.

(** *** [InsertDeallocForAsyncExecRegionPattern] *)

Definition blockOps (g : IR) (b : BlockId) : list OpId :=
  match irBlocks g !! b with
  | Some blk => blockOperations blk
  | None => []
  end.

(** [region.getOps()]: the operations of the blocks of a region, in order. *)
Definition regionOps (g : IR) (region : list BlockId) : list OpId :=
  b ← region; blockOps g b.

(** The values an operation of the region takes from an allocation that lies
    outside the body block (lines 698-705). *)
Definition collectInputValues (g : IR) (body : BlockId) (ops : list OpId)
    : list Value :=
  o ← ops;
  v ← match irOps g !! o with Some op => opOperands op | None => [] end;
  match definingAllocOp g v with
  | Some allocOp =>
      match irOps g !! allocOp with
      | Some alloc => if decide (opBlock alloc ≠ body) then [OpResult allocOp 0] else []
      | None => []
      end
  | None => []
  end.

(** The users of the results of the [async.await] users of a value
    (lines 732-739). *)
Definition collectAwaitOutUsers (g : IR) (executeOpResult : Value) : list OpId :=
  user ← getUsers g executeOpResult;
  if isa g user AsyncAwaitOp then getUsers g (OpResult user 0) else [].

Definition InsertDeallocForAsyncExecRegionPattern (executeOp : OpId)
    : M LogicalResult :=
  let* _ := castOp AsyncExecuteOp executeOp in
  let* exec := getOp executeOp in
  let* bodyRegion := assertSome (opRegions exec !! 0) in
  let* opsOfRegion := gets (fun g => regionOps g bodyRegion) in
  let* body := assertSome (bodyRegion !! 0) in
  (* Get allocOps in body of async.execute, and the input values. *)
  let* regionAllocOps := gets (fun g => filter (fun o => isa g o AllocOp) opsOfRegion) in
  let* inputValues := gets (fun g => collectInputValues g body opsOfRegion) in
  (* The allocOp for the result value is an operand of async.yield. *)
  let* yieldOp := getsSome (fun g => getTerminator g body) in
  let* _ := castOp AsyncYieldOp yieldOp in
  let* yield := getOp yieldOp in
  (* Currently support single operand. *)
  if decide (1 < length (opOperands yield)) then ret failure
  else
  let* yieldOperand := assertSome (opOperands yield !! 0) in
  let* yAlloc := gets (fun g => definingAllocOp g yieldOperand) in
  match yAlloc with
  | None => ret failure
  | Some yAllocOp =>
      if decide (yAllocOp ∈ regionAllocOps) then
        let* _ := moveBefore yAllocOp executeOp in
        (* Currently support single body result. *)
        if decide (1 < length (opResultTypes exec) - 1) then ret failure
        else
        let* _ := assertSome (opResultTypes exec !! 1) in
        let executeOpResult := OpResult executeOp 1 in
        let* awaitOutUsers := gets (fun g => collectAwaitOutUsers g executeOpResult) in
        (* Insert deallocOp for the result value after it is used. *)
        let* firstUser := assertSome (awaitOutUsers !! 0) in
        let* yAllocRecord := getOp yAllocOp in
        let* firstRecord := getOp firstUser in
        let* insertionPointOp :=
          if decide (opBlock yAllocRecord ≠ opBlock firstRecord)
          then getsSome (fun g => getParentOp g firstUser)
          else ret firstUser in
        let* ip := getsSome (fun g => setInsertionPointAfter g insertionPointOp) in
        let* _ := createOp ip DeallocOp [OpResult yAllocOp 0] [] noAttributes in
        (* Insert deallocOp for the input values if not deallocated yet. *)
        let* _ := forM_ inputValues (fun inVal =>
          let* deallocated := gets (fun g =>
            existsb (fun user => isa g user DeallocOp) (getUsers g inVal)) in
          if deallocated : bool then ret tt
          else
            let* _ := createOp ip DeallocOp [inVal] [] noAttributes in
            ret tt) in
        ret success
      else ret failure
  end.

(* ================================================================== *)
(** ** [LoopOpRewriteMaxTripCountPattern] (Rewrite.cpp) *)
(* ================================================================== *)

(** Whether a value is defined by an [ONNXConstantOp] of integer element
    type whose value is a [DenseElementsAttr]. *)
Definition isDefinedByIntegerConstantOp (g : IR) (v : Value) : option bool :=
  match v with
  | BlockArgument _ _ => Some false
  | OpResult definingOp _ =>
      isInt ← hasIntegerElementType g v;
      Some (isInt && isa g definingOp ONNXConstantOp
            && bool_decide (is_Some (irOps g !! definingOp ≫=
                                       (fun op => valueAttr (opAttrs op)))))
  end.

(** [returnOp->getOperands()[arg.getArgNumber() - 1]]; the index is out of
    range for argument 0. *)
Definition returnedFor (g : IR) (argNumber : nat) (returnOp : OpId) : option Value :=
  match argNumber with
  | 0 => None
  | S k => getOperand g returnOp k
  end.

(** A block argument is invariant when the terminator hands it on
    unchanged. *)
Definition isInvariantBlockArg (g : IR) (v : Value) (returnOp : OpId) : option bool :=
  match v with
  | BlockArgument _ n =>
      r ← returnedFor g n returnOp; Some (bool_decide (v = r))
  | OpResult _ _ => Some false
  end.

Definition isIntConstantOrInvariantBlockArg (g : IR) (v : Value) (returnOp : OpId)
    : option bool :=
  if isBlockArgument v then isInvariantBlockArg g v returnOp
  else isDefinedByIntegerConstantOp g v.

Definition isUpdatedArgByValue (g : IR) (v newV : Value) (returnOp : OpId)
    : option bool :=
  match v with
  | BlockArgument _ n =>
      r ← returnedFor g n returnOp; Some (bool_decide (newV = r))
  | OpResult _ _ => Some false
  end.

(** The value that is fed to an operation's argument. *)
Definition getFedValue (g : IR) (arg : Value) (o : OpId) : option Value :=
  match arg with
  | BlockArgument _ n => getOperand g o n
  | OpResult _ _ => None
  end.

(** The first element of the dense value of the defining constant. *)
Definition getOneIntegerConstant (g : IR) (v : Value) : option Z :=
  definingOp ← getDefiningOp v;
  op ← irOps g !! definingOp;
  if decide (opName op = ONNXConstantOp) then
    values ← valueAttr (opAttrs op); values !! 0
  else None.

Definition elementTypeOf (g : IR) (v : Value) : option ElementType :=
  getType g v ≫= getElementType.

Definition withElementType (t : Type_) (e : ElementType) : Type_ :=
  match t with
  | MemRefType _ shape layout => MemRefType e shape layout
  | TensorType _ shape => TensorType e shape
  | ScalarType _ => ScalarType e
  | _ => t
  end.

(** Modelled from the spec: the emitters of [OnnxBuilder] (DialectBuilder,
    not among the sources) create one operation at the insertion point and
    return its result; the result has the type of the first operand, with
    the target element type for a cast. *)
Definition emitOp (ip : InsertPoint) (n : OpName) (operands : list Value)
    (attrs : Attributes) (elementType : option ElementType) : M Value :=
  let* first := assertSome (operands !! 0) in
  let* t := getsSome (fun g => getType g first) in
  let* o := createOp ip n operands
              [match elementType with Some e => withElementType t e | None => t end]
              attrs in
  ret (OpResult o 0).

Definition onnx_cast (ip : InsertPoint) (v : Value) (to : ElementType) : M Value :=
  emitOp ip ONNXCastOp [v]
    {| layoutAttr := None; valueAttr := None; toAttr := Some to; mapAttr := None |}
    (Some to).

Definition onnx_constant (ip : InsertPoint) (e : ElementType) (values : list Z)
    : M Value :=
  let* o := createOp ip ONNXConstantOp [] [TensorType e (Some [])]
              {| layoutAttr := None; valueAttr := Some values; toAttr := None;
                 mapAttr := None |} in
  ret (OpResult o 0).

(** The bindings of the loop idiom. *)
Record LoopIdiom := mkLoopIdiom {
  lbValue : Value;
  ubValue : Value;
  stepValue : Value;
}.

(** [ubValue]/[stepValue] outside the loop: the value fed to an invariant
    argument, or a clone of the defining constant (lines 717-727). *)
Definition hoistBound (ip : InsertPoint) (v : Value) (returnOp loopOp : OpId)
    : M Value :=
  let* invariant := getsSome (fun g => isInvariantBlockArg g v returnOp) in
  if invariant : bool then getsSome (fun g => getFedValue g v loopOp)
  else
    let* definingOp := assertSome (getDefiningOp v) in
    let* _ := castOp ONNXConstantOp definingOp in
    let* cloned := cloneOp ip definingOp ∅ in
    ret (OpResult cloned 0).

(** The match sequence of [matchOp], lines 642-727: [None] when the idiom
    is not matched. *)
Definition matchIdiom (ip : InsertPoint) (loopOp : OpId) : M (option LoopIdiom) :=
  let* maxTripCountValue := getsSome (fun g => getOperand g loopOp 0) in
  (* The maximum trip count is a constant. *)
  let* maxIsConstant :=
    getsSome (fun g => isDefinedByIntegerConstantOp g maxTripCountValue) in
  if negb maxIsConstant then ret None
  else
  (* Make sure the region has only one block. *)
  let* loop := getOp loopOp in
  let* loopBody := assertSome (opRegions loop !! 0) in
  match loopBody with
  | [bodyBlock] =>
      (* Get ReturnOp of the body block. *)
      let* returnOp := getsSome (fun g => getTerminator g bodyBlock) in
      let* isReturn := gets (fun g => isa g returnOp ONNXReturnOp) in
      if negb isReturn then ret None
      else
      (* The break condition is the first argument of ReturnOp. *)
      let* breakCond := getsSome (fun g => getOperand g returnOp 0) in
      match getDefiningOp breakCond with
      | None => ret None
      | Some breakCondOp =>
          (* Only support LessOp. *)
          let* isLess := gets (fun g => isa g breakCondOp ONNXLessOp) in
          if negb isLess then ret None
          else
          let* newCounterValue := getsSome (fun g => getOperand g breakCondOp 0) in
          let* ubValue := getsSome (fun g => getOperand g breakCondOp 1) in
          (* Input type of Less must be integer. *)
          let* isInt := getsSome (fun g => hasIntegerElementType g newCounterValue) in
          if negb isInt then ret None
          else
          (* Only support ONNXAddOp. *)
          match getDefiningOp newCounterValue with
          | None => ret None
          | Some addOp =>
              let* isAdd := gets (fun g => isa g addOp ONNXAddOp) in
              if negb isAdd then ret None
              else
              let* counterValue := getsSome (fun g => getOperand g addOp 0) in
              let* stepValue := getsSome (fun g => getOperand g addOp 1) in
              (* Counter is a block argument and updated at each iteration. *)
              let* updated := getsSome (fun g =>
                isUpdatedArgByValue g counterValue newCounterValue returnOp) in
              if negb updated then ret None
              else
              (* Step must be a constant or an invariant argument. *)
              let* stepOk := getsSome (fun g =>
                isIntConstantOrInvariantBlockArg g stepValue returnOp) in
              if negb stepOk then ret None
              else
              (* LowerBound is the initial value of the counter. *)
              let* lbValue := getsSome (fun g => getFedValue g counterValue loopOp) in
              (* UpperBound must be a constant or an invariant argument. *)
              let* ubOk := getsSome (fun g =>
                isIntConstantOrInvariantBlockArg g ubValue returnOp) in
              if negb ubOk then ret None
              else
              let* ubValue' := hoistBound ip ubValue returnOp loopOp in
              let* stepValue' := hoistBound ip stepValue returnOp loopOp in
              ret (Some {| lbValue := lbValue; ubValue := ubValue';
                           stepValue := stepValue' |})
          end
      end
  | _ => ret None
  end.

(** Whether the three bounds are compile-time constants (lines 731-733). *)
Definition allConstants (g : IR) (b : LoopIdiom) : option bool :=
  lbC ← isDefinedByIntegerConstantOp g (lbValue b);
  if lbC : bool then
    ubC ← isDefinedByIntegerConstantOp g (ubValue b);
    if ubC : bool then isDefinedByIntegerConstantOp g (stepValue b)
    else Some false
  else Some false.

(** Case 1, lines 734-752. *)
Definition resolveConstant (ip : InsertPoint) (maxTripCountValue : Value)
    (b : LoopIdiom) : M (bool * Value) :=
  let* lowerBound := getsSome (fun g => getOneIntegerConstant g (lbValue b)) in
  let* upperBound := getsSome (fun g => getOneIntegerConstant g (ubValue b)) in
  let* step := getsSome (fun g => getOneIntegerConstant g (stepValue b)) in
  if ((step <=? 0) || (upperBound <=? lowerBound))%Z
  then ret (false, maxTripCountValue)
  else
    let derived := derivedTripCount lowerBound upperBound step in
    let* maxTripCount := getsSome (fun g => getOneIntegerConstant g maxTripCountValue) in
    (* Check that the new trip count is smaller than the original. *)
    if (maxTripCount <=? derived)%Z then ret (false, maxTripCountValue)
    else
      let* e := getsSome (fun g => elementTypeOf g maxTripCountValue) in
      let* c := onnx_constant ip e [derived] in
      ret (true, c).

(** Case 2, lines 759-779: emit
    [min(old_max_trip_count, ceil((upper_bound - lower_bound) / step))]. *)
Definition resolveDynamic (ip : InsertPoint) (maxTripCountValue : Value)
    (b : LoopIdiom) : M (bool * Value) :=
  let* tripCountType := getsSome (fun g => elementTypeOf g maxTripCountValue) in
  (* Cast the upper and lower bounds to the correct type. *)
  let* ubType := getsSome (fun g => elementTypeOf g (ubValue b)) in
  let* ub := if decide (tripCountType ≠ ubType)
             then onnx_cast ip (ubValue b) tripCountType else ret (ubValue b) in
  let* lbType := getsSome (fun g => elementTypeOf g (lbValue b)) in
  let* lb := if decide (tripCountType ≠ lbType)
             then onnx_cast ip (lbValue b) tripCountType else ret (lbValue b) in
  (* Emit code to compute the max trip count. *)
  let* range := emitOp ip ONNXSubOp [ub; lb] noAttributes None in
  let* rangeInFloat := onnx_cast ip range (FloatType 32) in
  let* stepInFloat := onnx_cast ip (stepValue b) (FloatType 32) in
  let* quotient := emitOp ip ONNXDivOp [rangeInFloat; stepInFloat] noAttributes None in
  let* tripCountInFloat := emitOp ip ONNXCeilOp [quotient] noAttributes None in
  let* newMaxTripCountValue := onnx_cast ip tripCountInFloat tripCountType in
  let* m := emitOp ip ONNXMinOp [maxTripCountValue; newMaxTripCountValue]
              noAttributes None in
  ret (true, m).

Definition matchOp (ip : InsertPoint) (loopOp : OpId) : M (bool * Value) :=
  let* maxTripCountValue := getsSome (fun g => getOperand g loopOp 0) in
  let* idiom := matchIdiom ip loopOp in
  match idiom with
  | None => ret (false, maxTripCountValue)
  | Some b =>
      let* constants := getsSome (fun g => allConstants g b) in
      if constants : bool then resolveConstant ip maxTripCountValue b
      else resolveDynamic ip maxTripCountValue b
  end.

(** The rewriting phase of [matchAndRewrite], lines 558-564: the new maximum
    trip count replaces the old one among the operands of the loop, and
    operand 0 of the body terminator becomes the second block argument. *)
Definition rewriteLoop (loopOp : OpId) (maxTripCountValue newMaxTripCountValue : Value)
    : M LogicalResult :=
  (* Rewrite *)
  let* _ := replaceUsesOfWith loopOp maxTripCountValue newMaxTripCountValue in
  (* Modify the condition return *)
  let* loop := getOp loopOp in
  let* bodyBlock := assertSome (opRegions loop !! 0 ≫= (fun r => r !! 0)) in
  let* loopBodyTerminator := getsSome (fun g => getTerminator g bodyBlock) in
  let* body := getBlock bodyBlock in
  let* _ := assertSome (blockArguments body !! 1) in
  let* _ := setOperand loopBodyTerminator 0 (BlockArgument bodyBlock 1) in
  ret success.

(** [matchAndRewrite]; the driver has set the insertion point before the
    matched loop. *)
Definition LoopOpRewriteMaxTripCountPattern (loopOp : OpId) : M LogicalResult :=
  let* _ := castOp ONNXLoopOp loopOp in
  let* ip := getsSome (fun g => setInsertionPoint g loopOp) in
  let* maxTripCountValue := getsSome (fun g => getOperand g loopOp 0) in
  let* (matched, newMaxTripCountValue) := matchOp ip loopOp in
  if negb matched then ret failure
  else rewriteLoop loopOp maxTripCountValue newMaxTripCountValue.

(* ================================================================== *)
(** ** Sample graphs *)
(* ================================================================== *)

Definition mkGraph (ops : list (OpId * Operation)) (blocks : list (BlockId * Block))
    (uses : list (Value * list OpOperand)) : IR :=
  {| irOps := list_to_map ops; irBlocks := list_to_map blocks;
     irUses := list_to_map uses |}.

Definition simpleOp (n : OpName) (operands : list Value) (results : list Type_)
    (b : BlockId) : Operation :=
  mkOperation n operands results noAttributes [] b.

Definition layoutOp (n : OpName) (operands : list Value) (layout : string)
    (b : BlockId) : Operation :=
  mkOperation n operands []
    {| layoutAttr := Some layout; valueAttr := None; toAttr := None;
       mapAttr := None |} [] b.

Definition f16 : ElementType := FloatType 16.
Definition f32 : ElementType := FloatType 32.
Definition i64 : ElementType := IntegerType 64.

Definition stickified (shape : list nat) : Type_ :=
  MemRefType f16 (Some <$> shape) false.

Definition normalized (shape : list nat) : Type_ :=
  MemRefType f32 (Some <$> shape) true.

(** [zlow.unstick(%0, %1) {3DS}] whose output buffer has no other use; the
    function returns [%0]. *)
Definition deadUnstickGraph : IR :=
  mkGraph
    [ (0, simpleOp AllocOp [] [stickified [2; 3; 4]] 0);
      (1, simpleOp AllocOp [] [normalized [2; 3; 4]] 0);
      (2, layoutOp ZLowUnstickOp [OpResult 0 0; OpResult 1 0] "3DS" 0);
      (3, simpleOp (OtherOp "func.return") [OpResult 0 0] [] 0) ]
    [ (0, mkBlock [] [0; 1; 2; 3] None) ]
    [ (OpResult 0 0, [mkUse 3 0; mkUse 2 0]);
      (OpResult 1 0, [mkUse 2 1]) ].

(** The same with a stick. *)
Definition deadStickGraph : IR :=
  mkGraph
    [ (0, simpleOp AllocOp [] [normalized [2; 3; 4]] 0);
      (1, simpleOp AllocOp [] [stickified [2; 3; 4]] 0);
      (2, layoutOp ZLowStickOp [OpResult 0 0; OpResult 1 0] "3DS" 0);
      (3, simpleOp (OtherOp "func.return") [OpResult 0 0] [] 0) ]
    [ (0, mkBlock [] [0; 1; 2; 3] None) ]
    [ (OpResult 0 0, [mkUse 3 0; mkUse 2 0]);
      (OpResult 1 0, [mkUse 2 1]) ].

(** [zlow.unstick(%0, %1) {3DS}; zlow.stick(%1, %3) {3DS}; use(%3)]. *)
Definition roundTripGraph : IR :=
  mkGraph
    [ (0, simpleOp AllocOp [] [stickified [2; 3; 4]] 0);
      (1, simpleOp AllocOp [] [normalized [2; 3; 4]] 0);
      (2, layoutOp ZLowUnstickOp [OpResult 0 0; OpResult 1 0] "3DS" 0);
      (3, simpleOp AllocOp [] [stickified [2; 3; 4]] 0);
      (4, layoutOp ZLowStickOp [OpResult 1 0; OpResult 3 0] "3DS" 0);
      (5, simpleOp (OtherOp "use") [OpResult 3 0] [] 0) ]
    [ (0, mkBlock [] [0; 1; 2; 3; 4; 5] None) ]
    [ (OpResult 0 0, [mkUse 2 0]);
      (OpResult 1 0, [mkUse 4 0; mkUse 2 1]);
      (OpResult 3 0, [mkUse 5 0; mkUse 4 1]) ].

(** Two unsticks of different layouts write the buffer that the stick
    reads: [unstick(%0, %2) {2D}; unstick(%1, %2) {3D}; stick(%2, %5) {2D}]. *)
Definition twoUnstickGraph : IR :=
  mkGraph
    [ (0, simpleOp AllocOp [] [stickified [4; 6]] 0);
      (1, simpleOp AllocOp [] [stickified [4; 6]] 0);
      (2, simpleOp AllocOp [] [normalized [4; 6]] 0);
      (3, layoutOp ZLowUnstickOp [OpResult 0 0; OpResult 2 0] "2D" 0);
      (4, layoutOp ZLowUnstickOp [OpResult 1 0; OpResult 2 0] "3D" 0);
      (5, simpleOp AllocOp [] [stickified [4; 6]] 0);
      (6, layoutOp ZLowStickOp [OpResult 2 0; OpResult 5 0] "2D" 0) ]
    [ (0, mkBlock [] [0; 1; 2; 3; 4; 5; 6] None) ]
    [ (OpResult 0 0, [mkUse 3 0]);
      (OpResult 1 0, [mkUse 4 0]);
      (OpResult 2 0, [mkUse 6 0; mkUse 4 1; mkUse 3 1]);
      (OpResult 5 0, [mkUse 6 1]) ].

(** The round trip across the boundary of a region:
    [unstick(%0, %1) {3DS}; async.execute { %4 = alloc; stick(%1, %4) {3DS};
    yield %4 }].  The stick in the region reads the buffer that the unstick
    in front of the region has written, as the sticks of the example in
    front of [InsertDeallocForAsyncExecRegionPattern] read [%alloc]. *)
Definition regionStickGraph : IR :=
  mkGraph
    [ (0, simpleOp AllocOp [] [stickified [2; 3; 4]] 0);
      (1, simpleOp AllocOp [] [normalized [2; 3; 4]] 0);
      (2, layoutOp ZLowUnstickOp [OpResult 0 0; OpResult 1 0] "3DS" 0);
      (3, mkOperation AsyncExecuteOp [] [OtherType; OtherType] noAttributes [[1]] 0);
      (4, simpleOp AllocOp [] [stickified [2; 3; 4]] 1);
      (5, layoutOp ZLowStickOp [OpResult 1 0; OpResult 4 0] "3DS" 1);
      (6, simpleOp AsyncYieldOp [OpResult 4 0] [] 1) ]
    [ (0, mkBlock [] [0; 1; 2; 3] None);
      (1, mkBlock [] [4; 5; 6] (Some 3)) ]
    [ (OpResult 0 0, [mkUse 2 0]);
      (OpResult 1 0, [mkUse 5 0; mkUse 2 1]);
      (OpResult 4 0, [mkUse 6 0; mkUse 5 1]) ].


(** [%t, %r = async.execute { %4 = alloc; yield %4 }; %1 = await %r;
    use1(%1); use2(%1)] with a given use list of [%1]. *)
Definition asyncGraphWith (awaitUses : list OpOperand) : IR :=
  mkGraph
    [ (0, mkOperation AsyncExecuteOp [] [OtherType; OtherType] noAttributes [[1]] 0);
      (1, simpleOp AsyncAwaitOp [OpResult 0 1] [normalized [4; 4]] 0);
      (2, simpleOp (OtherOp "use1") [OpResult 1 0] [] 0);
      (3, simpleOp (OtherOp "use2") [OpResult 1 0] [] 0);
      (4, simpleOp AllocOp [] [normalized [4; 4]] 1);
      (5, simpleOp AsyncYieldOp [OpResult 4 0] [] 1) ]
    [ (0, mkBlock [] [0; 1; 2; 3] None);
      (1, mkBlock [] [4; 5] (Some 0)) ]
    [ (OpResult 0 1, [mkUse 1 0]);
      (OpResult 1 0, awaitUses);
      (OpResult 4 0, [mkUse 5 0]) ].

(** The uses of [%1] listed in program order, as [replaceAllUsesWith] leaves
    them. *)
Definition asyncGraph : IR := asyncGraphWith [mkUse 2 0; mkUse 3 0].

(** [%t = async.execute { yield }]: a region that yields no value. *)
Definition asyncNoYieldGraph : IR :=
  mkGraph
    [ (0, mkOperation AsyncExecuteOp [] [OtherType] noAttributes [[1]] 0);
      (1, simpleOp AsyncYieldOp [] [] 1) ]
    [ (0, mkBlock [] [0] None);
      (1, mkBlock [] [1] (Some 0)) ]
    [ ].

Definition constantOp (e : ElementType) (values : list Z) (b : BlockId) : Operation :=
  mkOperation ONNXConstantOp [] [TensorType e (Some [])]
    {| layoutAttr := None; valueAttr := Some values; toAttr := None;
       mapAttr := None |} [] b.

Definition i64Tensor : Type_ := TensorType i64 (Some []).
Definition i1Tensor : Type_ := TensorType (IntegerType 1) (Some []).

(** The loop of the comment in Rewrite.cpp:
    [max_trip_count = 9223372036854775807, LB = -100, UB = 100, Step = 1]. *)
Definition loopGraph (maxTripCount lb ub step : Z) : IR :=
  mkGraph
    [ (0, constantOp i64 [maxTripCount] 0);
      (1, constantOp (IntegerType 1) [1%Z] 0);
      (2, constantOp i64 [ub] 0);
      (3, constantOp i64 [lb] 0);
      (4, mkOperation ONNXLoopOp
            [OpResult 0 0; OpResult 1 0; OpResult 2 0; OpResult 3 0]
            [i64Tensor; i64Tensor] noAttributes [[1]] 0);
      (5, simpleOp (OtherOp "func.return") [OpResult 4 1] [] 0);
      (6, constantOp i64 [step] 1);
      (7, simpleOp ONNXAddOp [BlockArgument 1 3; OpResult 6 0] [i64Tensor] 1);
      (8, simpleOp ONNXLessOp [OpResult 7 0; BlockArgument 1 2] [i1Tensor] 1);
      (9, simpleOp ONNXReturnOp [OpResult 8 0; BlockArgument 1 2; OpResult 7 0] [] 1) ]
    [ (0, mkBlock [] [0; 1; 2; 3; 4; 5] None);
      (1, mkBlock [i64Tensor; i1Tensor; i64Tensor; i64Tensor] [6; 7; 8; 9] (Some 4)) ]
    [ (OpResult 0 0, [mkUse 4 0]);
      (OpResult 1 0, [mkUse 4 1]);
      (OpResult 2 0, [mkUse 4 2]);
      (OpResult 3 0, [mkUse 4 3]);
      (OpResult 4 1, [mkUse 5 0]);
      (OpResult 6 0, [mkUse 7 1]);
      (OpResult 7 0, [mkUse 9 2; mkUse 8 0]);
      (OpResult 8 0, [mkUse 9 0]);
      (BlockArgument 1 2, [mkUse 9 1; mkUse 8 1]);
      (BlockArgument 1 3, [mkUse 7 0]) ].

(** The loop of the comment with its numbers, the loop operation in it, and
    the bindings the match sequence yields for it (the step constant of the
    body is cloned in front of the loop as operation 10). *)
Definition commentLoop : IR := loopGraph 9223372036854775807 (-100) 100 1.

Definition commentLoopOp : Operation :=
  mkOperation ONNXLoopOp
    [OpResult 0 0; OpResult 1 0; OpResult 2 0; OpResult 3 0]
    [i64Tensor; i64Tensor] noAttributes [[1]] 0.

Definition commentLoopIdiom : LoopIdiom :=
  {| lbValue := OpResult 3 0; ubValue := OpResult 2 0; stepValue := OpResult 10 0 |}.

(** The same loop with the lower bound a function argument, so that the
    new bound has to be computed at run time. *)
Definition loopGraphDynamic : IR :=
  mkGraph
    [ (0, constantOp i64 [9223372036854775807%Z] 0);
      (1, constantOp (IntegerType 1) [1%Z] 0);
      (2, constantOp i64 [100%Z] 0);
      (4, mkOperation ONNXLoopOp
            [OpResult 0 0; OpResult 1 0; OpResult 2 0; BlockArgument 0 0]
            [i64Tensor; i64Tensor] noAttributes [[1]] 0);
      (5, simpleOp (OtherOp "func.return") [OpResult 4 1] [] 0);
      (6, constantOp i64 [1%Z] 1);
      (7, simpleOp ONNXAddOp [BlockArgument 1 3; OpResult 6 0] [i64Tensor] 1);
      (8, simpleOp ONNXLessOp [OpResult 7 0; BlockArgument 1 2] [i1Tensor] 1);
      (9, simpleOp ONNXReturnOp [OpResult 8 0; BlockArgument 1 2; OpResult 7 0] [] 1) ]
    [ (0, mkBlock [i64Tensor] [0; 1; 2; 4; 5] None);
      (1, mkBlock [i64Tensor; i1Tensor; i64Tensor; i64Tensor] [6; 7; 8; 9] (Some 4)) ]
    [ (OpResult 0 0, [mkUse 4 0]);
      (OpResult 1 0, [mkUse 4 1]);
      (OpResult 2 0, [mkUse 4 2]);
      (BlockArgument 0 0, [mkUse 4 3]);
      (OpResult 4 1, [mkUse 5 0]);
      (OpResult 6 0, [mkUse 7 1]);
      (OpResult 7 0, [mkUse 9 2; mkUse 8 0]);
      (OpResult 8 0, [mkUse 9 0]);
      (BlockArgument 1 2, [mkUse 9 1; mkUse 8 1]);
      (BlockArgument 1 3, [mkUse 7 0]) ].

Definition mapOp (n : OpName) (operands : list Value) (results : list Type_)
    (m : AffineMap) (b : BlockId) : Operation :=
  mkOperation n operands results
    {| layoutAttr := None; valueAttr := None; toAttr := None; mapAttr := Some m |}
    [] b.

(** The index map [(d0, d1, d2, d3) -> (d0, d1, d3, d2)] of a load that
    transposes the two innermost axes. *)
Definition transposingMap : AffineMap :=
  {| numDims := 4; numSymbols := 0;
     mapResults := [AffineDimExpr 0; AffineDimExpr 1; AffineDimExpr 3; AffineDimExpr 2] |}.

(** [zlow.unstick(%0, %1) {NCHW}; %3 = affine.load %1[...];
    affine.store %3, %2[...]; zlow.stick(%2, %6) {NCHW}], the load and the
    store indexed through [m]. *)
Definition copyGraph (m : AffineMap) : IR :=
  mkGraph
    [ (0, simpleOp AllocOp [] [stickified [1; 5; 7; 3]] 0);
      (1, simpleOp AllocOp [] [normalized [1; 3; 5; 7]] 0);
      (2, simpleOp AllocOp [] [normalized [1; 3; 7; 5]] 0);
      (3, layoutOp ZLowUnstickOp [OpResult 0 0; OpResult 1 0] "NCHW" 0);
      (4, mapOp AffineLoadOp
            [OpResult 1 0; BlockArgument 0 0; BlockArgument 0 1;
             BlockArgument 0 2; BlockArgument 0 3] [ScalarType f32] m 0);
      (5, mapOp AffineStoreOp
            [OpResult 4 0; OpResult 2 0; BlockArgument 0 0; BlockArgument 0 1;
             BlockArgument 0 2; BlockArgument 0 3] [] m 0);
      (6, simpleOp AllocOp [] [stickified [1; 7; 5; 3]] 0);
      (7, layoutOp ZLowStickOp [OpResult 2 0; OpResult 6 0] "NCHW" 0) ]
    [ (0, mkBlock [OtherType; OtherType; OtherType; OtherType]
                  [0; 1; 2; 3; 4; 5; 6; 7] None) ]
    [ (OpResult 0 0, [mkUse 3 0]);
      (OpResult 1 0, [mkUse 4 0; mkUse 3 1]);
      (OpResult 2 0, [mkUse 7 0; mkUse 5 1]);
      (OpResult 4 0, [mkUse 5 0]);
      (OpResult 6 0, [mkUse 7 1]);
      (BlockArgument 0 0, [mkUse 5 2; mkUse 4 1]);
      (BlockArgument 0 1, [mkUse 5 3; mkUse 4 2]);
      (BlockArgument 0 2, [mkUse 5 4; mkUse 4 3]);
      (BlockArgument 0 3, [mkUse 5 5; mkUse 4 4]) ].

(* ================================================================== *)
(** ** Properties of graphs used in the statements *)
(* ================================================================== *)

(** Everything of an operation but its operands. *)
Definition opStatic (op : Operation)
    : OpName * list Type_ * Attributes * list (list BlockId) * BlockId :=
  (opName op, opResultTypes op, opAttrs op, opRegions op, opBlock op).

(** An operation is present in the graph: it is registered and listed in
    its block. *)
Definition presentOp (g : IR) (o : OpId) (n : OpName) : Prop :=
  ∃ op, irOps g !! o = Some op ∧ opName op = n ∧ o ∈ blockOps g (opBlock op).

(** The values reachable from [roots] along the definitions: the roots, and
    the operands of an operation that defines a reachable value. *)
Inductive reachable (g : IR) (roots : list Value) : Value -> Prop :=
  | reachable_root v : v ∈ roots -> reachable g roots v
  | reachable_operand o i op v :
      reachable g roots (OpResult o i) ->
      irOps g !! o = Some op ->
      i < length (opResultTypes op) ->
      v ∈ opOperands op ->
      reachable g roots v.

(** The declared results of a function: the operands of its return. *)
Definition declaredResults (g : IR) (returnOp : OpId) : list Value :=
  match irOps g !! returnOp with
  | Some op => opOperands op
  | None => []
  end.

(** A [zlow.stick] or [zlow.unstick] as the dialect declares it: two
    operands and no result. *)
Definition isConversion (g : IR) (o : OpId) (n : OpName) (x out : Value) : Prop :=
  ∃ op, irOps g !! o = Some op ∧ opName op = n ∧ opOperands op = [x; out]
        ∧ opResultTypes op = [].

(** [u] is an unstick that writes [x] and precedes [anchor] in its block. *)
Definition writesBefore (g : IR) (x : Value) (anchor u : OpId) : Prop :=
  isa g u ZLowUnstickOp = true ∧ getOperand g u 1 = Some x
  ∧ isBeforeInBlock g u anchor = Some true.

(** [u] is the first user of [x], in use-list order, that writes [x] before
    [anchor]. *)
Definition firstWriterBefore (g : IR) (x : Value) (anchor u : OpId) : Prop :=
  ∃ l1 l2, getUsers g x = l1 ++ u :: l2 ∧ writesBefore g x anchor u
           ∧ ∀ w, w ∈ l1 -> ¬ writesBefore g x anchor w.

(** The host preconditions of the search at one user [w] of [x]: an unstick
    has its [Out] operand, and lies in the block of [anchor] when it
    writes [x]. *)
Definition searchStep (g : IR) (x : Value) (anchor w : OpId) : bool :=
  if isa g w ZLowUnstickOp then
    match getOperand g w 1 with
    | Some out =>
        if decide (out = x)
        then bool_decide (is_Some (isBeforeInBlock g w anchor)) else true
    | None => false
    end
  else true.

Definition searchable (g : IR) (x : Value) (anchor : OpId) : bool :=
  forallb (searchStep g x anchor) (getUsers g x).

(** No unstick among the users of [x] reads the value [out]. *)
Definition sourceNotOutput (g : IR) (x out : Value) : bool :=
  forallb (fun w => negb (isa g w ZLowUnstickOp
                          && bool_decide (getOperand g w 0 = Some out)))
          (getUsers g x).

(** Every entry of the use list of [v] names an operand of a registered
    operation. *)
Definition usesValid (g : IR) (v : Value) : bool :=
  forallb (fun u => bool_decide (is_Some (getOperand g (useOwner u) (operandNumber u))))
          (getUses g v).

(** The layout tags of two operations are present and equal. *)
Definition sameLayout (g : IR) (a b : OpId) : Prop :=
  ∃ opA opB l, irOps g !! a = Some opA ∧ irOps g !! b = Some opB
               ∧ layoutAttr (opAttrs opA) = Some l
               ∧ layoutAttr (opAttrs opB) = Some l.

(** The condition under which the specification lets the round-trip removal
    succeed: some unstick writing the stick input precedes the stick and
    carries the same tag. *)
Definition someWriterWithSameLayout (g : IR) (stickOp : OpId) : Prop :=
  ∃ x u, getOperand g stickOp 0 = Some x ∧ isBlockArgument x = false
         ∧ writesBefore g x stickOp u ∧ sameLayout g stickOp u.

(** The condition the code tests: the first such unstick carries the tag. *)
Definition firstWriterWithSameLayout (g : IR) (stickOp : OpId) : Prop :=
  ∃ x u, getOperand g stickOp 0 = Some x ∧ isBlockArgument x = false
         ∧ firstWriterBefore g x stickOp u ∧ sameLayout g stickOp u.

(** "There is only one UnstickOp per buffer" (ZLowRewrite.cpp, lines
    87-88): at most one unstick has [x] as its [Out] operand. *)
Definition oneWriter (g : IR) (x : Value) : Prop :=
  ∀ u w, isa g u ZLowUnstickOp = true -> getOperand g u 1 = Some x ->
         isa g w ZLowUnstickOp = true -> getOperand g w 1 = Some x -> u = w.

(** The use list of [x] is complete for the unsticks that write [x]. *)
Definition writersListed (g : IR) (x : Value) : Prop :=
  ∀ u, isa g u ZLowUnstickOp = true -> getOperand g u 1 = Some x ->
       u ∈ getUsers g x.



(** [g'] is [g] with new operations created in block [b]: the operations of
    [g] are as they were, so are the other blocks, and the arguments of [b]. *)
Definition grows (b : BlockId) (g g' : IR) : Prop :=
  (∀ o op, irOps g !! o = Some op -> irOps g' !! o = Some op)
  ∧ (∀ b', b' ≠ b -> irBlocks g' !! b' = irBlocks g !! b')
  ∧ (∀ blk, irBlocks g !! b = Some blk ->
       ∃ blk', irBlocks g' !! b = Some blk'
               ∧ blockArguments blk' = blockArguments blk).

(** The body block of a loop: the first block of its region. *)
Definition bodyOf (g : IR) (loopOp : OpId) : option BlockId :=
  op ← irOps g !! loopOp; region ← opRegions op !! 0; region !! 0.

(** The unstick that [UnstickStickRemovalPattern] matches for a stick: the
    result of its search over the users of the stick input. *)
Definition matchedUnstickOfStick (g : IR) (stickOp : OpId) : option OpId :=
  x ← getOperand g stickOp 0;
  mjoin (findUnstickBeforeStick g x stickOp (getUsers g x)).

(** The unstick that [StickViewUnstickRemovalPattern] matches: the result
    of its search over the users of the source of the view that defines the
    stick input. *)
Definition matchedUnstickOfView (g : IR) (stickOp : OpId) : option OpId :=
  x ← getOperand g stickOp 0;
  viewOp ← getDefiningOp x;
  viewSource ← getOperand g viewOp 0;
  mjoin (findUnstickBeforeView g viewSource viewOp (getUsers g viewSource)).

(** The graph a rewriting step leaves behind (the given graph when the step
    aborts). *)
Definition graphAfter {A} (c : M A) (g : IR) : IR :=
  match c g with
  | Ok _ g' => g'
  | Abort => g
  end.

(** Every use of [v] in [g] by an operation that is still registered in
    [g'] is operand [w] there. *)
Definition usesRedirected (g g' : IR) (v w : Value) : Prop :=
  ∀ u, u ∈ getUses g v -> is_Some (irOps g' !! useOwner u) ->
       getOperand g' (useOwner u) (operandNumber u) = Some w.

(** [g'] differs from [g] in operands only, each one kept or set to [w]. *)
Definition operandsSetTo (w : Value) (g g' : IR) : Prop :=
  irBlocks g' = irBlocks g ∧
  ∀ o, match irOps g !! o, irOps g' !! o with
       | Some op, Some op' =>
           opStatic op' = opStatic op ∧
           ∀ j, opOperands op' !! j = opOperands op !! j
                ∨ (is_Some (opOperands op !! j) ∧ opOperands op' !! j = Some w)
       | None, None => True
       | _, _ => False
       end.

Open Scope Z_scope.

(* ================================================================== *)
(** ** Helper functions of the ConvTranspose decomposition
       (Rewrite.cpp, DecomposeAfter.cpp) *)
(* ================================================================== *)

(** *** Integers, arrays and counted loops of the host language *)

Definition INT_MAX : Z := 2147483647.

Definition UINT32_MAX : Z := 4294967295.

(** [ShapedType::kDynamic], the size of a dimension that is not known. *)
Definition kDynamic : Z := - 2 ^ 63.

Definition add64 (a b : Z) : Z := wrap64 (a + b).
Definition sub64 (a b : Z) : Z := wrap64 (a - b).
Definition mul64 (a b : Z) : Z := wrap64 (a * b).

(** [a[i]] for a 64-bit index: the host asserts that the index, read as a
    size, is below the length. *)
Definition nth64 {A} (l : list A) (i : Z) : option A :=
  if 0 <=? i then l !! Z.to_nat i else None.

(** The values of [i] in [for (int i = from; i <= to; ++i)]; the last
    increment overflows when [to] is [INT_MAX]. *)
Definition intRange (from to : Z) : option (list Z) :=
  if to <? from then Some []
  else if to <? INT_MAX then Some (seqZ from (to - from + 1))
  else None.

(** The number of rounds of [for (int i = 0; i < n; ++i)] for a 64-bit
    bound [n]; the counter overflows when [n] exceeds [INT_MAX]. *)
Definition intCount (n : Z) : option nat :=
  if n <=? INT_MAX then Some (Z.to_nat n) else None.

(** [SmallVector<T>(n, x)] for a 64-bit count [n] and elements of eight
    bytes: the size is a 32-bit number, and a negative count, read as a
    size, is beyond it. *)
Definition filled {A} (n : Z) (x : A) : option (list A) :=
  if (0 <=? n) && (n <=? UINT32_MAX) then Some (replicate (Z.to_nat n) x)
  else None.

(** [ArrayAttrIntVal(a, i)] of OpHelper (not among the sources): element
    [i] of an array of integer attributes. *)
Definition ArrayAttrIntVal (a : list Z) (i : nat) : option Z := a !! i.

(** *** Array attributes (Rewrite.cpp lines 43-80) *)

(** Create an ArrayAttr of IntegerAttr(s) of values in [N, M]. *)
Definition createArrayAttrOfNToM (N M : Z) : option (list Z) := intRange N M.

(** Create an ArrayAttr of IntegerAttr(s) of values in [1, N]. *)
Definition createArrayAttrOfOneToN (N : Z) : option (list Z) := intRange 1 N.

(** Get the index of the axis value in the given permutation array; the
    null attribute ([None]) when the axis does not occur. *)
Definition getIndexOfAxisInPerm (permAttr : list Z) (axis : Z) : option Z :=
  (fun r => Z.of_nat r.1) <$> list_find (fun attr => attr = axis) permAttr.

(** *** Pads and strides of the generated Conv
        (Rewrite.cpp lines 261-295, DecomposeAfter.cpp lines 195-231) *)

(** The kernel widened by the dilation:
    [kernel[i] + (kernel[i] - 1) * (dilation[i] - 1)]. *)
Definition dilatedKernel (kernel dilation : list Z) : option (list Z) :=
  mapM (fun i =>
          k ← ArrayAttrIntVal kernel i;
          d ← ArrayAttrIntVal dilation i;
          Some (add64 k (mul64 (sub64 k 1) (sub64 d 1))))
       (seq 0 (length kernel)).

(** [getPadsConvTranspose] of DecomposeAfter.cpp:
    [newPads[i] = newKernel[i % kernel.size()] - pads[i] - 1] for
    [i < 2 * kernel.size()]. *)
Definition getPadsConvTranspose (kernel pads dilation : list Z) : option (list Z) :=
  newKernel ← dilatedKernel kernel dilation;
  mapM (fun i =>
          k ← newKernel !! (i mod length kernel)%nat;
          p ← ArrayAttrIntVal pads i;
          Some (sub64 (sub64 k p) 1))
       (seq 0 (length kernel * 2)).

(** [getPadsConvTranspose2D] of Rewrite.cpp: the same with
    [newKernel[i % 2]]. *)
Definition getPadsConvTranspose2D (kernel pads dilation : list Z) : option (list Z) :=
  newKernel ← dilatedKernel kernel dilation;
  mapM (fun i =>
          k ← newKernel !! (i mod 2)%nat;
          p ← ArrayAttrIntVal pads i;
          Some (sub64 (sub64 k p) 1))
       (seq 0 (length kernel * 2)).

(** Check if strides is unit strides. *)
Definition hasUnitStrides (strides : list Z) : bool :=
  forallb (fun s => s =? 1) strides.

Definition createUnitStrides (strides : list Z) : list Z :=
  (fun _ => 1) <$> strides.

(** *** Tensor values and the operations a helper creates *)

(** A tensor type with its dimension sizes as the host stores them
    ([kDynamic] for an unknown size); [NotShaped] stands for every type that
    is not a [ShapedType]. *)
Inductive TensorT :=
  | RankedTensorType (shape : list Z) (elementType : ElementType)
  | UnrankedTensorType (elementType : ElementType)
  | NotShaped.

#[global] Instance TensorT_eq_dec : EqDecision TensorT.
Proof. solve_decision. Defined.

(** A value handed to a helper, or result [resultNumber] of the operation
    that the helper created at [position]. *)
Inductive ValueRef :=
  | Given (v : Value)
  | Made (position resultNumber : nat).

#[global] Instance ValueRef_eq_dec : EqDecision ValueRef.
Proof. solve_decision. Defined.

(** A value with the type it carries. *)
Record TValue := mkTValue { valueOf : ValueRef; typeOf : TensorT }.

#[global] Instance TValue_eq_dec : EqDecision TValue.
Proof. solve_decision. Defined.

(** The operations the helpers create, with the attributes they set; a call
    of a builder method of [OnnxBuilder] counts as the operation it is named
    after. *)
Inductive OnnxOp :=
  | OnnxTranspose (perm : list Z)
  | OnnxReverseSequence (batchAxis timeAxis : Z)
  | OnnxConstantInt64 (values : list Z)
  | OnnxShape
  | OnnxSlice (starts ends : Z)
  | OnnxConcat (axis : Z)
  | OnnxReshape
  | OnnxSplit (axis : Z)
  | OnnxPadZero.

Record Created := mkCreated {
  createdOp : OnnxOp;
  createdOperands : list TValue;
  createdResults : list TensorT;
}.

(** A helper appends the operations it creates, in order, at the insertion
    point of the rewriter; a failed host assertion is [None]. *)
Definition Emit (A : Type) : Type := list Created -> option (A * list Created).

Definition emitRet {A} (a : A) : Emit A := fun created => Some (a, created).

Definition emitBind {A B} (c : Emit A) (k : A -> Emit B) : Emit B :=
  fun created => match c created with
                 | Some (a, created') => k a created'
                 | None => None
                 end.

Notation "'let+' x ':=' c 'in' k" := (emitBind c (fun x => k))
  (at level 10, x pattern, c at level 100, k at level 200).

Definition emitAbort {A} : Emit A := fun _ => None.

Definition emitAssert {A} (o : option A) : Emit A :=
  fun created => match o with
                 | Some a => Some (a, created)
                 | None => None
                 end.

Fixpoint emitMapM {A B} (f : A -> Emit B) (l : list A) : Emit (list B) :=
  match l with
  | [] => emitRet []
  | x :: l' =>
      let+ y := f x in
      let+ ys := emitMapM f l' in
      emitRet (y :: ys)
  end.

(** [rounds] times [x = body(x)]. *)
Fixpoint emitRepeat {A} (rounds : nat) (body : A -> Emit A) (x : A) : Emit A :=
  match rounds with
  | O => emitRet x
  | S n => let+ y := body x in emitRepeat n body y
  end.

(** The creation of an operation with the given result types. *)
Definition create (op : OnnxOp) (operands : list TValue) (resultTypes : list TensorT)
    : Emit (list TValue) :=
  fun created =>
    Some (imap (fun i t => mkTValue (Made (length created) i) t) resultTypes,
          created ++ [mkCreated op operands resultTypes]).

Definition create1 (op : OnnxOp) (operands : list TValue) (resultType : TensorT)
    : Emit TValue :=
  let+ results := create op operands [resultType] in
  emitAssert (results !! 0%nat).

(** [t.cast<ShapedType>().getElementType()]. *)
Definition elementTypeOfT (t : TensorT) : option ElementType :=
  match t with
  | RankedTensorType _ e => Some e
  | UnrankedTensorType e => Some e
  | NotShaped => None
  end.

(** [t.cast<ShapedType>().getShape()]; the shape of an unranked tensor is
    empty. *)
Definition getShape (t : TensorT) : option (list Z) :=
  match t with
  | RankedTensorType shape _ => Some shape
  | UnrankedTensorType _ => Some []
  | NotShaped => None
  end.

(** [getRank] asserts that the type is ranked. *)
Definition getRank (t : TensorT) : option Z :=
  match t with
  | RankedTensorType shape _ => Some (Z.of_nat (length shape))
  | _ => None
  end.

Definition isRanked (t : TensorT) : bool :=
  match t with
  | RankedTensorType _ _ => true
  | _ => false
  end.

(** A dense constant of 64-bit integers: a tensor of one dimension. *)
Definition constantInt64 (values : list Z) : Emit TValue :=
  create1 (OnnxConstantInt64 values) []
    (RankedTensorType [Z.of_nat (length values)] (IntegerType 64)).

(** *** Transposition and reversal (Rewrite.cpp lines 135-259,
        DecomposeAfter.cpp lines 33-192) *)

(** Create ONNX Transpose op: dimension [i] of the result is dimension
    [perms[i]] of the input. *)
Definition emitONNXTranspose (x : TValue) (perms : list Z) : Emit TValue :=
  match typeOf x with
  | RankedTensorType inputShape elementType =>
      if decide (length inputShape = length perms) then
        let+ transposedShape := emitAssert (mapM (nth64 inputShape) perms) in
        create1 (OnnxTranspose perms) [x]
          (RankedTensorType transposedShape elementType)
      else emitAbort
  | UnrankedTensorType elementType =>
      create1 (OnnxTranspose perms) [x] (UnrankedTensorType elementType)
  | NotShaped => emitAbort
  end.

(** Create ONNX ReverseSequence op, its sequence lengths a constant. *)
Definition emitONNXReverseSequence (input : TValue) (slens : list Z)
    (batchAxis timeAxis : Z) : Emit TValue :=
  let+ constSlens := constantInt64 slens in
  if isRanked (typeOf input) then
    create1 (OnnxReverseSequence batchAxis timeAxis) [input; constSlens]
      (typeOf input)
  else emitAbort.

(** Reverse all elements of the first or second dimension of [input]:
    [inputShape[batchAxis]] sequence lengths, each [inputShape[timeAxis]]. *)
Definition reverseAllElements (input : TValue) (dimension : Z) : Emit TValue :=
  let+ inputShape := emitAssert (getShape (typeOf input)) in
  if negb ((dimension =? 0) || (dimension =? 1)) then emitAbort
  else
  let batchAxis := if dimension =? 0 then 1 else 0 in
  let timeAxis := if dimension =? 0 then 0 else 1 in
  let+ bound := emitAssert (nth64 inputShape batchAxis) in
  let+ rounds := emitAssert (intCount bound) in
  let+ slens := emitAssert (match rounds with
                            | O => Some []
                            | _ => len ← nth64 inputShape timeAxis;
                                   Some (replicate rounds len)
                            end) in
  emitONNXReverseSequence input slens batchAxis timeAxis.

(** One round of the loop of [reverseWeightTensor], lines 119-132: the
    first two dimensions are reversed and moved behind the others. *)
Definition reverseTwoAndRotate (rank : Z) (transposedInput : TValue) : Emit TValue :=
  let+ reverse0 := reverseAllElements transposedInput 0 in
  let+ reverse1 := reverseAllElements reverse0 1 in
  emitONNXTranspose reverse1 (seqZ 2 (rank - 2) ++ seqZ 0 2).

(** Step 3 of [reverseWeightTensor], lines 134-182: the first dimension
    is reversed and moved behind the others.  When the second dimension is
    not known the tensor is reshaped around the reversal so that the batch
    axis has size one. *)
Definition reverseOneAndRotate (rank : Z) (elementType : ElementType)
    (transposedInput : TValue) : Emit TValue :=
  let tInType := typeOf transposedInput in
  let+ tInShape := emitAssert (getShape tInType) in
  let+ second := emitAssert (nth64 tInShape 1) in
  let+ reverse0 :=
    if second =? kDynamic then
      let tInRank := Z.of_nat (length tInShape) in
      let i64T := IntegerType 64 in
      let+ tInShapeVals :=
        create1 OnnxShape [transposedInput] (RankedTensorType [tInRank] i64T) in
      let+ first := emitAssert (nth64 tInShape 0) in
      let+ tRank := emitAssert (getRank tInType) in
      let+ others := emitAssert (mapM (nth64 tInShape) (seqZ 1 (tRank - 1))) in
      let reshapedType := RankedTensorType (first :: 1 :: others) elementType in
      let+ oneVal := constantInt64 [1] in
      let+ firstShapeVal :=
        create1 (OnnxSlice 0 1) [tInShapeVals] (RankedTensorType [1] i64T) in
      let+ otherShapeVals :=
        create1 (OnnxSlice 1 tInRank) [tInShapeVals]
          (RankedTensorType [tInRank - 1] i64T) in
      let+ shape :=
        create1 (OnnxConcat 0) [firstShapeVal; oneVal; otherShapeVals]
          (RankedTensorType [tInRank + 1] i64T) in
      let+ reshaped := create1 OnnxReshape [transposedInput; shape] reshapedType in
      let+ reversed := reverseAllElements reshaped 0 in
      create1 OnnxReshape [reversed; tInShapeVals] tInType
    else reverseAllElements transposedInput 0 in
  emitONNXTranspose reverse0 (seqZ 1 (rank - 1) ++ [0]).

(** [reverseWeightTensor] of DecomposeAfter.cpp.  The loop
    [for (int i = 0; i < spatialRank / 2; i += 2)] makes half as many
    rounds, rounded up, as its bound. *)
Definition reverseWeightTensor (input : TValue) : Emit TValue :=
  let+ elementType := emitAssert (elementTypeOfT (typeOf input)) in
  let+ rank := emitAssert (getRank (typeOf input)) in
  (* 1. Transpose NxCxD0xD1xD2x... to D0xD1xD2x ... xNxC *)
  let spatialOffset := 2 in
  let spatialRank := rank - spatialOffset in
  let+ transposedInput :=
    emitONNXTranspose input
      (seqZ spatialOffset spatialRank ++ seqZ 0 spatialOffset) in
  (* 2. Reverse the first and second dimensions *)
  let+ transposedInput :=
    emitRepeat (Z.to_nat ((spatialRank ÷ 2 + 1) ÷ 2))
      (reverseTwoAndRotate rank) transposedInput in
  (* 3. Reverse the rest of dimension if spatial rank is odd *)
  let+ transposedInput :=
    if negb (Z.rem spatialRank 2 =? 0)
    then reverseOneAndRotate rank elementType transposedInput
    else emitRet transposedInput in
  (* 4. Reverse non-spatial dimensions *)
  emitONNXTranspose transposedInput
    ([spatialOffset - 1 - 0; spatialOffset - 1 - 1]
       ++ seqZ spatialOffset spatialRank).

(** [reverseWeightTensor4D] of Rewrite.cpp. *)
Definition reverseWeightTensor4D (input : TValue) : Emit TValue :=
  let+ rank := emitAssert (getRank (typeOf input)) in
  let spatialOffset := 2 in
  let spatialRank := rank - spatialOffset in
  let perms := seqZ spatialOffset spatialRank ++ seqZ 0 spatialOffset in
  let+ transposedInput := emitONNXTranspose input perms in
  let+ reverse0 := reverseAllElements transposedInput 0 in
  let+ reverse1 := reverseAllElements reverse0 1 in
  let+ reverse2 :=
    if spatialRank =? 3 then
      (* Transpose D0xD1xD2x ... xNxC to D2xD0xD1x...xNxC *)
      let+ reverse11 := emitONNXTranspose reverse1 [2; 0; 1; 3; 4] in
      let+ reverse12 := reverseAllElements reverse11 0 in
      emitONNXTranspose reverse12 [3; 4; 1; 2; 0]
    else emitONNXTranspose reverse1 perms in
  emitONNXTranspose reverse2
    ([spatialOffset - 1 - 0; spatialOffset - 1 - 1]
       ++ seqZ spatialOffset spatialRank).

(** *** Padding between the elements of the input
        (DecomposeAfter.cpp lines 234-369) *)

(** Split on the specified axis. The length of each output is one. *)
Definition emitSplitAxisOutputLength1 (input : TValue) (axis : Z)
    : Emit (list TValue) :=
  let+ elementType := emitAssert (elementTypeOfT (typeOf input)) in
  let+ inputShape := emitAssert (getShape (typeOf input)) in
  let+ count := emitAssert (nth64 inputShape axis) in
  let+ values := emitAssert (filled count 1) in
  let+ split := constantInt64 values in
  let+ _ := emitAssert (getRank (typeOf input)) in
  let splitShape :=
    imap (fun i d => if Z.of_nat i =? axis then 1 else d) inputShape in
  let splitType := RankedTensorType splitShape elementType in
  let+ splitTypes := emitAssert (filled count splitType) in
  create (OnnxSplit axis) [input; split] splitTypes.

(** Emit ONNXPadOp to add pads of [size] at end of the [axis]. *)
Definition emitPadsAxisEnd (input : TValue) (inputShape : list Z) (axis size : Z)
    : Emit TValue :=
  let+ elementType := emitAssert (elementTypeOfT (typeOf input)) in
  let resultShape :=
    imap (fun i d => if Z.of_nat i =? axis then add64 d size else d) inputShape in
  let resultType := RankedTensorType resultShape elementType in
  (* Specify padding at the end of each axis. *)
  let rank := Z.of_nat (length inputShape) in
  let index := (rank + axis) mod 2 ^ 64 in
  if index <? rank * 2 then
    let values := <[Z.to_nat index := size]> (replicate (length inputShape * 2) 0) in
    let+ pads := constantInt64 values in
    create1 OnnxPadZero [input; pads] resultType
  else emitAbort.

(** The sum of the sizes of [axis] over the inputs. *)
Fixpoint sumAxisSizes (axis : Z) (inputs : list TValue) (concatAxisSize : Z)
    : option Z :=
  match inputs with
  | [] => Some concatAxisSize
  | v :: rest =>
      vShape ← getShape (typeOf v);
      d ← nth64 vShape axis;
      sumAxisSizes axis rest (add64 concatAxisSize d)
  end.

Definition emitConcat (inputs : list TValue) (axis : Z) : Emit TValue :=
  let+ first := emitAssert (inputs !! 0%nat) in
  let+ elementType := emitAssert (elementTypeOfT (typeOf first)) in
  let+ inputShape := emitAssert (getShape (typeOf first)) in
  let+ concatAxisSize := emitAssert (sumAxisSizes axis inputs 0) in
  let concatShape :=
    imap (fun i d => if Z.of_nat i =? axis then concatAxisSize else d) inputShape in
  create1 (OnnxConcat axis) inputs (RankedTensorType concatShape elementType).

(** Insert pads in specified axis. *)
Definition insertPadAxis (input : TValue) (axis padSize : Z) : Emit TValue :=
  (* Split on the specified axis. The length of each output is one. *)
  let+ splitResults := emitSplitAxisOutputLength1 input axis in
  (* Add pad in split results except last one. *)
  let+ splitLastResults := emitAssert (last splitResults) in
  let padInputs := removelast splitResults in
  let+ padResults :=
    emitMapM (fun v =>
                let+ vShape := emitAssert (getShape (typeOf v)) in
                emitPadsAxisEnd v vShape axis padSize)
             padInputs in
  (* Concat padded results *)
  emitConcat (padResults ++ [splitLastResults]) axis.

(** The loop of [insertPadsConvTransposeInput] from stride [i] on. *)
Fixpoint insertPadsFrom (i : nat) (strides : list Z) (input : TValue)
    : Emit TValue :=
  match strides with
  | [] => emitRet input
  | stride :: rest =>
      let+ padded := insertPadAxis input (2 + Z.of_nat i) (sub64 stride 1) in
      insertPadsFrom (S i) rest padded
  end.

(** Insert pads between elements in input tensor in spatial dimensions.
    The padding size is strides - 1. *)
Definition insertPadsConvTransposeInput (input : TValue) (strides : list Z)
    : Emit TValue :=
  insertPadsFrom 0 strides input.

(** The loop of [insertAdditionalPadsConvTranspose] from [i] on. *)
Fixpoint padAxesFrom (i : nat) (padSize : list Z) (paddedInput : TValue)
    : Emit TValue :=
  match padSize with
  | [] => emitRet paddedInput
  | size :: rest =>
      let+ paddedInputShape := emitAssert (getShape (typeOf paddedInput)) in
      let+ padded :=
        emitPadsAxisEnd paddedInput paddedInputShape (2 + Z.of_nat i) size in
      padAxesFrom (S i) rest padded
  end.

(** Insert additional padding to output of ConvOp in ConvTransposeOp.
    [outputDims] are the output dimensions that [ONNXConvOpShapeHelper]
    (not among the sources) computes for the ConvOp, [None] for one that is
    not a literal. *)
Definition insertAdditionalPadsConvTranspose (outputDims : list (option Z))
    (input : TValue) (outputShapeAttr : list Z) : Emit TValue :=
  let inputRank := Z.of_nat (length outputDims) in
  let inputShape := default kDynamic <$> outputDims in
  let attrSize := Z.of_nat (length outputShapeAttr) in
  let offset := inputRank - attrSize in
  let+ padSize :=
    emitAssert
      (mapM (fun ia : nat * Z =>
               d ← nth64 inputShape (offset + Z.of_nat ia.1);
               let size := sub64 ia.2 d in
               if 0 <=? size then Some size else None)
            (imap pair outputShapeAttr)) in
  let+ first := emitAssert (padSize !! 0%nat) in
  let+ paddedInput := emitPadsAxisEnd input inputShape 2 first in
  padAxesFrom 1 (tail padSize) paddedInput.

(** *** What the created transpositions and reversals compute *)

(** [Transpose]: element [idx] of the result is element [jdx] of the input,
    where [jdx[perm[k]] = idx[k]]. *)
Definition transposedIndex (perm idx : list Z) : option (list Z) :=
  mapM (fun j => k ← getIndexOfAxisInPerm perm (Z.of_nat j); nth64 idx k)
       (seq 0 (length perm)).

(** [ReverseSequence]: element [idx] of the result, in batch [b] at time
    [t], is the element of the input at time [slens[b] - 1 - t] when
    [t < slens[b]], and the element at [idx] otherwise. *)
Definition reversedIndex (slens : list Z) (batchAxis timeAxis : Z) (idx : list Z)
    : option (list Z) :=
  b ← nth64 idx batchAxis;
  t ← nth64 idx timeAxis;
  len ← nth64 slens b;
  Some (if t <? len then <[Z.to_nat timeAxis := len - 1 - t]> idx else idx).

(** What a created value holds: the elements of the given tensor, element
    [idx] of the value being element [source idx] of the given tensor, or
    constant integers. *)
Inductive Denotation :=
  | Elements (source : list Z -> option (list Z))
  | Integers (values : list Z).

Definition denoteOperand (den : list (option Denotation)) (x : TValue)
    : option Denotation :=
  match valueOf x with
  | Given _ => Some (Elements Some)
  | Made position O => mjoin (den !! position)
  | Made _ _ => None
  end.

Definition denoteCreated (den : list (option Denotation)) (c : Created)
    : option Denotation :=
  match createdOp c, createdOperands c with
  | OnnxConstantInt64 values, [] => Some (Integers values)
  | OnnxTranspose perm, [x] =>
      match denoteOperand den x with
      | Some (Elements f) => Some (Elements (fun idx => transposedIndex perm idx ≫= f))
      | _ => None
      end
  | OnnxReverseSequence batchAxis timeAxis, [x; s] =>
      match denoteOperand den x, denoteOperand den s with
      | Some (Elements f), Some (Integers slens) =>
          Some (Elements (fun idx => reversedIndex slens batchAxis timeAxis idx ≫= f))
      | _, _ => None
      end
  | _, _ => None
  end.

Definition denoteAll (created : list Created) : list (option Denotation) :=
  foldl (fun den c => den ++ [denoteCreated den c]) [] created.

(** The element of the given tensor that element [idx] of [x] is. *)
Definition sourceOf (created : list Created) (x : TValue) (idx : list Z)
    : option (list Z) :=
  match denoteOperand (denoteAll created) x with
  | Some (Elements f) => f idx
  | _ => None
  end.

(** The index tuples of a tensor of the given shape. *)
Definition inBounds (shape idx : list Z) : Prop :=
  Forall2 (fun d i => 0 <= i < d) shape idx.

(* ================================================================== *)
(** ** [UnstickLoadStoreStickRemovalPattern] (ZLowRewrite.cpp) *)
(* ================================================================== *)

(** The tags of the layouts whose index functions the pattern does not
    support, the constants [LAYOUT_1D] and [LAYOUT_2DS] of LayoutHelper.hpp
    (not among the sources; the tags are named in the comment of lines
    317-318). *)
Definition LAYOUT_1D : string := "1D".
Definition LAYOUT_2DS : string := "2DS".

(** The scan of [matchMultipleStoreSingleStick] and
    [matchMultipleLoadSingleUnstick]: every user is an operation of kind
    [many] or of kind [single], and a second use by an operation of kind
    [single] is refused; at the end one of each must have been seen. *)
Fixpoint scanManyAndSingle (g : IR) (many single : OpName) (users : list OpId)
    (manyOp singleOp : option OpId) : bool :=
  match users with
  | [] => bool_decide (is_Some manyOp) && bool_decide (is_Some singleOp)
  | user :: rest =>
      if isa g user many then
        scanManyAndSingle g many single rest (Some user) singleOp
      else if isa g user single then
        match singleOp with
        | Some _ => false
        | None => scanManyAndSingle g many single rest manyOp (Some user)
        end
      else false
  end.

(** Users of MemRef must be StoreOp and StickOp. *)
Definition matchMultipleStoreSingleStick (g : IR) (memRef : Value) : bool :=
  if isBlockArgument memRef then false
  else scanManyAndSingle g AffineStoreOp ZLowStickOp (getUsers g memRef) None None.

(** Users of MemRef must be LoadOp and UnstickOp. *)
Definition matchMultipleLoadSingleUnstick (g : IR) (memRef : Value) : bool :=
  if isBlockArgument memRef then false
  else scanManyAndSingle g AffineLoadOp ZLowUnstickOp (getUsers g memRef) None None.

(** Check this sequence: unstick -> load -> store -> stick.  The value of an
    [affine.store] is its operand 0 and its memref operand 1; the memref of
    an [affine.load] is its operand 0. *)
Definition matchUnstickLoadStoreStick (g : IR) (storeOp : OpId) : option bool :=
  destMemref ← getOperand g storeOp 1;
  storeValue ← getOperand g storeOp 0;
  (* Store's input must be defined by a memref.alloc. *)
  match getDefiningOp destMemref with
  | None => Some false
  | Some allocOp =>
      if negb (isa g allocOp AllocOp) then Some false
      (* Users of AffineStoreOp's MemRef must be StoreOp and StickOp. *)
      else if negb (matchMultipleStoreSingleStick g destMemref) then Some false
      else
        (* Check if the store value is from AffineLoadOp or not. *)
        match getDefiningOp storeValue with
        | None => Some false
        | Some loadOp =>
            if isa g loadOp AffineLoadOp then
              (* Check if loading from MemRef that is unstickified. *)
              memRef ← getOperand g loadOp 0;
              Some (matchMultipleLoadSingleUnstick g memRef)
            else Some false
        end
  end.

(** The matchers below return the operations they collect, or [None] where
    the source returns [false]; an outer [None] is a failed host
    assertion. *)
Definition nonEmpty {A} (l : list A) : option (list A) :=
  match l with
  | [] => None
  | _ :: _ => Some l
  end.

(** The loop of [matchAndCollectAffineLoad] over the users of the memref. *)
Fixpoint collectAffineLoads (g : IR) (unstickOp : OpId) (users loadOps : list OpId)
    : option (list OpId) :=
  match users with
  | [] => nonEmpty loadOps
  | user :: rest =>
      if decide (user = unstickOp) then collectAffineLoads g unstickOp rest loadOps
      else if isa g user AffineLoadOp then
        collectAffineLoads g unstickOp rest (loadOps ++ [user])
      else None
  end.

(** Collect affine.load operations that connect to zlow.unstick. *)
Definition matchAndCollectAffineLoad (g : IR) (unstickOp : OpId) (loadMemref : Value)
    : option (list OpId) :=
  collectAffineLoads g unstickOp (getUsers g loadMemref) [].

(** The loop over the users of the value of one load, lines 486-496:
    [None] when a user is refused. *)
Fixpoint collectStoresOf (g : IR) (loadOp : OpId) (users storeOps : list OpId)
    : option (option (list OpId)) :=
  match users with
  | [] => Some (Some storeOps)
  | user :: rest =>
      if decide (user = loadOp) then collectStoresOf g loadOp rest storeOps
      else if isa g user AffineStoreOp then
        (* Check unstick -> load -> store -> stick. *)
        matched ← matchUnstickLoadStoreStick g user;
        if matched : bool then collectStoresOf g loadOp rest (storeOps ++ [user])
        else Some None
      else Some None
  end.

Fixpoint collectStores (g : IR) (loadOps storeOps : list OpId)
    : option (option (list OpId)) :=
  match loadOps with
  | [] => Some (Some storeOps)
  | loadOp :: rest =>
      r ← collectStoresOf g loadOp (getUsers g (OpResult loadOp 0)) storeOps;
      match r with
      | Some storeOps' => collectStores g rest storeOps'
      | None => Some None
      end
  end.

(** The check of the other stores into the memref of one store, lines
    505-520. *)
Fixpoint checkOtherStores (g : IR) (storeOps : list OpId) (storeOp : OpId)
    (users : list OpId) : option bool :=
  match users with
  | [] => Some true
  | user :: rest =>
      if decide (user = storeOp) then checkOtherStores g storeOps storeOp rest
      else if isa g user AffineStoreOp then
        if forallb (fun op => bool_decide (op ≠ user)) storeOps then
          (* Check unstick -> load -> store -> stick. *)
          matched ← matchUnstickLoadStoreStick g user;
          if matched : bool then checkOtherStores g storeOps storeOp rest
          else Some false
        else checkOtherStores g storeOps storeOp rest
      else checkOtherStores g storeOps storeOp rest
  end.

Fixpoint checkStrangeStores (g : IR) (storeOps todo : list OpId) : option bool :=
  match todo with
  | [] => Some true
  | storeOp :: rest =>
      destMemref ← getOperand g storeOp 1;
      ok ← checkOtherStores g storeOps storeOp (getUsers g destMemref);
      if ok : bool then checkStrangeStores g storeOps rest else Some false
  end.

(** Collect affine.store operations that connect to affine.load. *)
Definition matchAndCollectAffineStore (g : IR) (loadOps : list OpId)
    : option (option (list OpId)) :=
  r ← collectStores g loadOps [];
  match r with
  | None => Some None
  | Some storeOps =>
      ok ← checkStrangeStores g storeOps storeOps;
      if ok : bool then Some (nonEmpty storeOps) else Some None
  end.

(** The stick linked to one store, lines 533-552: [Some (Some myStickOp)]
    for the only stick among the users of its memref, [myStickOp] being
    the null operation ([None]) when there is none; [Some None] when the
    users are refused and the matcher returns false; [None] when a stick
    has no layout and [getLayout().value()] fails. *)
Fixpoint findStickOf (g : IR) (storeOp : OpId) (users : list OpId)
    (myStickOp : option OpId) : option (option (option OpId)) :=
  match users with
  | [] => Some (Some myStickOp)
  | user :: rest =>
      if decide (user = storeOp) then findStickOf g storeOp rest myStickOp
      else if isa g user AffineStoreOp then findStickOf g storeOp rest myStickOp
      else if isa g user ZLowStickOp then
        stickLayout ← (irOps g !! user ≫= fun op => layoutAttr (opAttrs op));
        if bool_decide (stickLayout = LAYOUT_1D) || bool_decide (stickLayout = LAYOUT_2DS)
        then Some None
        else
          match myStickOp with
          | Some _ => Some None
          | None => findStickOf g storeOp rest (Some user)
          end
      else Some None
  end.

Fixpoint collectStickOps (g : IR) (storeOps : list OpId)
    (stickOps : list (option OpId)) (StoreOpStickOpMap : gmap OpId (option OpId))
    : option (option (list (option OpId) * gmap OpId (option OpId))) :=
  match storeOps with
  | [] => Some (Some (stickOps, StoreOpStickOpMap))
  | storeOp :: rest =>
      destMemref ← getOperand g storeOp 1;
      r ← findStickOf g storeOp (getUsers g destMemref) None;
      match r with
      | None => Some None
      | Some myStickOp =>
          collectStickOps g rest (stickOps ++ [myStickOp])
            (<[storeOp := myStickOp]> StoreOpStickOpMap)
      end
  end.

(** Collect zlow.stick operations that connect to affine.store. *)
Definition matchAndCollectStickOp (g : IR) (storeOps : list OpId)
    : option (option (list (option OpId) * gmap OpId (option OpId))) :=
  r ← collectStickOps g storeOps [] ∅;
  match r with
  | None => Some None
  | Some (stickOps, StoreOpStickOpMap) =>
      match stickOps with
      | [] => Some None
      | _ :: _ => Some (Some (stickOps, StoreOpStickOpMap))
      end
  end.

(** [v.getType().cast<MemRefType>().getElementType()]. *)
Definition memRefElementType (g : IR) (v : Value) : option ElementType :=
  t ← getType g v;
  match t with
  | MemRefType e _ _ => Some e
  | _ => None
  end.

(** [matchAndRewrite] of the pattern.  The result carries the set
    [removableStickOps] as the pattern leaves it. *)
Definition UnstickLoadStoreStickRemovalPattern (unstickOp : OpId)
    (removableStickOps : gset OpId) : M (LogicalResult * gset OpId) :=
  let* _ := castOp ZLowUnstickOp unstickOp in
  (* stickifiedMemRef has affine layout, cpuMemRef has no affine layout. *)
  let* stickifiedMemRef := getX unstickOp in
  let* cpuMemRef := getOut unstickOp in
  let* unstickLayoutOpt := getLayout unstickOp in
  let* unstickLayout := assertSome unstickLayoutOpt in
  let unstickNCHWLayout := bool_decide (unstickLayout = LAYOUT_NCHW) in
  (* Common types. *)
  let* stickifiedElementType :=
    getsSome (fun g => memRefElementType g stickifiedMemRef) in
  let* cpuElementType := getsSome (fun g => memRefElementType g cpuMemRef) in
  let* stickifiedType := getsSome (fun g => getType g stickifiedMemRef) in
  let* cpuType := getsSome (fun g => getType g cpuMemRef) in
  (* Stickified Memref must have affine layout to access elements. *)
  if negb (hasNonIdentityLayout stickifiedType) then ret (failure, removableStickOps)
  (* Do not support affine layout in the CPU Memref at this moment. *)
  else if hasNonIdentityLayout cpuType then ret (failure, removableStickOps)
  (* Do not support layout 1D and 2DS. *)
  else if bool_decide (unstickLayout = LAYOUT_1D)
          || bool_decide (unstickLayout = LAYOUT_2DS)
  then ret (failure, removableStickOps)
  else
  (* 1. Match pattern. All consumers of zlow.unstick must be affine.load. *)
  let* loads := gets (fun g => matchAndCollectAffineLoad g unstickOp cpuMemRef) in
  match loads with
  | None => ret (failure, removableStickOps)
  | Some loadOps =>
  (* All consumers of affine.load must be affine.store. *)
  let* stores := getsSome (fun g => matchAndCollectAffineStore g loadOps) in
  match stores with
  | None => ret (failure, removableStickOps)
  | Some storeOps =>
  (* Each affine.store is connected to one zlow.stick. *)
  let* sticks := getsSome (fun g => matchAndCollectStickOp g storeOps) in
  match sticks with
  | None => ret (failure, removableStickOps)
  | Some (stickOps, StoreOpStickOpMap) =>
  (* 2. Rewrite AffineLoadOp to use stickified Memref directly. *)
  let* _ := forM_ loadOps (fun loadOp =>
    let* _ := rewriteLoadOp stickifiedMemRef stickifiedElementType cpuElementType
                unstickNCHWLayout loadOp in
    ret tt) in
  (* Rewrite AffineStoreOp to use stickified Memref directly. *)
  let* _ := forM_ storeOps (fun storeOp =>
    let* myStickOp := assertSome (mjoin (StoreOpStickOpMap !! storeOp)) in
    let* _ := rewriteStoreOp stickifiedElementType storeOp myStickOp in
    ret tt) in
  (* Remove ZLowUnstickOp. *)
  let* _ := eraseOp unstickOp in
  (* Copy ZLowStickOp to the removableStickOps. *)
  ret (success, removableStickOps ∪ list_to_set (omap id stickOps))
  end end end.

(** A store the matcher has collected. *)
Definition chainStore (g : IR) (storeOp : OpId) : Prop :=
  isa g storeOp AffineStoreOp = true
  ∧ matchUnstickLoadStoreStick g storeOp = Some true.

Open Scope nat_scope.

(* ================================================================== *)
(** ** The rewriting monad *)
(* ================================================================== *)

Lemma bind_Ok_inv {A B} (c : M A) (k : A -> M B) g b g' :
  bind c k g = Ok b g' -> ∃ a g1, c g = Ok a g1 ∧ k a g1 = Ok b g'.
Proof. unfold bind. destruct (c g) as [a g1|]; [eauto | discriminate]. Qed.

Lemma bind_Ok {A B} (c : M A) (k : A -> M B) g a g1 :
  c g = Ok a g1 -> bind c k g = k a g1.
Proof. unfold bind. by intros ->. Qed.

Lemma bind_Abort {A B} (c : M A) (k : A -> M B) g :
  c g = Abort -> bind c k g = Abort.
Proof. unfold bind. by intros ->. Qed.

Lemma ret_Ok_inv {A} (a b : A) g g' : ret a g = Ok b g' -> a = b ∧ g = g'.
Proof. unfold ret. by intros [= -> ->]. Qed.

Lemma gets_Ok_inv {A} (f : IR -> A) g a g' : gets f g = Ok a g' -> a = f g ∧ g' = g.
Proof. unfold gets. by intros [= <- <-]. Qed.

Lemma modify_Ok_inv (f : IR -> IR) g a g' : modify f g = Ok a g' -> g' = f g.
Proof. unfold modify. by intros [= <-]. Qed.

Lemma assertSome_Ok_inv {A} (o : option A) g a g' :
  assertSome o g = Ok a g' -> o = Some a ∧ g' = g.
Proof. destruct o; simpl; [by intros [= -> ->] | discriminate]. Qed.

Lemma getsSome_Ok_inv {A} (f : IR -> option A) g a g' :
  getsSome f g = Ok a g' -> f g = Some a ∧ g' = g.
Proof. unfold getsSome. apply assertSome_Ok_inv. Qed.

Lemma getsSome_Ok {A} (f : IR -> option A) g a :
  f g = Some a -> getsSome f g = Ok a g.
Proof. unfold getsSome. by intros ->. Qed.

Lemma getOp_Ok_inv o g op g' : getOp o g = Ok op g' -> irOps g !! o = Some op ∧ g' = g.
Proof. unfold getOp. destruct (irOps g !! o); [by intros [= -> ->] | discriminate]. Qed.

Lemma getOp_Ok o g op : irOps g !! o = Some op -> getOp o g = Ok op g.
Proof. unfold getOp. by intros ->. Qed.

Lemma getBlock_Ok_inv b g blk g' :
  getBlock b g = Ok blk g' -> irBlocks g !! b = Some blk ∧ g' = g.
Proof. unfold getBlock. destruct (irBlocks g !! b); [by intros [= -> ->] | discriminate]. Qed.

Lemma castOp_Ok_inv n o g a g' : castOp n o g = Ok a g' -> isa g o n = true ∧ g' = g.
Proof. unfold castOp. destruct (isa g o n); [by intros [= _ ->] | discriminate]. Qed.

Lemma castOp_Ok n o g : isa g o n = true -> castOp n o g = Ok tt g.
Proof. unfold castOp. by intros ->. Qed.

Lemma getLayout_Ok_inv o g l g' :
  getLayout o g = Ok l g' ->
  ∃ op, irOps g !! o = Some op ∧ l = layoutAttr (opAttrs op) ∧ g' = g.
Proof.
  unfold getLayout. intros H. apply bind_Ok_inv in H as (op & g1 & H1 & H2).
  apply getOp_Ok_inv in H1 as [H1 ->]. apply ret_Ok_inv in H2 as [<- <-]. eauto.
Qed.

(** One step of inversion of a run that ended in [Ok]. *)
Ltac minv1 :=
  match goal with
  | H : Abort = Ok _ _ |- _ => discriminate H
  | H : abort _ = Ok _ _ |- _ => discriminate H
  | H : Ok _ _ = Ok _ _ |- _ => injection H as ??; subst
  | H : bind _ _ _ = Ok _ _ |- _ =>
      apply bind_Ok_inv in H; destruct H as (? & ? & ? & H)
  | H : ret _ _ = Ok _ _ |- _ => apply ret_Ok_inv in H; destruct H; subst
  | H : gets _ _ = Ok _ _ |- _ => apply gets_Ok_inv in H; destruct H; subst
  | H : getsSome _ _ = Ok _ _ |- _ => apply getsSome_Ok_inv in H; destruct H; subst
  | H : assertSome _ _ = Ok _ _ |- _ => apply assertSome_Ok_inv in H; destruct H; subst
  | H : getOp _ _ = Ok _ _ |- _ => apply getOp_Ok_inv in H; destruct H; subst
  | H : getBlock _ _ = Ok _ _ |- _ => apply getBlock_Ok_inv in H; destruct H; subst
  | H : castOp _ _ _ = Ok _ _ |- _ => apply castOp_Ok_inv in H; destruct H; subst
  | H : failure = success |- _ => discriminate H
  | H : success = failure |- _ => discriminate H
  | H : @None _ = Some _ |- _ => discriminate H
  | H : (false, _) = (true, _) |- _ => discriminate H
  | H : getX _ _ = Ok _ _ |- _ =>
      unfold getX in H; apply getsSome_Ok_inv in H; destruct H; subst
  | H : getOut _ _ = Ok _ _ |- _ =>
      unfold getOut in H; apply getsSome_Ok_inv in H; destruct H; subst
  | H : getLayout _ _ = Ok _ _ |- _ =>
      apply getLayout_Ok_inv in H; destruct H as (? & ? & ? & ?); subst
  end.

Ltac minv := repeat minv1.

(* ================================================================== *)
(** ** Graph queries and mutations *)
(* ================================================================== *)

Lemma isa_Some g o n :
  isa g o n = true ↔ ∃ op, irOps g !! o = Some op ∧ opName op = n.
Proof.
  unfold isa. destruct (irOps g !! o) as [op|]; split.
  - intros H%bool_decide_eq_true. eauto.
  - intros (op' & [= <-] & H). by apply bool_decide_eq_true.
  - discriminate.
  - by intros (? & ? & _).
Qed.

Lemma isa_distinct g o o' n n' :
  isa g o n = true -> isa g o' n' = true -> n ≠ n' -> o ≠ o'.
Proof.
  intros (op & H1 & <-)%isa_Some (op' & H2 & <-)%isa_Some Hn ->. congruence.
Qed.

Lemma indexOf_Some o l i : indexOf o l = Some i -> l !! i = Some o.
Proof.
  revert i. induction l as [|x l IH]; intros i; simpl; [discriminate|].
  case_decide; [by intros [= <-]; subst|].
  destruct (indexOf o l); simpl; [|discriminate]. intros [= <-]. by apply IH.
Qed.

Lemma indexOf_elem_of o l : o ∈ l ↔ is_Some (indexOf o l).
Proof.
  induction l as [|x l IH]; simpl.
  - split; [by intros ?%elem_of_nil | by intros [? ?]].
  - rewrite elem_of_cons, IH. case_decide as Hx.
    + subst. split; [eauto | by left].
    + rewrite fmap_is_Some. split; [intros [?|?]; [congruence | done] | by right].
Qed.

Lemma isBeforeInBlock_present g a b r :
  isBeforeInBlock g a b = Some r ->
  ∃ opA, irOps g !! a = Some opA ∧ a ∈ blockOps g (opBlock opA).
Proof.
  unfold isBeforeInBlock, blockOps. intros H.
  destruct (irOps g !! a) as [opA|]; simpl in H; [|discriminate].
  destruct (irOps g !! b) as [opB|]; simpl in H; [|discriminate].
  case_decide; [|discriminate].
  destruct (irBlocks g !! opBlock opA) as [blk|] eqn:Hb; simpl in H; [|discriminate].
  destruct (indexOf a (blockOperations blk)) eqn:Hi; simpl in H; [|discriminate].
  exists opA. split; [done|]. rewrite Hb. apply indexOf_elem_of. rewrite Hi. eauto.
Qed.

Lemma operandsSetTo_refl w g : operandsSetTo w g g.
Proof.
  split; [done|]. intros o. destruct (irOps g !! o); [|done].
  split; [done|]. by left.
Qed.

Lemma operandsSetTo_trans w g1 g2 g3 :
  operandsSetTo w g1 g2 -> operandsSetTo w g2 g3 -> operandsSetTo w g1 g3.
Proof.
  intros [Hb1 H1] [Hb2 H2]. split; [congruence|]. intros o.
  specialize (H1 o). specialize (H2 o).
  destruct (irOps g1 !! o) as [op1|], (irOps g2 !! o) as [op2|],
    (irOps g3 !! o) as [op3|]; try done.
  destruct H1 as [Hs1 H1], H2 as [Hs2 H2]. split; [congruence|].
  intros j. destruct (H1 j) as [E1|[S1 E1]], (H2 j) as [E2|[S2 E2]].
  - left. congruence.
  - right. split; [|done]. by rewrite <- E1.
  - right. split; [done|]. congruence.
  - by right.
Qed.

Lemma operandsSetTo_lookup w g g' o op' :
  operandsSetTo w g g' -> irOps g' !! o = Some op' ->
  ∃ op, irOps g !! o = Some op ∧ opStatic op' = opStatic op.
Proof.
  intros [_ H] Ho. specialize (H o). rewrite Ho in H.
  destruct (irOps g !! o) as [op|]; [|done]. exists op. by destruct H.
Qed.

Lemma operandsSetTo_lookup_fwd w g g' o op :
  operandsSetTo w g g' -> irOps g !! o = Some op ->
  ∃ op', irOps g' !! o = Some op' ∧ opStatic op' = opStatic op.
Proof.
  intros [_ H] Ho. specialize (H o). rewrite Ho in H.
  destruct (irOps g' !! o) as [op'|]; [|done]. exists op'. by destruct H.
Qed.

Lemma operandsSetTo_stable w g g' o i :
  operandsSetTo w g g' -> getOperand g o i = Some w -> getOperand g' o i = Some w.
Proof.
  intros [_ H]. specialize (H o). unfold getOperand.
  destruct (irOps g !! o) as [op|]; simpl; [|discriminate].
  destruct (irOps g' !! o) as [op'|]; [|done]. simpl.
  destruct H as [_ H]. intros Hj. destruct (H i) as [E|[_ E]]; congruence.
Qed.

Lemma operandsSetTo_is_Some w g g' o i :
  operandsSetTo w g g' ->
  is_Some (getOperand g o i) -> is_Some (getOperand g' o i).
Proof.
  intros [_ H]. specialize (H o). unfold getOperand.
  destruct (irOps g !! o) as [op|]; simpl; [|by intros [? ?]].
  destruct (irOps g' !! o) as [op'|]; [|done]. simpl.
  destruct H as [_ H]. intros Hj. destruct (H i) as [E|[_ E]]; [by rewrite E|].
  rewrite E. eauto.
Qed.

Lemma operandsSetTo_isa w g g' o n :
  operandsSetTo w g g' -> isa g' o n = isa g o n.
Proof.
  intros [_ H]. specialize (H o). unfold isa.
  destruct (irOps g !! o) as [op|], (irOps g' !! o) as [op'|]; try done.
  destruct H as [Hs _]. unfold opStatic in Hs.
  injection Hs as Hn _ _ _ _. by rewrite Hn.
Qed.

Lemma operandsSetTo_blockOps w g g' b :
  operandsSetTo w g g' -> blockOps g' b = blockOps g b.
Proof. intros [Hb _]. unfold blockOps. by rewrite Hb. Qed.

Lemma setOperand_inv o i v g g' :
  setOperand o i v g = Ok tt g' ->
  ∃ op old, irOps g !! o = Some op ∧ opOperands op !! i = Some old ∧
    g' = putOp o (withOperands op (<[i := v]> (opOperands op)))
           (addUse v (mkUse o i) (removeUse old (mkUse o i) g)).
Proof.
  unfold setOperand. intros H. minv.
  apply modify_Ok_inv in H. eauto.
Qed.

Lemma setOperand_Ok o i v g :
  is_Some (getOperand g o i) -> ∃ g', setOperand o i v g = Ok tt g'.
Proof.
  unfold getOperand, setOperand. intros [old H].
  destruct (irOps g !! o) as [op|] eqn:Ho; simpl in H; [|discriminate].
  rewrite (bind_Ok _ _ _ _ _ (getOp_Ok _ _ _ Ho)). rewrite H. simpl.
  unfold bind, ret, modify. eauto.
Qed.

Lemma setOperand_operandsSetTo o i w g g' :
  setOperand o i w g = Ok tt g' -> operandsSetTo w g g'.
Proof.
  intros (op & old & Ho & Hi & ->)%setOperand_inv. split; [done|].
  intros o'. simpl. destruct (decide (o' = o)) as [->|Hne].
  - rewrite Ho, lookup_insert_eq. split; [done|]. intros j. simpl.
    destruct (decide (j = i)) as [->|Hj].
    + right. split; [eauto|]. apply list_lookup_insert_eq. by eapply lookup_lt_Some.
    + left. by apply list_lookup_insert_ne.
  - rewrite lookup_insert_ne by done. destruct (irOps g !! o'); [|done].
    split; [done|]. by left.
Qed.

Lemma setOperand_getOperand o i w g g' :
  setOperand o i w g = Ok tt g' -> getOperand g' o i = Some w.
Proof.
  intros (op & old & Ho & Hi & ->)%setOperand_inv. unfold getOperand. simpl.
  rewrite lookup_insert_eq. simpl. apply list_lookup_insert_eq.
  by eapply lookup_lt_Some.
Qed.

Lemma setOperand_other o i w g g' o' :
  setOperand o i w g = Ok tt g' -> o' ≠ o -> irOps g' !! o' = irOps g !! o'.
Proof.
  intros (op & old & Ho & Hi & ->)%setOperand_inv Hne. simpl.
  by rewrite lookup_insert_ne.
Qed.

Lemma forM_setOperand_inv (us : list OpOperand) w g g' :
  forM_ us (fun u => setOperand (useOwner u) (operandNumber u) w) g = Ok tt g' ->
  operandsSetTo w g g' ∧
  ∀ u, u ∈ us -> getOperand g' (useOwner u) (operandNumber u) = Some w.
Proof.
  revert g. induction us as [|u us IH]; intros g H; simpl in H.
  - minv. split; [apply operandsSetTo_refl|]. by intros u ?%elem_of_nil.
  - apply bind_Ok_inv in H as ([] & g1 & H1 & H2).
    destruct (IH _ H2) as [Hrel Hall].
    pose proof (setOperand_operandsSetTo _ _ _ _ _ H1) as Hrel1.
    split; [by eapply operandsSetTo_trans|].
    intros u' [->|Hin]%elem_of_cons; [|by apply Hall].
    eapply operandsSetTo_stable; [done|]. by eapply setOperand_getOperand.
Qed.

Lemma forM_setOperand_Ok (us : list OpOperand) w g :
  (∀ u, u ∈ us -> is_Some (getOperand g (useOwner u) (operandNumber u))) ->
  ∃ g', forM_ us (fun u => setOperand (useOwner u) (operandNumber u) w) g = Ok tt g'.
Proof.
  revert g. induction us as [|u us IH]; intros g H; simpl.
  - unfold ret. eauto.
  - destruct (setOperand_Ok (useOwner u) (operandNumber u) w g) as [g1 H1].
    { apply H. by left. }
    rewrite (bind_Ok _ _ _ _ _ H1). apply IH. intros u' Hin.
    eapply operandsSetTo_is_Some; [by eapply setOperand_operandsSetTo|].
    apply H. by right.
Qed.

Lemma replaceAllUsesWith_inv v w g g' :
  replaceAllUsesWith v w g = Ok tt g' ->
  v ≠ w ∧ operandsSetTo w g g' ∧
  ∀ u, u ∈ getUses g v -> getOperand g' (useOwner u) (operandNumber u) = Some w.
Proof.
  unfold replaceAllUsesWith. case_decide as Hd; [discriminate|]. intros Hrun.
  split; [done|]. minv. by apply forM_setOperand_inv.
Qed.

Lemma usesValid_spec g v :
  usesValid g v = true ↔
  ∀ u, u ∈ getUses g v -> is_Some (getOperand g (useOwner u) (operandNumber u)).
Proof.
  unfold usesValid. rewrite forallb_forall. split; intros H u Hin.
  - apply list_elem_of_In, H in Hin. by apply bool_decide_eq_true in Hin.
  - apply bool_decide_eq_true, H. by apply list_elem_of_In.
Qed.

Lemma replaceAllUsesWith_Ok v w g :
  v ≠ w -> usesValid g v = true -> ∃ g', replaceAllUsesWith v w g = Ok tt g'.
Proof.
  intros Hne Hv. pose proof (proj1 (usesValid_spec g v) Hv) as Hall.
  unfold replaceAllUsesWith.
  case_decide; [done|]. unfold bind, gets. by apply forM_setOperand_Ok.
Qed.

Lemma eraseOp_inv o g g' :
  eraseOp o g = Ok tt g' ->
  ∃ op, irOps g !! o = Some op ∧ g' = erased o (opBlock op) g.
Proof.
  unfold eraseOp. intros H. minv.
  destruct (negb _); [discriminate|]. apply modify_Ok_inv in H. eauto.
Qed.

Lemma eraseOp_Ok o g op :
  irOps g !! o = Some op -> opResultTypes op = [] ->
  eraseOp o g = Ok tt (erased o (opBlock op) g).
Proof.
  intros Ho Hr. unfold eraseOp.
  rewrite (bind_Ok _ _ _ _ _ (getOp_Ok _ _ _ Ho)). rewrite Hr. done.
Qed.

Lemma erased_lookup_ne o b g o' : o' ≠ o -> irOps (erased o b g) !! o' = irOps g !! o'.
Proof. intros. simpl. by rewrite lookup_delete_ne. Qed.

Lemma erased_lookup_eq o b g : irOps (erased o b g) !! o = None.
Proof. simpl. apply lookup_delete_eq. Qed.

Lemma erased_getOperand_ne o b g o' i :
  o' ≠ o -> getOperand (erased o b g) o' i = getOperand g o' i.
Proof. intros. unfold getOperand. by rewrite erased_lookup_ne. Qed.

Lemma erased_blockOps o b g b' :
  blockOps (erased o b g) b' =
  if decide (b' = b) then filter (fun x => x ≠ o) (blockOps g b') else blockOps g b'.
Proof.
  unfold blockOps. simpl. case_decide as Hb.
  - subst. rewrite lookup_alter_eq. by destruct (irBlocks g !! b).
  - by rewrite lookup_alter_ne.
Qed.

Lemma erased_elem_of o b g b' x :
  x ≠ o -> x ∈ blockOps g b' -> x ∈ blockOps (erased o b g) b'.
Proof.
  intros Hne Hin. rewrite erased_blockOps. case_decide; [|done].
  by apply list_elem_of_filter.
Qed.


(* ================================================================== *)
(** ** Dead-conversion removal *)
(* ================================================================== *)

Lemma erased_reachable o b g op roots v :
  irOps g !! o = Some op -> opResultTypes op = [] ->
  reachable (erased o b g) roots v ↔ reachable g roots v.
Proof.
  intros Ho Hr. split; induction 1 as [v Hin|o' i op' v _ IH Ho' Hi Hv].
  - by apply reachable_root.
  - destruct (decide (o' = o)) as [->|Hne].
    + by rewrite erased_lookup_eq in Ho'.
    + rewrite erased_lookup_ne in Ho' by done. by eapply reachable_operand.
  - by apply reachable_root.
  - destruct (decide (o' = o)) as [->|Hne].
    + rewrite Ho in Ho'. injection Ho' as <-. rewrite Hr in Hi. simpl in Hi. lia.
    + eapply reachable_operand; [done| |done..]. by rewrite erased_lookup_ne.
Qed.

Lemma erased_declaredResults o b g ret :
  ret ≠ o -> declaredResults (erased o b g) ret = declaredResults g ret.
Proof. intros. unfold declaredResults. by rewrite erased_lookup_ne. Qed.

Lemma erased_not_listed o b g : o ∉ blockOps (erased o b g) b.
Proof.
  rewrite erased_blockOps. case_decide as Hb; [|by destruct Hb].
  intros [Hne _]%list_elem_of_filter. done.
Qed.

Lemma isConversion_isa g o n x out : isConversion g o n x out -> isa g o n = true.
Proof. intros (op & Ho & Hn & _). apply isa_Some. eauto. Qed.

Lemma isConversion_getX g o n x out :
  isConversion g o n x out -> getOperand g o 0 = Some x.
Proof.
  intros (op & Ho & _ & Hops & _). unfold getOperand.
  rewrite Ho. simpl. by rewrite Hops.
Qed.

Lemma isConversion_getOut g o n x out :
  isConversion g o n x out -> getOperand g o 1 = Some out.
Proof.
  intros (op & Ho & _ & Hops & _). unfold getOperand.
  rewrite Ho. simpl. by rewrite Hops.
Qed.

Lemma UnstickRemovalPattern_run g o x out op :
  isConversion g o ZLowUnstickOp x out -> irOps g !! o = Some op ->
  UnstickRemovalPattern o g =
    if hasOneUse g out then Ok success (erased o (opBlock op) g) else Ok failure g.
Proof.
  intros Hc Ho. unfold UnstickRemovalPattern.
  rewrite (bind_Ok _ _ _ _ _ (castOp_Ok _ _ _ (isConversion_isa _ _ _ _ _ Hc))).
  unfold getOut.
  rewrite (bind_Ok _ _ _ _ _ (getsSome_Ok _ _ _ (isConversion_getOut _ _ _ _ _ Hc))).
  unfold bind at 1, gets. destruct (hasOneUse g out); simpl; [|done].
  destruct Hc as (op' & Ho' & _ & _ & Hr).
  rewrite Ho in Ho'. injection Ho' as <-.
  by rewrite (bind_Ok _ _ _ _ _ (eraseOp_Ok _ _ _ Ho Hr)).
Qed.

Lemma StickRemovalPattern_run g o x out op :
  isConversion g o ZLowStickOp x out -> irOps g !! o = Some op ->
  StickRemovalPattern o g =
    if hasOneUse g out then Ok success (erased o (opBlock op) g) else Ok failure g.
Proof.
  intros Hc Ho. unfold StickRemovalPattern.
  rewrite (bind_Ok _ _ _ _ _ (castOp_Ok _ _ _ (isConversion_isa _ _ _ _ _ Hc))).
  unfold getOut.
  rewrite (bind_Ok _ _ _ _ _ (getsSome_Ok _ _ _ (isConversion_getOut _ _ _ _ _ Hc))).
  unfold bind at 1, gets. destruct (hasOneUse g out); simpl; [|done].
  destruct Hc as (op' & Ho' & _ & _ & Hr).
  rewrite Ho in Ho'. injection Ho' as <-.
  by rewrite (bind_Ok _ _ _ _ _ (eraseOp_Ok _ _ _ Ho Hr)).
Qed.

(** C8. For an unstick or stick operation whose [Out] value has exactly one
    use, [UnstickRemovalPattern]/[StickRemovalPattern] erase the operation
    and report success: the operation is no longer registered nor listed in
    its block, every other operation is as before, and the values reachable
    from the function's declared results are the same.  When the [Out]
    value has a number of uses other than one, the pattern reports failure
    and the graph is the one it was given. *)
Theorem dead_conversion_removal (g : IR) (o : OpId) (n : OpName) (x out : Value)
    (pattern : OpId -> M LogicalResult) :
  (n = ZLowUnstickOp ∧ pattern = UnstickRemovalPattern)
  ∨ (n = ZLowStickOp ∧ pattern = StickRemovalPattern) ->
  isConversion g o n x out ->
  if hasOneUse g out then
    ∃ g' op,
      pattern o g = Ok success g' ∧ irOps g !! o = Some op
      ∧ irOps g' !! o = None ∧ (o ∉ blockOps g' (opBlock op))
      ∧ (∀ o', o' ≠ o -> irOps g' !! o' = irOps g !! o')
      ∧ ∀ returnOp v, returnOp ≠ o ->
          (reachable g' (declaredResults g' returnOp) v
           ↔ reachable g (declaredResults g returnOp) v)
  else pattern o g = Ok failure g.
Proof.
  intros Hp Hc. pose proof Hc as (op & Ho & _ & _ & Hr).
  assert (pattern o g =
    if hasOneUse g out then Ok success (erased o (opBlock op) g) else Ok failure g)
    as Hrun.
  { destruct Hp as [[-> ->]|[-> ->]];
      [by eapply UnstickRemovalPattern_run | by eapply StickRemovalPattern_run]. }
  destruct (hasOneUse g out); [|done].
  exists (erased o (opBlock op) g), op. split_and!; try done.
  - apply erased_lookup_eq.
  - apply erased_not_listed.
  - intros o' Hne. by apply erased_lookup_ne.
  - intros returnOp v Hne. rewrite erased_declaredResults by done.
    by apply (erased_reachable o (opBlock op) g op).
Qed.

Lemma dead_conversion_removal_witness :
  ∃ g' op,
    UnstickRemovalPattern 2 deadUnstickGraph = Ok success g'
    ∧ irOps deadUnstickGraph !! 2 = Some op
    ∧ irOps g' !! 2 = None ∧ (2 ∉ blockOps g' (opBlock op))
    ∧ (∀ o', o' ≠ 2 -> irOps g' !! o' = irOps deadUnstickGraph !! o')
    ∧ ∀ returnOp v, returnOp ≠ 2 ->
        (reachable g' (declaredResults g' returnOp) v
         ↔ reachable deadUnstickGraph (declaredResults deadUnstickGraph returnOp) v).
Proof.
  apply (dead_conversion_removal deadUnstickGraph 2 ZLowUnstickOp
           (OpResult 0 0) (OpResult 1 0) UnstickRemovalPattern).
  - left. split; reflexivity.
  - eexists. repeat split; reflexivity.
Defined.

(* ================================================================== *)
(** ** Round-trip removal *)
(* ================================================================== *)

Lemma findUnstickBeforeStick_found g x a l u :
  findUnstickBeforeStick g x a l = Some (Some u) ->
  ∃ l1 l2, l = l1 ++ u :: l2 ∧ writesBefore g x a u
           ∧ ∀ w, w ∈ l1 -> ¬ writesBefore g x a w.
Proof.
  induction l as [|w l IH]; simpl; [discriminate|]. intros H.
  assert (findUnstickBeforeStick g x a l = Some (Some u) ->
          ¬ writesBefore g x a w ->
          ∃ l1 l2, w :: l = l1 ++ u :: l2 ∧ writesBefore g x a u
                   ∧ ∀ w', w' ∈ l1 -> ¬ writesBefore g x a w') as Hskip.
  { intros (l1 & l2 & -> & Hu & Hl1)%IH Hw. exists (w :: l1), l2.
    split_and!; [done..|]. intros w' [->|?]%elem_of_cons; auto. }
  destruct (isa g w ZLowUnstickOp) eqn:Hisa; simpl in H.
  - destruct (getOperand g w 1) as [out|] eqn:Hout; [|discriminate].
    case_decide as Hx.
    + subst out. destruct (isBeforeInBlock g w a) as [[]|] eqn:Hb; [| |discriminate].
      * injection H as <-. exists [], l. split_and!; [done..|].
        by intros w' ?%elem_of_nil.
      * apply Hskip; [done|]. intros (_ & _ & Hb'). congruence.
    + apply Hskip; [done|]. intros (_ & Hout' & _). congruence.
  - apply Hskip; [done|]. intros (Hisa' & _). congruence.
Qed.

Lemma findUnstickBeforeStick_none g x a l :
  findUnstickBeforeStick g x a l = Some None ->
  ∀ w, w ∈ l -> ¬ writesBefore g x a w.
Proof.
  induction l as [|w l IH]; simpl; [by intros _ w ?%elem_of_nil|]. intros H.
  assert (findUnstickBeforeStick g x a l = Some None ->
          ¬ writesBefore g x a w ->
          ∀ w', w' ∈ w :: l -> ¬ writesBefore g x a w') as Hskip.
  { intros Hl Hw w' [->|?]%elem_of_cons; auto. }
  destruct (isa g w ZLowUnstickOp) eqn:Hisa; simpl in H.
  - destruct (getOperand g w 1) as [out|] eqn:Hout; [|discriminate].
    case_decide as Hx.
    + subst out. destruct (isBeforeInBlock g w a) as [[]|] eqn:Hb; [discriminate| |discriminate].
      apply Hskip; [done|]. intros (_ & _ & Hb'). congruence.
    + apply Hskip; [done|]. intros (_ & Hout' & _). congruence.
  - apply Hskip; [done|]. intros (Hisa' & _). congruence.
Qed.

Lemma findUnstickBeforeStick_total g x a l :
  forallb (searchStep g x a) l = true ->
  is_Some (findUnstickBeforeStick g x a l).
Proof.
  induction l as [|w l IH]; simpl; [eauto|].
  intros [Hw Hl]%andb_true_iff. specialize (IH Hl). unfold searchStep in Hw.
  destruct (isa g w ZLowUnstickOp); simpl; [|done].
  destruct (getOperand g w 1) as [out|]; [|discriminate].
  case_decide; [|done].
  apply bool_decide_eq_true in Hw as [[] Hb]; rewrite Hb; eauto.
Qed.

Lemma findUnstickBeforeStick_first g x a l1 l2 u :
  forallb (searchStep g x a) (l1 ++ u :: l2) = true ->
  writesBefore g x a u ->
  (∀ w, w ∈ l1 -> ¬ writesBefore g x a w) ->
  findUnstickBeforeStick g x a (l1 ++ u :: l2) = Some (Some u).
Proof.
  intros Hs (Hisa & Hout & Hb) Hl1.
  induction l1 as [|w l1 IH]; simpl.
  - rewrite Hisa, Hout. simpl. case_decide; [|done]. by rewrite Hb.
  - simpl in Hs. apply andb_true_iff in Hs as [Hw Hs].
    assert (¬ writesBefore g x a w) as Hnw by (apply Hl1; by left).
    assert (∀ w', w' ∈ l1 -> ¬ writesBefore g x a w') as Hl1'
      by (intros w' ?; apply Hl1; by right).
    specialize (IH Hs Hl1'). unfold searchStep in Hw.
    destruct (isa g w ZLowUnstickOp) eqn:Hisaw; simpl; [|done].
    destruct (getOperand g w 1) as [out|] eqn:Houtw; [|discriminate].
    case_decide as Hx; [|done]. subst out.
    apply bool_decide_eq_true in Hw as [[] Hbw]; rewrite Hbw; [|done].
    destruct Hnw. by split_and!.
Qed.

Lemma firstWriterBefore_find g x a u :
  searchable g x a = true ->
  firstWriterBefore g x a u ↔
  findUnstickBeforeStick g x a (getUsers g x) = Some (Some u).
Proof.
  intros Hs. split.
  - intros (l1 & l2 & Hl & Hu & Hl1). unfold searchable in Hs.
    rewrite Hl in *. by apply findUnstickBeforeStick_first.
  - intros H. by apply findUnstickBeforeStick_found.
Qed.

Lemma findUnstickBeforeView_found g x a l u :
  findUnstickBeforeView g x a l = Some (Some u) ->
  u ∈ l ∧ writesBefore g x a u
  ∧ ∃ op layout, irOps g !! u = Some op ∧ layoutAttr (opAttrs op) = Some layout
                 ∧ layout ≠ LAYOUT_NCHW.
Proof.
  induction l as [|w l IH]; simpl; [discriminate|]. intros H.
  assert (findUnstickBeforeView g x a l = Some (Some u) ->
          u ∈ w :: l ∧ writesBefore g x a u
          ∧ ∃ op layout, irOps g !! u = Some op
                         ∧ layoutAttr (opAttrs op) = Some layout
                         ∧ layout ≠ LAYOUT_NCHW) as Hskip.
  { intros (? & ? & ?)%IH. split_and!; [by right|done..]. }
  destruct (isa g w ZLowUnstickOp) eqn:Hisa; simpl in H; [|by apply Hskip].
  destruct (irOps g !! w) as [op|] eqn:Hw; simpl in H; [|discriminate].
  destruct (layoutAttr (opAttrs op)) as [layout|] eqn:Hl; [|discriminate].
  case_decide as Hn; [by apply Hskip|].
  destruct (getOperand g w 1) as [out|] eqn:Hout; [|discriminate].
  case_decide as Hx; [|by apply Hskip]. subst out.
  destruct (isBeforeInBlock g w a) as [[]|] eqn:Hb; [|by apply Hskip|discriminate].
  injection H as <-. split_and!; [by left|done..|]. eauto.
Qed.

(** What [UnstickStickRemovalPattern] computes on a well-formed stick. *)
Lemma UnstickStickRemovalPattern_run g s x out opS :
  isConversion g s ZLowStickOp x out -> irOps g !! s = Some opS ->
  UnstickStickRemovalPattern s g =
    if isBlockArgument x then Ok failure g
    else
      match findUnstickBeforeStick g x s (getUsers g x) with
      | None => Abort
      | Some None => Ok failure g
      | Some (Some u) =>
          match irOps g !! u with
          | None => Abort
          | Some opU =>
              match layoutAttr (opAttrs opS), layoutAttr (opAttrs opU) with
              | Some sl, Some ul =>
                  if decide (sl = ul) then
                    match getOperand g u 0 with
                    | None => Abort
                    | Some ux =>
                        match replaceAllUsesWith out ux g with
                        | Ok _ g1 =>
                            match eraseOp s g1 with
                            | Ok _ g' => Ok success g'
                            | Abort => Abort
                            end
                        | Abort => Abort
                        end
                    end
                  else Ok failure g
              | _, _ => Ok failure g
              end
          end
      end.
Proof.
  intros Hc Ho. unfold UnstickStickRemovalPattern.
  rewrite (bind_Ok _ _ _ _ _ (castOp_Ok _ _ _ (isConversion_isa _ _ _ _ _ Hc))).
  unfold getX at 1.
  rewrite (bind_Ok _ _ _ _ _ (getsSome_Ok _ _ _ (isConversion_getX _ _ _ _ _ Hc))).
  unfold getLayout at 1.
  rewrite (bind_Ok _ (fun _ => _) _ (layoutAttr (opAttrs opS)) g)
    by (by rewrite (bind_Ok _ _ _ _ _ (getOp_Ok _ _ _ Ho))).
  destruct (isBlockArgument x); [done|].
  unfold bind at 1, getsSome at 1.
  destruct (findUnstickBeforeStick g x s (getUsers g x)) as [[u|]|]; simpl; [|done..].
  unfold getLayout, bind at 1. unfold bind at 1, getOp.
  destruct (irOps g !! u) as [opU|]; simpl; [|done].
  destruct (layoutAttr (opAttrs opS)) as [sl|]; [|done].
  destruct (layoutAttr (opAttrs opU)) as [ul|]; [|done].
  case_decide; [|done].
  unfold getOut.
  rewrite (bind_Ok _ _ _ _ _ (getsSome_Ok _ _ _ (isConversion_getOut _ _ _ _ _ Hc))).
  unfold getX, bind at 1, getsSome at 1.
  destruct (getOperand g u 0) as [ux|]; simpl; [|done].
  unfold bind at 1. destruct (replaceAllUsesWith out ux g) as [[] g1|]; [|done].
  unfold bind at 1. destruct (eraseOp s g1) as [[] g'|]; done.
Qed.

Lemma getOperand_0_of_1 g o v : getOperand g o 1 = Some v -> is_Some (getOperand g o 0).
Proof.
  unfold getOperand. destruct (irOps g !! o) as [op|]; simpl; [|discriminate].
  destruct (opOperands op) as [|a l]; [discriminate|]. eauto.
Qed.

Lemma sourceNotOutput_spec g x out u ux :
  sourceNotOutput g x out = true -> u ∈ getUsers g x ->
  isa g u ZLowUnstickOp = true -> getOperand g u 0 = Some ux -> out ≠ ux.
Proof.
  unfold sourceNotOutput. rewrite forallb_forall. intros H Hin Hisa Hux ->.
  apply list_elem_of_In, H in Hin. rewrite Hisa, Hux in Hin.
  by rewrite bool_decide_eq_true_2 in Hin.
Qed.

Lemma firstWriterBefore_user g x a u : firstWriterBefore g x a u -> u ∈ getUsers g x.
Proof. intros (l1 & l2 & -> & _). apply elem_of_app. right. by left. Qed.

Lemma redirected_then_erased g g1 s b v w :
  (∀ u, u ∈ getUses g v -> getOperand g1 (useOwner u) (operandNumber u) = Some w) ->
  usesRedirected g (erased s b g1) v w.
Proof.
  intros H u Hin Hsome. destruct (decide (useOwner u = s)) as [E|Hne].
  - rewrite E, erased_lookup_eq in Hsome. by destruct Hsome.
  - rewrite erased_getOperand_ne by done. by apply H.
Qed.

(** The two outcomes of [UnstickStickRemovalPattern] on a well-formed stick
    whose host preconditions hold. *)
Lemma UnstickStickRemovalPattern_cases g s x out :
  isConversion g s ZLowStickOp x out ->
  searchable g x s = true ->
  usesValid g out = true ->
  sourceNotOutput g x out = true ->
  (firstWriterWithSameLayout g s ∧
   ∃ g1 u ux opS,
     UnstickStickRemovalPattern s g = Ok success (erased s (opBlock opS) g1)
     ∧ irOps g !! s = Some opS
     ∧ firstWriterBefore g x s u ∧ getOperand g u 0 = Some ux
     ∧ replaceAllUsesWith out ux g = Ok tt g1)
  ∨ (¬ firstWriterWithSameLayout g s ∧ UnstickStickRemovalPattern s g = Ok failure g).
Proof.
  intros Hc Hs Hv Hd. pose proof Hc as (opS & Ho & _ & _ & Hr).
  rewrite (UnstickStickRemovalPattern_run g s x out opS Hc Ho).
  pose proof (isConversion_getX _ _ _ _ _ Hc) as Hx.
  destruct (isBlockArgument x) eqn:Hba.
  { right. split; [|done]. intros (x' & u & Hx' & Hba' & _). congruence. }
  destruct (findUnstickBeforeStick_total g x s (getUsers g x) Hs) as [[u|] Hfind];
    rewrite Hfind.
  2:{ right. split; [|done]. intros (x' & u & Hx' & _ & Hu & _).
      rewrite Hx in Hx'. injection Hx' as <-.
      apply firstWriterBefore_find in Hu; [|done]. congruence. }
  pose proof (proj2 (firstWriterBefore_find g x s u Hs) Hfind) as Hfirst.
  pose proof Hfirst as (l1 & l2 & _ & (Hisa & Hout & Hb) & _).
  pose proof Hisa as (opU & HoU & _)%isa_Some. rewrite HoU.
  assert (∀ sl ul, layoutAttr (opAttrs opS) = sl -> layoutAttr (opAttrs opU) = ul ->
            (sl = None ∨ ul = None ∨ sl ≠ ul) ->
            ¬ firstWriterWithSameLayout g s) as Hno.
  { intros sl ul Hsl Hul Hdiff (x' & u' & Hx' & _ & Hu' & (oA & oB & l & HA & HB & HlA & HlB)).
    rewrite Hx in Hx'. injection Hx' as <-.
    apply firstWriterBefore_find in Hu'; [|done].
    rewrite Hfind in Hu'. injection Hu' as <-.
    rewrite Ho in HA. injection HA as <-. rewrite HoU in HB. injection HB as <-.
    destruct Hdiff as [?|[?|?]]; congruence. }
  destruct (layoutAttr (opAttrs opS)) as [sl|] eqn:Hsl.
  2:{ right. split; [|done]. eapply Hno; eauto. }
  destruct (layoutAttr (opAttrs opU)) as [ul|] eqn:Hul.
  2:{ right. split; [|done]. eapply Hno; eauto. }
  case_decide as Hl.
  2:{ right. split; [|done]. eapply Hno; eauto. right. right. congruence. }
  subst ul. left. split.
  { exists x, u. split_and!; [done..|]. exists opS, opU, sl. by split_and!. }
  destruct (getOperand_0_of_1 _ _ _ Hout) as [ux Hux]. rewrite Hux.
  assert (out ≠ ux) as Hne.
  { eapply sourceNotOutput_spec; [done| |done..]. by eapply firstWriterBefore_user. }
  destruct (replaceAllUsesWith_Ok out ux g Hne Hv) as [g1 Hrauw]. rewrite Hrauw.
  pose proof Hrauw as (_ & Hrel & _)%replaceAllUsesWith_inv.
  destruct (operandsSetTo_lookup_fwd _ _ _ _ _ Hrel Ho) as (opS1 & Ho1 & Hst).
  unfold opStatic in Hst. injection Hst as _ Hr1 _ _ Hb1.
  rewrite (eraseOp_Ok s g1 opS1 Ho1) by congruence.
  exists g1, u, ux, opS. rewrite <- Hb1. by split_and!.
Qed.

(** The round-trip removal in terms of the search the code makes.  On a
    stick with its two operands, all unstick users of its input lying in
    its block, a consistent use list of its output, and an output that no
    such unstick reads: [UnstickStickRemovalPattern] succeeds exactly when
    the input is not a block argument and the first user of the input, in
    use-list order, that is an unstick writing the input before the stick
    carries a layout tag that is present and equal to the stick's; on
    success every use of the stick's output reads the source of that
    unstick and the stick is erased; otherwise the pattern declines and the
    graph is unchanged. *)
Theorem UnstickStickRemovalPattern_exact (g : IR) (stickOp : OpId) (x out : Value) :
  isConversion g stickOp ZLowStickOp x out ->
  searchable g x stickOp = true ->
  usesValid g out = true ->
  sourceNotOutput g x out = true ->
  ((∃ g', UnstickStickRemovalPattern stickOp g = Ok success g')
   ↔ firstWriterWithSameLayout g stickOp)
  ∧ (∀ g', UnstickStickRemovalPattern stickOp g = Ok success g' ->
       ∃ u ux opS,
         firstWriterBefore g x stickOp u ∧ getOperand g u 0 = Some ux
         ∧ usesRedirected g g' out ux
         ∧ irOps g !! stickOp = Some opS ∧ irOps g' !! stickOp = None
         ∧ (stickOp ∉ blockOps g' (opBlock opS)))
  ∧ (¬ firstWriterWithSameLayout g stickOp ->
       UnstickStickRemovalPattern stickOp g = Ok failure g).
Proof.
  intros Hc Hs Hv Hd.
  destruct (UnstickStickRemovalPattern_cases g stickOp x out Hc Hs Hv Hd)
    as [[Hyes (g1 & u & ux & opS & Hrun & Ho & Hu & Hux & Hrauw)]|[Hno Hrun]];
    rewrite Hrun.
  - split_and!; [split; eauto| |done].
    intros g' [= <-]. exists u, ux, opS. split_and!; try done.
    + apply redirected_then_erased.
      by apply replaceAllUsesWith_inv in Hrauw as (_ & _ & ?).
    + apply erased_lookup_eq.
    + apply erased_not_listed.
  - split_and!; [split; [by intros [? ?]|done] | discriminate | done].
Qed.

Lemma UnstickStickRemovalPattern_exact_witness :
  ((∃ g', UnstickStickRemovalPattern 4 roundTripGraph = Ok success g')
   ↔ firstWriterWithSameLayout roundTripGraph 4)
  ∧ (∀ g', UnstickStickRemovalPattern 4 roundTripGraph = Ok success g' ->
       ∃ u ux opS,
         firstWriterBefore roundTripGraph (OpResult 1 0) 4 u
         ∧ getOperand roundTripGraph u 0 = Some ux
         ∧ usesRedirected roundTripGraph g' (OpResult 3 0) ux
         ∧ irOps roundTripGraph !! 4 = Some opS ∧ irOps g' !! 4 = None
         ∧ (4 ∉ blockOps g' (opBlock opS)))
  ∧ (¬ firstWriterWithSameLayout roundTripGraph 4 ->
       UnstickStickRemovalPattern 4 roundTripGraph = Ok failure roundTripGraph).
Proof.
  apply (UnstickStickRemovalPattern_exact roundTripGraph 4 (OpResult 1 0) (OpResult 3 0)).
  - eexists. repeat split; reflexivity.
  - reflexivity.
  - reflexivity.
  - reflexivity.
Defined.

(** With two unsticks writing the buffer that the stick reads, which the
    comment of the search excludes ("There is only one UnstickOp per
    buffer"), the search stops at the one it meets first: here the earlier
    one carries the stick's tag, the later one does not, and the pattern
    declines. *)
Lemma UnstickStickRemovalPattern_some_writer_declines :
  someWriterWithSameLayout twoUnstickGraph 6
  ∧ UnstickStickRemovalPattern 6 twoUnstickGraph = Ok failure twoUnstickGraph
  ∧ ¬ ∃ g', UnstickStickRemovalPattern 6 twoUnstickGraph = Ok success g'.
Proof.
  assert (UnstickStickRemovalPattern 6 twoUnstickGraph = Ok failure twoUnstickGraph)
    as Hrun by (vm_compute; reflexivity).
  split_and!; [|done|rewrite Hrun; by intros [? ?]].
  unfold someWriterWithSameLayout, writesBefore, sameLayout.
  exists (OpResult 2 0), 3. split_and!; try reflexivity.
  eexists _, _, _. split_and!; reflexivity.
Qed.

(** With one unstick per buffer, listed among the users of the buffer, the
    unstick that the search finds is the unstick that writes the buffer. *)
Lemma oneWriter_first_iff_some g stickOp x :
  getOperand g stickOp 0 = Some x ->
  oneWriter g x -> writersListed g x -> searchable g x stickOp = true ->
  someWriterWithSameLayout g stickOp ↔ firstWriterWithSameLayout g stickOp.
Proof.
  intros Hx Hone Hlisted Hs. split.
  - intros (x' & u & Hx' & Hba & Hu & Hl).
    rewrite Hx in Hx'. injection Hx' as <-.
    exists x, u. split_and!; [done..| |done].
    destruct (findUnstickBeforeStick_total g x stickOp (getUsers g x) Hs)
      as [[u'|] Hfind].
    + pose proof (findUnstickBeforeStick_found _ _ _ _ _ Hfind)
        as (l1 & l2 & Hl12 & (Hisa' & Hout' & Hb') & Hl1).
      destruct Hu as (Hisa & Hout & Hb).
      assert (u' = u) as -> by (by apply Hone).
      by exists l1, l2.
    + destruct Hu as (Hisa & Hout & Hb).
      destruct (findUnstickBeforeStick_none _ _ _ _ Hfind u (Hlisted u Hisa Hout)).
      by split_and!.
  - intros (x' & u & Hx' & Hba & (l1 & l2 & _ & Hu & _) & Hl).
    by exists x', u.
Qed.

(** The round-trip removal as the specification states it, where the host
    assertions of the code hold.  On a stick with its two operands whose
    input is written by one unstick at most, all unstick users of the input
    lying in the block of the stick, with a consistent use list of the
    output and an output that no such unstick reads:
    [UnstickStickRemovalPattern] succeeds exactly when the input is not a
    block argument and an unstick writing the input precedes the stick in
    its block with a layout tag that is present and equal to the stick's;
    on success every use of the stick's output reads the source of that
    unstick and the stick is erased; otherwise the pattern declines and the
    graph is unchanged. *)
Lemma UnstickStickRemovalPattern_one_writer (g : IR) (stickOp : OpId) (x out : Value) :
  isConversion g stickOp ZLowStickOp x out ->
  oneWriter g x -> writersListed g x ->
  searchable g x stickOp = true ->
  usesValid g out = true ->
  sourceNotOutput g x out = true ->
  ((∃ g', UnstickStickRemovalPattern stickOp g = Ok success g')
   ↔ someWriterWithSameLayout g stickOp)
  ∧ (∀ g', UnstickStickRemovalPattern stickOp g = Ok success g' ->
       ∃ u ux opS,
         writesBefore g x stickOp u ∧ getOperand g u 0 = Some ux
         ∧ usesRedirected g g' out ux
         ∧ irOps g !! stickOp = Some opS ∧ irOps g' !! stickOp = None
         ∧ (stickOp ∉ blockOps g' (opBlock opS)))
  ∧ (¬ someWriterWithSameLayout g stickOp ->
       UnstickStickRemovalPattern stickOp g = Ok failure g).
Proof.
  intros Hc Hone Hlisted Hs Hv Hd.
  pose proof (oneWriter_first_iff_some g stickOp x
                (isConversion_getX _ _ _ _ _ Hc) Hone Hlisted Hs) as Hiff.
  destruct (UnstickStickRemovalPattern_exact g stickOp x out Hc Hs Hv Hd)
    as (Hexact & Hsuccess & Hdecline).
  split_and!.
  - by rewrite Hiff.
  - intros g' Hrun.
    destruct (Hsuccess g' Hrun)
      as (u & ux & opS & (l1 & l2 & _ & Hu & _) & Hux & Hred & Ho & Ho' & Hl).
    by exists u, ux, opS.
  - intros Hno. apply Hdecline. by rewrite <- Hiff.
Qed.

(** The round trip of [roundTripGraph] is removed. *)
Lemma UnstickStickRemovalPattern_one_writer_witness :
  ((∃ g', UnstickStickRemovalPattern 4 roundTripGraph = Ok success g')
   ↔ someWriterWithSameLayout roundTripGraph 4)
  ∧ (∀ g', UnstickStickRemovalPattern 4 roundTripGraph = Ok success g' ->
       ∃ u ux opS,
         writesBefore roundTripGraph (OpResult 1 0) 4 u
         ∧ getOperand roundTripGraph u 0 = Some ux
         ∧ usesRedirected roundTripGraph g' (OpResult 3 0) ux
         ∧ irOps roundTripGraph !! 4 = Some opS ∧ irOps g' !! 4 = None
         ∧ (4 ∉ blockOps g' (opBlock opS)))
  ∧ (¬ someWriterWithSameLayout roundTripGraph 4 ->
       UnstickStickRemovalPattern 4 roundTripGraph = Ok failure roundTripGraph).
Proof.
  assert (∀ u, isa roundTripGraph u ZLowUnstickOp = true -> u = 2) as Honly.
  { intros u (op & Ho & Hn)%isa_Some.
    apply elem_of_list_to_map_2 in Ho.
    repeat (apply elem_of_cons in Ho as [[= -> ->]|Ho]); try done.
    by apply elem_of_nil in Ho. }
  apply (UnstickStickRemovalPattern_one_writer roundTripGraph 4
           (OpResult 1 0) (OpResult 3 0)).
  - eexists. repeat split; reflexivity.
  - intros u w Hu _ Hw _. apply Honly in Hu, Hw. congruence.
  - intros u Hu _. apply Honly in Hu as ->. vm_compute.
    apply elem_of_cons. right. by left.
  - reflexivity.
  - reflexivity.
  - reflexivity.
Defined.

(** C5 (the code at a failing input). In [regionStickGraph] the stick lies
    in the region of an [async.execute] and reads the buffer that the
    unstick in front of the region has written with the same layout tag.
    No unstick precedes the stick in its block, so that the pattern should
    decline and leave the graph unchanged; the search calls
    [isBeforeInBlock] on the unstick and the stick, two operations of
    different blocks, and the pattern ends in the failed assertion of the
    host: it neither declines nor succeeds. *)
Theorem UnstickStickRemovalPattern_aborts_across_blocks :
  oneWriter regionStickGraph (OpResult 1 0)
  ∧ getOperand regionStickGraph 5 0 = Some (OpResult 1 0)
  ∧ writersListed regionStickGraph (OpResult 1 0)
  ∧ (∀ u, ¬ writesBefore regionStickGraph (OpResult 1 0) 5 u)
  ∧ ¬ someWriterWithSameLayout regionStickGraph 5
  ∧ isBeforeInBlock regionStickGraph 2 5 = None
  ∧ UnstickStickRemovalPattern 5 regionStickGraph = Abort.
Proof.
  assert (∀ u, isa regionStickGraph u ZLowUnstickOp = true -> u = 2) as Honly.
  { intros u (op & Ho & Hn)%isa_Some.
    apply elem_of_list_to_map_2 in Ho.
    repeat (apply elem_of_cons in Ho as [[= -> ->]|Ho]); try done.
    by apply elem_of_nil in Ho. }
  assert (∀ u, ¬ writesBefore regionStickGraph (OpResult 1 0) 5 u) as Hnone.
  { intros u (Hisa & _ & Hb). apply Honly in Hisa as ->. discriminate Hb. }
  split_and!.
  - intros u w Hu _ Hw _. apply Honly in Hu, Hw. congruence.
  - reflexivity.
  - intros u Hu _. apply Honly in Hu as ->. vm_compute.
    apply elem_of_cons. right. by left.
  - exact Hnone.
  - intros (x & u & Hx & _ & Hu & _). injection Hx as <-. by apply (Hnone u).
  - reflexivity.
  - vm_compute. reflexivity.
Qed.

(** Inversion of a run that branches on a test. *)
Ltac mcase :=
  match goal with
  | H : (if ?b then _ else _) _ = Ok _ _ |- _ => destruct b eqn:?
  | H : (match ?x with _ => _ end) _ = Ok _ _ |- _ => destruct x eqn:?
  end.

Ltac minvs := repeat (minv1 || mcase).

Lemma StickViewUnstickRemovalPattern_inv g g' s :
  StickViewUnstickRemovalPattern s g = Ok success g' ->
  ∃ stickInput stickRes viewOp viewSource u ux opS layout inputType shape g1 g2,
    isa g s ZLowStickOp = true ∧ irOps g !! s = Some opS
    ∧ getOperand g s 0 = Some stickInput ∧ getOperand g s 1 = Some stickRes
    ∧ layoutAttr (opAttrs opS) = Some layout ∧ layout ≠ LAYOUT_NCHW
    ∧ getType g stickInput = Some inputType
    ∧ hasNonIdentityLayout inputType = false
    ∧ getDefiningOp stickInput = Some viewOp ∧ isa g viewOp ViewLikeOp = true
    ∧ getOperand g viewOp 0 = Some viewSource
    ∧ findUnstickBeforeView g viewSource viewOp (getUsers g viewSource) = Some (Some u)
    ∧ getOperand g u 0 = Some ux
    ∧ getType g stickRes ≫= memRefShape = Some shape
    ∧ hasStaticShape shape = true
    ∧ getType g ux ≫= memRefShape = Some shape
    ∧ eraseOp s g = Ok tt g1
    ∧ replaceAllUsesWith stickRes ux g1 = Ok tt g2
    ∧ is_Some (irOps g2 !! viewOp)
    ∧ (if use_empty g2 (OpResult viewOp 0) then eraseOp viewOp g2 = Ok tt g' else g' = g2).
Proof.
  unfold StickViewUnstickRemovalPattern. intros H. minvs.
  all: repeat match goal with x : unit |- _ => destruct x end.
  all: repeat match goal with
       | H : negb _ = false |- _ => apply negb_false_iff in H
       | H : decide (_ ≠ _) = right ?n |- _ => clear H; apply dec_stable in n; subst
       end.
  all: do 12 eexists; split_and!; try eassumption; try done.
  all: try (by eauto).
  all: match goal with H : use_empty _ _ = _ |- _ => by rewrite H end.
Qed.


Lemma presentOp_erased g u n o b :
  presentOp g u n -> u ≠ o -> presentOp (erased o b g) u n.
Proof.
  intros (op & Hu & Hn & Hin) Hne. exists op.
  split_and!; [by rewrite erased_lookup_ne|done|by apply erased_elem_of].
Qed.

Lemma presentOp_operandsSetTo w g g' u n :
  operandsSetTo w g g' -> presentOp g u n -> presentOp g' u n.
Proof.
  intros Hrel (op & Hu & Hn & Hin).
  destruct (operandsSetTo_lookup_fwd _ _ _ _ _ Hrel Hu) as (op' & Hu' & Hst).
  unfold opStatic in Hst. injection Hst as Hn' _ _ _ Hb'.
  exists op'. split_and!; [done|congruence|].
  rewrite Hb'. by rewrite (operandsSetTo_blockOps _ _ _ _ Hrel).
Qed.

Lemma writesBefore_present g x a u :
  writesBefore g x a u -> presentOp g u ZLowUnstickOp.
Proof.
  intros ((op & Hu & Hn)%isa_Some & _ & (op' & Hu' & Hin)%isBeforeInBlock_present).
  rewrite Hu in Hu'. injection Hu' as <-. by exists op.
Qed.



Lemma UnstickStickRemovalPattern_inv g g' s :
  UnstickStickRemovalPattern s g = Ok success g' ->
  ∃ x out u ux g1,
    isa g s ZLowStickOp = true
    ∧ getOperand g s 0 = Some x ∧ getOperand g s 1 = Some out
    ∧ findUnstickBeforeStick g x s (getUsers g x) = Some (Some u)
    ∧ getOperand g u 0 = Some ux
    ∧ replaceAllUsesWith out ux g = Ok tt g1
    ∧ eraseOp s g1 = Ok tt g'.
Proof.
  unfold UnstickStickRemovalPattern. intros H. minvs.
  all: repeat match goal with x : unit |- _ => destruct x end.
  do 5 eexists. split_and!; eassumption.
Qed.

(** C10. After a successful rewrite by [UnstickStickRemovalPattern] or by
    [StickViewUnstickRemovalPattern], the unstick the pattern matched is
    still an operation of the graph: it is registered as an unstick and
    listed in its block, as it was before the rewrite. *)
Theorem matched_unstick_survives (g g' : IR) (stickOp : OpId) (matched : option OpId) :
  (UnstickStickRemovalPattern stickOp g = Ok success g'
   ∧ matched = matchedUnstickOfStick g stickOp)
  ∨ (StickViewUnstickRemovalPattern stickOp g = Ok success g'
     ∧ matched = matchedUnstickOfView g stickOp) ->
  ∃ unstickOp,
    matched = Some unstickOp
    ∧ presentOp g unstickOp ZLowUnstickOp
    ∧ presentOp g' unstickOp ZLowUnstickOp.
Proof.
  intros [[Hrun ->]|[Hrun ->]].
  - apply UnstickStickRemovalPattern_inv in Hrun
      as (x & out & u & ux & g1 & Hs & Hx & Hout & Hfind & Hux & Hrauw & Herase).
    pose proof (findUnstickBeforeStick_found _ _ _ _ _ Hfind)
      as (_ & _ & _ & Hw & _).
    pose proof (writesBefore_present _ _ _ _ Hw) as Hp.
    exists u. split_and!; [|done|].
    { unfold matchedUnstickOfStick. rewrite Hx. simpl. by rewrite Hfind. }
    apply replaceAllUsesWith_inv in Hrauw as (_ & Hrel & _).
    apply eraseOp_inv in Herase as (opS & _ & ->).
    apply presentOp_erased; [by eapply presentOp_operandsSetTo|].
    destruct Hw as (Hu & _). symmetry. by eapply isa_distinct.
  - apply StickViewUnstickRemovalPattern_inv in Hrun
      as (stickInput & stickRes & viewOp & viewSource & u & ux & opS & layout
          & inputType & shape & g1 & g2 & Hs & Ho & Hx & Hout & _ & _ & _
          & _ & Hdef & Hview & Hsrc & Hfind & _ & _ & _ & _
          & Herase & Hrauw & _ & Hlast).
    pose proof (findUnstickBeforeView_found _ _ _ _ _ Hfind) as (_ & Hw & _).
    assert (matchedUnstickOfView g stickOp = Some u) as Hm.
    { unfold matchedUnstickOfView. rewrite Hx. simpl. rewrite Hdef. simpl.
      rewrite Hsrc. simpl. by rewrite Hfind. }
    pose proof (writesBefore_present _ _ _ _ Hw) as Hp.
    exists u. split_and!; [done..|].
    destruct Hw as (Hu & _).
    apply eraseOp_inv in Herase as (opS' & _ & ->).
    apply replaceAllUsesWith_inv in Hrauw as (_ & Hrel & _).
    assert (presentOp g2 u ZLowUnstickOp) as Hp2.
    { eapply presentOp_operandsSetTo; [done|]. apply presentOp_erased; [done|].
      symmetry. by eapply isa_distinct. }
    destruct (use_empty g2 (OpResult viewOp 0)); [|by subst].
    apply eraseOp_inv in Hlast as (opV & _ & ->).
    apply presentOp_erased; [done|]. symmetry. by eapply isa_distinct.
Qed.

Lemma matched_unstick_survives_witness :
  ∃ unstickOp,
    matchedUnstickOfStick roundTripGraph 4 = Some unstickOp
    ∧ presentOp roundTripGraph unstickOp ZLowUnstickOp
    ∧ presentOp (graphAfter (UnstickStickRemovalPattern 4) roundTripGraph)
        unstickOp ZLowUnstickOp.
Proof.
  apply (matched_unstick_survives roundTripGraph
           (graphAfter (UnstickStickRemovalPattern 4) roundTripGraph) 4).
  left. split; [vm_compute; reflexivity | reflexivity].
Defined.

(* ================================================================== *)
(** ** Creation and motion of operations *)
(* ================================================================== *)

Lemma registerUses_irOps o l g : irOps (registerUses o l g) = irOps g.
Proof.
  unfold registerUses. generalize (imap pair l). intros l'. revert g.
  induction l' as [|iv l' IH]; intros g; simpl; [done|]. by rewrite IH.
Qed.

Lemma registerUses_irBlocks o l g : irBlocks (registerUses o l g) = irBlocks g.
Proof.
  unfold registerUses. generalize (imap pair l). intros l'. revert g.
  induction l' as [|iv l' IH]; intros g; simpl; [done|]. by rewrite IH.
Qed.

Lemma createOp_inv ip n operands rts attrs g o g' :
  createOp ip n operands rts attrs g = Ok o g' ->
  irOps g !! o = None
  ∧ irOps g' = <[o := mkOperation n operands rts attrs [] (ipBlock ip)]> (irOps g)
  ∧ ∃ blk, irBlocks g !! ipBlock ip = Some blk
           ∧ irBlocks g' =
               <[ipBlock ip := withOperations blk
                                 (insertAt (ipBefore ip) o (blockOperations blk))]>
                 (irBlocks g).
Proof.
  unfold createOp. intros H. apply bind_Ok_inv in H as (blk & g1 & H1 & H2).
  apply getBlock_Ok_inv in H1 as [Hb ->]. injection H2 as <- <-.
  rewrite registerUses_irOps, registerUses_irBlocks. simpl. split_and!; [|done|eauto].
  apply not_elem_of_dom. apply is_fresh.
Qed.

Lemma createOp_Ok ip n operands rts attrs g :
  is_Some (irBlocks g !! ipBlock ip) ->
  ∃ o g', createOp ip n operands rts attrs g = Ok o g'.
Proof.
  intros [blk Hb]. unfold createOp, bind, getBlock. rewrite Hb. eauto.
Qed.

Lemma cloneOp_inv ip o mapping g c g' :
  cloneOp ip o mapping g = Ok c g' ->
  ∃ op, irOps g !! o = Some op ∧ opRegions op = []
        ∧ createOp ip (opName op) (lookupOrDefault mapping <$> opOperands op)
            (opResultTypes op) (opAttrs op) g = Ok c g'.
Proof.
  unfold cloneOp. intros H. minv. destruct (opRegions x) eqn:Hr; [|discriminate].
  eauto.
Qed.




Lemma createOp_lookup ip n operands rts attrs g o g' :
  createOp ip n operands rts attrs g = Ok o g' ->
  irOps g' !! o = Some (mkOperation n operands rts attrs [] (ipBlock ip)).
Proof. intros (_ & Hops & _)%createOp_inv. rewrite Hops. apply lookup_insert_eq. Qed.











(* ================================================================== *)
(** ** Index maps of the retargeted loads and stores *)
(* ================================================================== *)









(* ================================================================== *)
(** ** Deallocation for [async.execute] regions *)
(* ================================================================== *)

(** With more than one yielded value the pattern declines and the graph is
    the one it was given. *)
Lemma InsertDealloc_many_yield_operands_declines g executeOp exec region body
    yieldOp yield :
  irOps g !! executeOp = Some exec -> opName exec = AsyncExecuteOp ->
  opRegions exec !! 0 = Some region -> region !! 0 = Some body ->
  getTerminator g body = Some yieldOp ->
  irOps g !! yieldOp = Some yield -> opName yield = AsyncYieldOp ->
  1 < length (opOperands yield) ->
  InsertDeallocForAsyncExecRegionPattern executeOp g = Ok failure g.
Proof.
  intros He Hn Hr Hb Ht Hy Hyn Hlen. unfold InsertDeallocForAsyncExecRegionPattern.
  rewrite (bind_Ok _ _ _ _ _ (castOp_Ok _ _ _ (proj2 (isa_Some _ _ _) (ex_intro _ exec (conj He Hn))))).
  rewrite (bind_Ok _ _ _ _ _ (getOp_Ok _ _ _ He)). rewrite Hr. simpl.
  unfold bind at 1, ret at 1. unfold bind at 1, gets at 1. rewrite Hb. simpl.
  unfold bind at 1, ret at 1. unfold bind at 1, gets at 1.
  unfold bind at 1, gets at 1.
  rewrite (bind_Ok _ _ _ _ _ (getsSome_Ok _ _ _ Ht)).
  rewrite (bind_Ok _ _ _ _ _ (castOp_Ok _ _ _ (proj2 (isa_Some _ _ _) (ex_intro _ yield (conj Hy Hyn))))).
  rewrite (bind_Ok _ _ _ _ _ (getOp_Ok _ _ _ Hy)).
  by rewrite decide_True.
Qed.

(** C4 (the code at the failing input). An [async.execute] whose region
    yields no value: the pattern reads operand 0 of the operand-less
    [async.yield], a failed host assertion, instead of declining. *)
Theorem InsertDealloc_empty_yield_aborts :
  (∃ yieldOp yield,
     isa asyncNoYieldGraph 0 AsyncExecuteOp = true
     ∧ getTerminator asyncNoYieldGraph 1 = Some yieldOp
     ∧ irOps asyncNoYieldGraph !! yieldOp = Some yield
     ∧ opName yield = AsyncYieldOp ∧ opOperands yield = [])
  ∧ InsertDeallocForAsyncExecRegionPattern 0 asyncNoYieldGraph = Abort.
Proof.
  split; [|vm_compute; reflexivity].
  eexists _, _. split_and!; reflexivity.
Qed.

(** C3 (the code at the failing input). The awaited value has two
    consumers in the block of the region, listed in its use list in program
    order: the pattern succeeds and inserts the deallocation of the yielded
    buffer right after the first consumer, before the second consumer, which
    still reads the awaited value. *)
Theorem InsertDealloc_precedes_later_consumer :
  ∃ g' deallocOp,
    InsertDeallocForAsyncExecRegionPattern 0 asyncGraph = Ok success g'
    ∧ getOperand asyncGraph 5 0 = Some (OpResult 4 0)
    ∧ isa asyncGraph 5 AsyncYieldOp = true
    ∧ irOps asyncGraph !! deallocOp = None
    ∧ isa g' deallocOp DeallocOp = true
    ∧ getOperand g' deallocOp 0 = Some (OpResult 4 0)
    ∧ isa g' 1 AsyncAwaitOp = true
    ∧ getOperand g' 3 0 = Some (OpResult 1 0)
    ∧ isBeforeInBlock g' deallocOp 3 = Some true.
Proof.
  exists (graphAfter (InsertDeallocForAsyncExecRegionPattern 0) asyncGraph), 6.
  split_and!; vm_compute; reflexivity.
Qed.

(** With the uses of the awaited value listed latest first, the order in
    which a builder creates them, the deallocation follows both consumers. *)
Example InsertDealloc_latest_use_first :
  ∃ g',
    InsertDeallocForAsyncExecRegionPattern 0 (asyncGraphWith [mkUse 3 0; mkUse 2 0])
      = Ok success g'
    ∧ blockOps g' 0 = [4; 0; 1; 2; 3; 6]
    ∧ isa g' 6 DeallocOp = true.
Proof.
  exists (graphAfter (InsertDeallocForAsyncExecRegionPattern 0)
            (asyncGraphWith [mkUse 3 0; mkUse 2 0])).
  split_and!; vm_compute; reflexivity.
Qed.

(* ================================================================== *)
(** ** The derived trip count *)
(* ================================================================== *)

(** On small ranges and steps the derived trip count is the exact ceiling. *)
Example derivedTripCount_exact_small :
  forallb (fun r =>
    forallb (fun s => (derivedTripCount 0 (Z.of_nat r) (Z.of_nat s)
                       =? ceilDiv (Z.of_nat r) (Z.of_nat s))%Z)
            (seq 1 40))
    (seq 1 200) = true.
Proof. vm_compute. reflexivity. Qed.

(** C2 (the code at the failing input). For [lower = 0, upper = 10,
    step = 3] the derived trip count is the exact ceiling 4; for
    [lower = 0, upper = 2^53 + 1, step = 1] the conversion of the range to
    [double] rounds it to [2^53] and the derived trip count, which the
    pattern installs as the new maximum trip count, is [2^53], one less than
    the exact ceiling [2^53 + 1]. *)
Theorem derivedTripCount_rounds_large_range :
  derivedTripCount 0 10 3 = 4%Z ∧ ceilDiv (10 - 0) 3 = 4%Z
  ∧ derivedTripCount 0 9007199254740993 1 = 9007199254740992%Z
  ∧ ceilDiv (9007199254740993 - 0) 1 = 9007199254740993%Z
  ∧ ∃ g' c,
      LoopOpRewriteMaxTripCountPattern 4
        (loopGraph 9223372036854775807 0 9007199254740993 1) = Ok success g'
      ∧ getOperand g' 4 0 = Some (OpResult c 0)
      ∧ getOneIntegerConstant g' (OpResult c 0) = Some 9007199254740992%Z.
Proof.
  split_and!; try (vm_compute; reflexivity).
  exists (graphAfter (LoopOpRewriteMaxTripCountPattern 4)
            (loopGraph 9223372036854775807 0 9007199254740993 1)), 11.
  split_and!; vm_compute; reflexivity.
Qed.

(* ================================================================== *)
(** ** The loop trip-count narrower *)
(* ================================================================== *)

Lemma grows_refl b g : grows b g g.
Proof. split_and!; [done..|]. intros blk H. eauto. Qed.

Lemma grows_trans b g1 g2 g3 : grows b g1 g2 -> grows b g2 g3 -> grows b g1 g3.
Proof.
  intros (Ho1 & Hb1 & Ha1) (Ho2 & Hb2 & Ha2). split_and!.
  - eauto.
  - intros b' Hne. rewrite Hb2, Hb1; done.
  - intros blk Hblk. destruct (Ha1 _ Hblk) as (blk' & Hblk' & E1).
    destruct (Ha2 _ Hblk') as (blk'' & Hblk'' & E2). exists blk''. split; [done|congruence].
Qed.

Lemma createOp_grows ip n operands rts attrs g o g' :
  createOp ip n operands rts attrs g = Ok o g' -> grows (ipBlock ip) g g'.
Proof.
  intros (Hfresh & Hops & blk & Hblk & Hblocks)%createOp_inv. split_and!.
  - intros o' op Ho'. rewrite Hops, lookup_insert_ne; [done|]. intros ->. congruence.
  - intros b' Hne. by rewrite Hblocks, lookup_insert_ne.
  - intros blk0 Hblk0. rewrite Hblocks, lookup_insert_eq. eexists. split; [done|].
    simpl. congruence.
Qed.

Lemma cloneOp_grows ip o mapping g c g' :
  cloneOp ip o mapping g = Ok c g' -> grows (ipBlock ip) g g'.
Proof. intros (op & _ & _ & H)%cloneOp_inv. by eapply createOp_grows. Qed.

Lemma emitOp_grows ip n operands attrs e g v g' :
  emitOp ip n operands attrs e g = Ok v g' -> grows (ipBlock ip) g g'.
Proof. unfold emitOp. intros H. minv. by eapply createOp_grows. Qed.

Lemma onnx_cast_grows ip v e g r g' :
  onnx_cast ip v e g = Ok r g' -> grows (ipBlock ip) g g'.
Proof. apply emitOp_grows. Qed.

Lemma hoistBound_grows ip v returnOp loopOp g r g' :
  hoistBound ip v returnOp loopOp g = Ok r g' -> grows (ipBlock ip) g g'.
Proof.
  unfold hoistBound. intros H. minvs; [apply grows_refl|].
  by eapply cloneOp_grows.
Qed.

Lemma matchIdiom_inv ip loopOp g b g1 :
  matchIdiom ip loopOp g = Ok (Some b) g1 ->
  ∃ maxV loop bodyBlock returnOp lessOp i,
    getOperand g loopOp 0 = Some maxV
    ∧ isDefinedByIntegerConstantOp g maxV = Some true
    ∧ irOps g !! loopOp = Some loop ∧ opRegions loop !! 0 = Some [bodyBlock]
    ∧ getTerminator g bodyBlock = Some returnOp
    ∧ isa g returnOp ONNXReturnOp = true
    ∧ getOperand g returnOp 0 = Some (OpResult lessOp i)
    ∧ isa g lessOp ONNXLessOp = true
    ∧ grows (ipBlock ip) g g1.
Proof.
  unfold matchIdiom. intros H. minvs.
  repeat match goal with H : negb _ = false |- _ => apply negb_false_iff in H end.
  subst. destruct x3 as [lessOp i|]; [|discriminate]. simpl in Heqo.
  injection Heqo as ->.
  exists x, x0, n, x2, n0, i. split_and!; try done.
  eapply grows_trans; by eapply hoistBound_grows.
Qed.

Lemma onnx_constant_inv ip e values g v g' :
  onnx_constant ip e values g = Ok v g' ->
  ∃ c, v = OpResult c 0 ∧ irOps g !! c = None
       ∧ irOps g' !! c = Some (constantOp e values (ipBlock ip))
       ∧ grows (ipBlock ip) g g'.
Proof.
  unfold onnx_constant. intros H. minv. exists x. split_and!; [done| | |].
  - by eapply createOp_inv.
  - by eapply createOp_lookup.
  - by eapply createOp_grows.
Qed.

Lemma resolveConstant_grows ip maxV b g r g' :
  resolveConstant ip maxV b g = Ok r g' -> grows (ipBlock ip) g g'.
Proof.
  unfold resolveConstant. intros H. minvs; try apply grows_refl.
  by apply onnx_constant_inv in H5 as (? & _ & _ & _ & ?).
Qed.

Lemma resolveDynamic_grows ip maxV b g r g' :
  resolveDynamic ip maxV b g = Ok r g' -> grows (ipBlock ip) g g'.
Proof.
  unfold resolveDynamic. intros H. minvs.
  all: repeat match goal with
       | H : emitOp _ _ _ _ _ _ = Ok _ _ |- _ => apply emitOp_grows in H
       | H : onnx_cast _ _ _ _ = Ok _ _ |- _ => apply onnx_cast_grows in H
       end.
  all: repeat (eapply grows_trans; [eassumption|]); apply grows_refl.
Qed.

Lemma matchOp_inv ip loopOp g v g2 :
  matchOp ip loopOp g = Ok (true, v) g2 ->
  ∃ loop bodyBlock returnOp lessOp i,
    irOps g !! loopOp = Some loop ∧ opRegions loop !! 0 = Some [bodyBlock]
    ∧ getTerminator g bodyBlock = Some returnOp
    ∧ isa g returnOp ONNXReturnOp = true
    ∧ getOperand g returnOp 0 = Some (OpResult lessOp i)
    ∧ isa g lessOp ONNXLessOp = true
    ∧ grows (ipBlock ip) g g2.
Proof.
  unfold matchOp. intros H.
  apply bind_Ok_inv in H as (maxV0 & g0 & H0 & H).
  apply getsSome_Ok_inv in H0 as [_ ->].
  apply bind_Ok_inv in H as (idiom & g1 & H1 & H).
  destruct idiom as [b|]; [|by minv].
  apply matchIdiom_inv in H1
    as (maxV & loop & bodyBlock & returnOp & lessOp & i & _ & _ & Hl & Hr & Ht
        & Hret & Hop & Hless & Hg).
  exists loop, bodyBlock, returnOp, lessOp, i. split_and!; try done.
  apply bind_Ok_inv in H as (constants & g1' & Hc & H).
  apply getsSome_Ok_inv in Hc as [_ ->].
  eapply grows_trans; [done|].
  destruct constants; [by eapply resolveConstant_grows | by eapply resolveDynamic_grows].
Qed.

Lemma forM_replace_inv (operands : list Value) (l : list nat) o from to g g' :
  forM_ l (fun i => if decide (operands !! i = Some from)
                    then setOperand o i to else ret tt) g = Ok tt g' ->
  operandsSetTo to g g'
  ∧ ∀ i, i ∈ l -> operands !! i = Some from -> getOperand g' o i = Some to.
Proof.
  revert g. induction l as [|i l IH]; intros g H; simpl in H.
  - minv. split; [apply operandsSetTo_refl|]. by intros i ?%elem_of_nil.
  - apply bind_Ok_inv in H as ([] & g1 & H1 & H2).
    destruct (IH _ H2) as [Hrel Hall].
    assert (operandsSetTo to g g1) as Hrel1.
    { case_decide; [by eapply setOperand_operandsSetTo|].
      minv. apply operandsSetTo_refl. }
    split; [by eapply operandsSetTo_trans|].
    intros i' [->|Hin]%elem_of_cons Hfrom; [|by apply Hall].
    eapply operandsSetTo_stable; [done|].
    rewrite decide_True in H1 by done. by eapply setOperand_getOperand.
Qed.

Lemma replaceUsesOfWith_inv o from to g g' :
  replaceUsesOfWith o from to g = Ok tt g' ->
  operandsSetTo to g g'
  ∧ ∀ i, getOperand g o i = Some from -> getOperand g' o i = Some to.
Proof.
  unfold replaceUsesOfWith. intros H. minv.
  apply forM_replace_inv in H as [Hrel Hall]. split; [done|].
  intros i Hi. unfold getOperand in Hi. rewrite H0 in Hi. simpl in Hi.
  apply Hall; [|done]. apply elem_of_seq. split; [lia|].
  apply lookup_lt_Some in Hi. lia.
Qed.

Lemma operandsSetTo_bodyOf w g g' o : operandsSetTo w g g' -> bodyOf g' o = bodyOf g o.
Proof.
  intros [_ H]. specialize (H o). unfold bodyOf.
  destruct (irOps g !! o) as [op|], (irOps g' !! o) as [op'|]; try done.
  destruct H as [Hs _]. unfold opStatic in Hs. injection Hs as _ _ _ Hr _.
  simpl. by rewrite Hr.
Qed.

Lemma grows_bodyOf b g g' o r : grows b g g' -> bodyOf g o = Some r -> bodyOf g' o = Some r.
Proof.
  intros (Ho & _) H. unfold bodyOf in *.
  destruct (irOps g !! o) as [op|] eqn:E; [|discriminate].
  by rewrite (Ho _ _ E).
Qed.

Lemma rewriteLoop_inv loopOp maxV newV g2 r g' :
  rewriteLoop loopOp maxV newV g2 = Ok r g' ->
  r = success
  ∧ ∃ g3 bodyBlock terminator,
      operandsSetTo newV g2 g3
      ∧ (∀ i, getOperand g2 loopOp i = Some maxV -> getOperand g3 loopOp i = Some newV)
      ∧ bodyOf g3 loopOp = Some bodyBlock
      ∧ getTerminator g3 bodyBlock = Some terminator
      ∧ is_Some (getType g3 (BlockArgument bodyBlock 1))
      ∧ setOperand terminator 0 (BlockArgument bodyBlock 1) g3 = Ok tt g'.
Proof.
  unfold rewriteLoop. intros H.
  apply bind_Ok_inv in H as ([] & g3 & Hrepl & H).
  apply bind_Ok_inv in H as (loop3 & g0 & H0 & H). apply getOp_Ok_inv in H0 as [Hl3 ->].
  apply bind_Ok_inv in H as (bodyBlock & g0 & H0 & H).
  apply assertSome_Ok_inv in H0 as [Hb3 ->].
  apply bind_Ok_inv in H as (terminator & g0 & H0 & H).
  apply getsSome_Ok_inv in H0 as [Ht3 ->].
  apply bind_Ok_inv in H as (body & g0 & H0 & H). apply getBlock_Ok_inv in H0 as [Hbody ->].
  apply bind_Ok_inv in H as (arg1 & g0 & H0 & H). apply assertSome_Ok_inv in H0 as [Harg ->].
  apply bind_Ok_inv in H as ([] & g4 & Hset & H). apply ret_Ok_inv in H as [<- ->].
  split; [done|]. apply replaceUsesOfWith_inv in Hrepl as [Hrel Hall].
  exists g3, bodyBlock, terminator. split_and!; try done.
  - unfold bodyOf. by rewrite Hl3.
  - simpl. rewrite Hbody. simpl. eauto.
Qed.

(** C9. Whenever [LoopOpRewriteMaxTripCountPattern] succeeds, in the
    constant case and in the emitted-arithmetic case alike, operand 0 of the
    terminator of the loop body, which before the rewrite was the result of
    the matched less-than comparison, is the second argument of the body
    block: a block argument, defined by no operation. *)
Theorem break_condition_passes_through (g g' : IR) (loopOp : OpId) :
  LoopOpRewriteMaxTripCountPattern loopOp g = Ok success g' ->
  ∃ bodyBlock terminatorBefore lessOp i terminator,
    bodyOf g loopOp = Some bodyBlock
    ∧ getTerminator g bodyBlock = Some terminatorBefore
    ∧ getOperand g terminatorBefore 0 = Some (OpResult lessOp i)
    ∧ isa g lessOp ONNXLessOp = true
    ∧ bodyOf g' loopOp = Some bodyBlock
    ∧ getTerminator g' bodyBlock = Some terminator
    ∧ getOperand g' terminator 0 = Some (BlockArgument bodyBlock 1)
    ∧ is_Some (getType g' (BlockArgument bodyBlock 1))
    ∧ getDefiningOp (BlockArgument bodyBlock 1) = None.
Proof.
  unfold LoopOpRewriteMaxTripCountPattern. intros H.
  apply bind_Ok_inv in H as ([] & g0 & H0 & H). apply castOp_Ok_inv in H0 as [_ ->].
  apply bind_Ok_inv in H as (ip & g0 & H0 & H). apply getsSome_Ok_inv in H0 as [_ ->].
  apply bind_Ok_inv in H as (maxV & g0 & H0 & H). apply getsSome_Ok_inv in H0 as [_ ->].
  apply bind_Ok_inv in H as ([matched newV] & g2 & Hmatch & H).
  destruct matched; [|by minv]. simpl in H.
  apply rewriteLoop_inv in H
    as (_ & g3 & bodyBlock & terminator & Hrel3 & _ & Hb3' & Ht3 & Harg & Hset).
  apply matchOp_inv in Hmatch
    as (loop & bb & returnOp & lessOp & i & Hl & Hr & Ht & _ & Hop & Hless & Hg).
  pose proof (setOperand_operandsSetTo _ _ _ _ _ Hset) as Hrel.
  assert (bodyOf g loopOp = Some bb) as Hb.
  { unfold bodyOf. rewrite Hl. simpl. by rewrite Hr. }
  assert (bodyBlock = bb) as ->.
  { rewrite (operandsSetTo_bodyOf _ _ _ _ Hrel3) in Hb3'.
    rewrite (grows_bodyOf _ _ _ _ _ Hg Hb) in Hb3'. congruence. }
  exists bb, returnOp, lessOp, i, terminator. split_and!; try done.
  - by rewrite (operandsSetTo_bodyOf _ _ _ _ Hrel).
  - destruct Hrel as [Hblocks _]. unfold getTerminator. rewrite Hblocks.
    exact Ht3.
  - by eapply setOperand_getOperand.
  - destruct Hrel as [Hblocks _]. simpl in *. by rewrite Hblocks.
Qed.

Lemma break_condition_passes_through_witness :
  (∃ bodyBlock terminatorBefore lessOp i terminator,
     bodyOf (loopGraph 9223372036854775807 (-100) 100 1) 4 = Some bodyBlock
     ∧ getTerminator (loopGraph 9223372036854775807 (-100) 100 1) bodyBlock
       = Some terminatorBefore
     ∧ getOperand (loopGraph 9223372036854775807 (-100) 100 1) terminatorBefore 0
       = Some (OpResult lessOp i)
     ∧ isa (loopGraph 9223372036854775807 (-100) 100 1) lessOp ONNXLessOp = true
     ∧ bodyOf (graphAfter (LoopOpRewriteMaxTripCountPattern 4)
                 (loopGraph 9223372036854775807 (-100) 100 1)) 4 = Some bodyBlock
     ∧ getTerminator (graphAfter (LoopOpRewriteMaxTripCountPattern 4)
                        (loopGraph 9223372036854775807 (-100) 100 1)) bodyBlock
       = Some terminator
     ∧ getOperand (graphAfter (LoopOpRewriteMaxTripCountPattern 4)
                     (loopGraph 9223372036854775807 (-100) 100 1)) terminator 0
       = Some (BlockArgument bodyBlock 1)
     ∧ is_Some (getType (graphAfter (LoopOpRewriteMaxTripCountPattern 4)
                           (loopGraph 9223372036854775807 (-100) 100 1))
                  (BlockArgument bodyBlock 1))
     ∧ getDefiningOp (BlockArgument bodyBlock 1) = None)
  ∧ (∃ bodyBlock terminatorBefore lessOp i terminator,
       bodyOf loopGraphDynamic 4 = Some bodyBlock
       ∧ getTerminator loopGraphDynamic bodyBlock = Some terminatorBefore
       ∧ getOperand loopGraphDynamic terminatorBefore 0 = Some (OpResult lessOp i)
       ∧ isa loopGraphDynamic lessOp ONNXLessOp = true
       ∧ bodyOf (graphAfter (LoopOpRewriteMaxTripCountPattern 4) loopGraphDynamic) 4
         = Some bodyBlock
       ∧ getTerminator (graphAfter (LoopOpRewriteMaxTripCountPattern 4)
                          loopGraphDynamic) bodyBlock = Some terminator
       ∧ getOperand (graphAfter (LoopOpRewriteMaxTripCountPattern 4)
                       loopGraphDynamic) terminator 0
         = Some (BlockArgument bodyBlock 1)
       ∧ is_Some (getType (graphAfter (LoopOpRewriteMaxTripCountPattern 4)
                             loopGraphDynamic) (BlockArgument bodyBlock 1))
       ∧ getDefiningOp (BlockArgument bodyBlock 1) = None).
Proof.
  split.
  - apply (break_condition_passes_through
             (loopGraph 9223372036854775807 (-100) 100 1)
             (graphAfter (LoopOpRewriteMaxTripCountPattern 4)
                (loopGraph 9223372036854775807 (-100) 100 1)) 4).
    vm_compute. reflexivity.
  - apply (break_condition_passes_through loopGraphDynamic
             (graphAfter (LoopOpRewriteMaxTripCountPattern 4) loopGraphDynamic) 4).
    vm_compute. reflexivity.
Defined.

Lemma matchOp_constant ip loopOp g g1 maxV b :
  getOperand g loopOp 0 = Some maxV ->
  matchIdiom ip loopOp g = Ok (Some b) g1 ->
  allConstants g1 b = Some true ->
  matchOp ip loopOp g = resolveConstant ip maxV b g1.
Proof.
  intros Hmax Hidiom Hconst. unfold matchOp.
  rewrite (bind_Ok _ _ _ _ _ (getsSome_Ok _ _ _ Hmax)).
  rewrite (bind_Ok _ _ _ _ _ Hidiom).
  by rewrite (bind_Ok _ _ _ _ _ (getsSome_Ok _ _ _ Hconst)).
Qed.

Lemma grows_None b g g' o : grows b g g' -> irOps g' !! o = None -> irOps g !! o = None.
Proof.
  intros (Ho & _) Hn. destruct (irOps g !! o) as [op|] eqn:E; [|done].
  rewrite (Ho _ _ E) in Hn. discriminate.
Qed.

Lemma grows_getOperand b g g' o i v :
  grows b g g' -> getOperand g o i = Some v -> getOperand g' o i = Some v.
Proof.
  intros (Ho & _) H. unfold getOperand in *.
  destruct (irOps g !! o) as [op|] eqn:E; [|discriminate]. by rewrite (Ho _ _ E).
Qed.

Lemma grows_getTerminator b g g' bb :
  grows b g g' -> bb ≠ b -> getTerminator g' bb = getTerminator g bb.
Proof. intros (_ & Hb & _) Hne. unfold getTerminator. by rewrite Hb. Qed.

Lemma getOneIntegerConstant_constantOp g c e values b :
  irOps g !! c = Some (constantOp e values b) ->
  getOneIntegerConstant g (OpResult c 0) = values !! 0.
Proof. intros H. unfold getOneIntegerConstant. simpl. rewrite H. reflexivity. Qed.

Lemma getOneIntegerConstant_static g g' c op op' :
  irOps g !! c = Some op -> irOps g' !! c = Some op' -> opStatic op' = opStatic op ->
  getOneIntegerConstant g' (OpResult c 0) = getOneIntegerConstant g (OpResult c 0).
Proof.
  intros H H' Hs. unfold getOneIntegerConstant. simpl. rewrite H, H'. simpl.
  unfold opStatic in Hs. injection Hs as Hn _ Ha _ _. by rewrite Hn, Ha.
Qed.

Lemma forM_replace_Ok (operands : list Value) (l : list nat) o from to g :
  (∀ i, i ∈ l -> is_Some (getOperand g o i)) ->
  ∃ g', forM_ l (fun i => if decide (operands !! i = Some from)
                          then setOperand o i to else ret tt) g = Ok tt g'.
Proof.
  revert g. induction l as [|i l IH]; intros g H; simpl.
  - unfold ret. eauto.
  - assert (∃ g1, (if decide (operands !! i = Some from)
                   then setOperand o i to else ret tt) g = Ok tt g1
                  ∧ operandsSetTo to g g1) as (g1 & H1 & Hrel).
    { case_decide.
      - destruct (setOperand_Ok o i to g) as [g1 H1]; [apply H; by left|].
        exists g1. split; [done|]. by eapply setOperand_operandsSetTo.
      - exists g. split; [done|]. apply operandsSetTo_refl. }
    rewrite (bind_Ok _ _ _ _ _ H1). apply IH. intros i' Hin.
    eapply operandsSetTo_is_Some; [done|]. apply H. by right.
Qed.

Lemma replaceUsesOfWith_Ok o from to g :
  is_Some (irOps g !! o) -> ∃ g', replaceUsesOfWith o from to g = Ok tt g'.
Proof.
  intros [op Ho]. unfold replaceUsesOfWith.
  rewrite (bind_Ok _ _ _ _ _ (getOp_Ok _ _ _ Ho)). apply forM_replace_Ok.
  intros i [_ Hi]%elem_of_seq. unfold getOperand. rewrite Ho. simpl.
  apply lookup_lt_is_Some. lia.
Qed.

Lemma isDefinedByIntegerConstantOp_elementType g v :
  isDefinedByIntegerConstantOp g v = Some true -> is_Some (elementTypeOf g v).
Proof.
  unfold isDefinedByIntegerConstantOp, hasIntegerElementType, elementTypeOf.
  destruct v as [o i|]; [|discriminate].
  destruct (getType g (OpResult o i)) as [t|]; simpl; [|discriminate].
  destruct (getElementType t); simpl; [eauto|discriminate].
Qed.

Lemma grows_elementTypeOf b g g' v :
  grows b g g' -> is_Some (elementTypeOf g v) -> is_Some (elementTypeOf g' v).
Proof.
  intros (Ho & Hb & Ha). unfold elementTypeOf, getType. destruct v as [o i|bb i].
  - destruct (irOps g !! o) as [op|] eqn:E; simpl; [|by intros [? ?]].
    by rewrite (Ho _ _ E).
  - destruct (decide (bb = b)) as [->|Hne]; [|by rewrite Hb].
    destruct (irBlocks g !! b) as [blk|] eqn:E; simpl; [|by intros [? ?]].
    destruct (Ha _ eq_refl) as (blk' & Hblk' & Hargs). rewrite Hblk'. simpl.
    by rewrite Hargs.
Qed.

(** The rewriting phase succeeds on a loop whose body, a block other than
    the one of the loop, has two arguments and a terminator with an
    operand. *)
Lemma rewriteLoop_Ok loopOp loop bodyBlock returnOp maxV newV g2 :
  irOps g2 !! loopOp = Some loop -> opRegions loop !! 0 = Some [bodyBlock] ->
  getTerminator g2 bodyBlock = Some returnOp ->
  is_Some (getOperand g2 returnOp 0) ->
  is_Some (getType g2 (BlockArgument bodyBlock 1)) ->
  ∃ g', rewriteLoop loopOp maxV newV g2 = Ok success g'.
Proof.
  intros Hl Hr Ht Hop Harg. unfold rewriteLoop.
  destruct (replaceUsesOfWith_Ok loopOp maxV newV g2) as [g3 Hrepl]; [eauto|].
  rewrite (bind_Ok _ _ _ _ _ Hrepl).
  apply replaceUsesOfWith_inv in Hrepl as [Hrel _].
  destruct (operandsSetTo_lookup_fwd _ _ _ _ _ Hrel Hl) as (loop3 & Hl3 & Hst).
  rewrite (bind_Ok _ _ _ _ _ (getOp_Ok _ _ _ Hl3)).
  unfold opStatic in Hst. injection Hst as _ _ _ Hregions _.
  rewrite Hregions, Hr. simpl. unfold bind at 1, ret at 1.
  pose proof Hrel as [Hblocks _].
  rewrite (bind_Ok _ _ _ returnOp g3)
    by (apply getsSome_Ok; unfold getTerminator; by rewrite Hblocks).
  unfold getTerminator in Ht. simpl in Harg. rewrite <- Hblocks in Ht, Harg.
  destruct (irBlocks g3 !! bodyBlock) as [body|] eqn:Hbody; [|discriminate].
  unfold bind at 1, getBlock. rewrite Hbody. simpl in Harg.
  destruct (blockArguments body !! 1) as [t|]; [|by destruct Harg]. simpl.
  unfold bind at 1, ret at 1.
  destruct (setOperand_Ok returnOp 0 (BlockArgument bodyBlock 1) g3) as [g' Hset].
  { by eapply operandsSetTo_is_Some. }
  rewrite (bind_Ok _ _ _ _ _ Hset). unfold ret. eauto.
Qed.

(** What the pattern computes once the idiom is matched with constant
    bounds. *)
Lemma LoopOpRewriteMaxTripCountPattern_constant_run g g1 loopOp loop maxV b
    lowerBound upperBound step maxTripCount :
  irOps g !! loopOp = Some loop -> opName loop = ONNXLoopOp ->
  opOperands loop !! 0 = Some maxV ->
  matchIdiom {| ipBlock := opBlock loop; ipBefore := Some loopOp |} loopOp g
    = Ok (Some b) g1 ->
  allConstants g1 b = Some true ->
  getOneIntegerConstant g1 (lbValue b) = Some lowerBound ->
  getOneIntegerConstant g1 (ubValue b) = Some upperBound ->
  getOneIntegerConstant g1 (stepValue b) = Some step ->
  getOneIntegerConstant g1 maxV = Some maxTripCount ->
  LoopOpRewriteMaxTripCountPattern loopOp g =
    if ((step <=? 0) || (upperBound <=? lowerBound))%Z then Ok failure g1
    else if (maxTripCount <=? derivedTripCount lowerBound upperBound step)%Z
    then Ok failure g1
    else
      (let* e := getsSome (fun g => elementTypeOf g maxV) in
       let* c := onnx_constant {| ipBlock := opBlock loop; ipBefore := Some loopOp |}
                   e [derivedTripCount lowerBound upperBound step] in
       rewriteLoop loopOp maxV c) g1.
Proof.
  intros Hl Hn Hmax Hidiom Hconst Hlb Hub Hstep Hmaxc.
  assert (getOperand g loopOp 0 = Some maxV) as Hmax'.
  { unfold getOperand. by rewrite Hl. }
  unfold LoopOpRewriteMaxTripCountPattern.
  rewrite (bind_Ok _ _ _ _ _ (castOp_Ok _ _ _ (proj2 (isa_Some _ _ _) (ex_intro _ loop (conj Hl Hn))))).
  rewrite (bind_Ok _ _ _ {| ipBlock := opBlock loop; ipBefore := Some loopOp |} g)
    by (apply getsSome_Ok; unfold setInsertionPoint; by rewrite Hl).
  rewrite (bind_Ok _ _ _ _ _ (getsSome_Ok _ _ _ Hmax')).
  unfold bind at 1. rewrite (matchOp_constant _ _ _ _ _ _ Hmax' Hidiom Hconst).
  unfold resolveConstant.
  rewrite (bind_Ok _ _ _ _ _ (getsSome_Ok _ _ _ Hlb)).
  rewrite (bind_Ok _ _ _ _ _ (getsSome_Ok _ _ _ Hub)).
  rewrite (bind_Ok _ _ _ _ _ (getsSome_Ok _ _ _ Hstep)).
  destruct ((step <=? 0) || (upperBound <=? lowerBound))%Z; [done|].
  rewrite (bind_Ok _ _ _ _ _ (getsSome_Ok _ _ _ Hmaxc)).
  destruct (maxTripCount <=? derivedTripCount lowerBound upperBound step)%Z; [done|].
  unfold bind, getsSome. destruct (elementTypeOf g1 maxV) as [e|]; simpl; [|done].
  destruct (onnx_constant _ e _ g1) as [c g2|]; [|done]. simpl. reflexivity.
Qed.

(** The constant case in terms of the trip count that the code derives in
    [double] arithmetic ([derivedTripCount], which is the exact ceiling for
    small ranges only).  Once the loop idiom is matched and the lower
    bound, the upper bound and the step are compile-time integer constants:
    [LoopOpRewriteMaxTripCountPattern] succeeds only if [step > 0],
    [upperBound > lowerBound] and the derived trip count is strictly smaller
    than the constant maximum trip count; whenever one of the three
    conditions fails it declines and leaves the loop operation and its body
    block as they were; when it succeeds, operand 0 of the loop is the
    result of a new constant whose value is the derived trip count, which is
    not larger than the original maximum; and when the three conditions
    hold it does succeed, provided the block of the loop is registered and
    the body block has its two leading arguments. *)
Theorem maxTripCount_constant_case (g g1 : IR) (loopOp : OpId) (loop : Operation)
    (bodyBlock : BlockId) (maxTripCountValue : Value) (b : LoopIdiom)
    (lowerBound upperBound step maxTripCount : Z) :
  irOps g !! loopOp = Some loop -> opName loop = ONNXLoopOp ->
  opRegions loop !! 0 = Some [bodyBlock] -> opBlock loop ≠ bodyBlock ->
  opOperands loop !! 0 = Some maxTripCountValue ->
  matchIdiom {| ipBlock := opBlock loop; ipBefore := Some loopOp |} loopOp g
    = Ok (Some b) g1 ->
  allConstants g1 b = Some true ->
  getOneIntegerConstant g1 (lbValue b) = Some lowerBound ->
  getOneIntegerConstant g1 (ubValue b) = Some upperBound ->
  getOneIntegerConstant g1 (stepValue b) = Some step ->
  getOneIntegerConstant g1 maxTripCountValue = Some maxTripCount ->
  (∀ g', LoopOpRewriteMaxTripCountPattern loopOp g = Ok success g' ->
     (0 < step ∧ lowerBound < upperBound
      ∧ derivedTripCount lowerBound upperBound step < maxTripCount)%Z
     ∧ ∃ c,
         getOperand g' loopOp 0 = Some (OpResult c 0)
         ∧ irOps g !! c = None
         ∧ isa g' c ONNXConstantOp = true
         ∧ getOneIntegerConstant g' (OpResult c 0)
           = Some (derivedTripCount lowerBound upperBound step)
         ∧ (derivedTripCount lowerBound upperBound step <= maxTripCount)%Z)
  ∧ (¬ (0 < step ∧ lowerBound < upperBound
        ∧ derivedTripCount lowerBound upperBound step < maxTripCount)%Z ->
     LoopOpRewriteMaxTripCountPattern loopOp g = Ok failure g1
     ∧ irOps g1 !! loopOp = Some loop
     ∧ irBlocks g1 !! bodyBlock = irBlocks g !! bodyBlock)
  ∧ ((0 < step ∧ lowerBound < upperBound
      ∧ derivedTripCount lowerBound upperBound step < maxTripCount)%Z ->
     is_Some (irBlocks g !! opBlock loop) ->
     is_Some (getType g (BlockArgument bodyBlock 1)) ->
     ∃ g', LoopOpRewriteMaxTripCountPattern loopOp g = Ok success g').
Proof.
  intros Hl Hn Hr Hbody Hmax Hidiom Hconst Hlb Hub Hstep Hmaxc.
  rewrite (LoopOpRewriteMaxTripCountPattern_constant_run g g1 loopOp loop
             maxTripCountValue b lowerBound upperBound step maxTripCount)
    by done.
  pose proof (matchIdiom_inv _ _ _ _ _ Hidiom)
    as (maxV' & loop' & bb & returnOp & lessOp & i & Hmax0 & Hmaxconst & Hl' & Hr'
        & Ht & Hret & Hbreak & _ & Hg).
  rewrite Hl in Hl'. injection Hl' as <-. rewrite Hr in Hr'. injection Hr' as <-.
  assert (maxV' = maxTripCountValue) as ->.
  { unfold getOperand in Hmax0. rewrite Hl in Hmax0. simpl in Hmax0. congruence. }
  simpl in Hg.
  destruct (Z.leb_spec step 0) as [Hs|Hs]; simpl.
  { split_and!; [discriminate| |lia]. intros _. destruct Hg as (Ho & Hb & _).
    split_and!; [done|by apply Ho|by apply Hb]. }
  destruct (Z.leb_spec upperBound lowerBound) as [Hu|Hu]; simpl.
  { split_and!; [discriminate| |lia]. intros _. destruct Hg as (Ho & Hb & _).
    split_and!; [done|by apply Ho|by apply Hb]. }
  destruct (Z.leb_spec maxTripCount (derivedTripCount lowerBound upperBound step))
    as [Hd|Hd]; simpl.
  { split_and!; [discriminate| |lia]. intros _. destruct Hg as (Ho & Hb & _).
    split_and!; [done|by apply Ho|by apply Hb]. }
  split_and!; [|intros Hnot; destruct Hnot; lia|].
  2:{ intros _ Hblock Harg.
      destruct (grows_elementTypeOf _ _ _ _ Hg
                  (isDefinedByIntegerConstantOp_elementType _ _ Hmaxconst)) as [e He].
      rewrite (bind_Ok _ _ _ _ _ (getsSome_Ok _ _ _ He)).
      destruct Hblock as [blk Hblk]. pose proof Hg as (_ & _ & Hargs).
      destruct (Hargs _ Hblk) as (blk1 & Hblk1 & _).
      destruct (createOp_Ok {| ipBlock := opBlock loop; ipBefore := Some loopOp |}
                  ONNXConstantOp [] [TensorType e (Some [])]
                  {| layoutAttr := None;
                     valueAttr := Some [derivedTripCount lowerBound upperBound step];
                     toAttr := None; mapAttr := None |} g1) as (c & g2 & Hc); [eauto|].
      assert (onnx_constant {| ipBlock := opBlock loop; ipBefore := Some loopOp |} e
                [derivedTripCount lowerBound upperBound step] g1
              = Ok (OpResult c 0) g2) as Hconstant.
      { unfold onnx_constant. by rewrite (bind_Ok _ _ _ _ _ Hc). }
      rewrite (bind_Ok _ _ _ _ _ Hconstant).
      pose proof (grows_trans _ _ _ _ Hg (createOp_grows _ _ _ _ _ _ _ _ Hc)) as Hg02.
      simpl in Hg02. pose proof Hg02 as (Ho02 & Hb02 & _).
      eapply rewriteLoop_Ok; [by apply Ho02|done| | |].
      - by rewrite (grows_getTerminator _ _ _ _ Hg02).
      - erewrite grows_getOperand; [eauto|done..].
      - simpl. rewrite Hb02 by done. exact Harg. }
  intros g' H. split; [lia|].
  apply bind_Ok_inv in H as (e & g0 & H0 & H). apply getsSome_Ok_inv in H0 as [_ ->].
  apply bind_Ok_inv in H as (newV & g2 & Hc & H).
  apply onnx_constant_inv in Hc as (c & -> & Hfresh & Hcop & Hg2). simpl in Hg2.
  apply rewriteLoop_inv in H
    as (_ & g3 & bodyBlock' & terminator & Hrel3 & Hrepl & Hb3 & Ht3 & _ & Hset).
  pose proof (grows_trans _ _ _ _ Hg Hg2) as Hg02.
  assert (bodyOf g loopOp = Some bodyBlock) as Hb0.
  { unfold bodyOf. rewrite Hl. simpl. by rewrite Hr. }
  assert (bodyBlock' = bodyBlock) as ->.
  { rewrite (operandsSetTo_bodyOf _ _ _ _ Hrel3) in Hb3.
    rewrite (grows_bodyOf _ _ _ _ _ Hg02 Hb0) in Hb3. congruence. }
  assert (terminator = returnOp) as ->.
  { destruct Hrel3 as [Hblocks _]. unfold getTerminator in Ht3.
    rewrite Hblocks in Ht3. fold (getTerminator g2 bodyBlock) in Ht3.
    rewrite (grows_getTerminator _ _ _ _ Hg02) in Ht3 by done. congruence. }
  assert (returnOp ≠ loopOp) as Hne.
  { apply (isa_distinct g returnOp loopOp ONNXReturnOp ONNXLoopOp); [done| |done].
    apply isa_Some. eauto. }
  assert (returnOp ≠ c) as Hnec.
  { intros ->. apply isa_Some in Hret as (opR & HoR & _).
    destruct Hg as (Ho & _). rewrite (Ho _ _ HoR) in Hfresh. discriminate. }
  destruct (operandsSetTo_lookup_fwd _ _ _ _ _ Hrel3 Hcop) as (cop3 & Hcop3 & Hst).
  exists c. split_and!.
  - unfold getOperand. rewrite (setOperand_other _ _ _ _ _ _ Hset) by done.
    apply Hrepl. eapply grows_getOperand; [done|]. unfold getOperand. by rewrite Hl.
  - exact (grows_None _ _ _ _ Hg Hfresh).
  - apply isa_Some. exists cop3. split.
    + by rewrite (setOperand_other _ _ _ _ _ _ Hset).
    + unfold opStatic in Hst. injection Hst as Hname _ _ _ _. by rewrite Hname.
  - rewrite (getOneIntegerConstant_static g2 g' c _ cop3 Hcop); [| |done].
    + by rewrite (getOneIntegerConstant_constantOp _ _ _ _ _ Hcop).
    + by rewrite (setOperand_other _ _ _ _ _ _ Hset).
  - lia.
Qed.

Lemma maxTripCount_constant_case_witness :
  (∀ g', LoopOpRewriteMaxTripCountPattern 4 commentLoop = Ok success g' ->
     (0 < 1 ∧ -100 < 100
      ∧ derivedTripCount (-100) 100 1 < 9223372036854775807)%Z
     ∧ ∃ c,
         getOperand g' 4 0 = Some (OpResult c 0)
         ∧ irOps commentLoop !! c = None
         ∧ isa g' c ONNXConstantOp = true
         ∧ getOneIntegerConstant g' (OpResult c 0)
           = Some (derivedTripCount (-100) 100 1)
         ∧ (derivedTripCount (-100) 100 1 <= 9223372036854775807)%Z)
  ∧ (¬ (0 < 1 ∧ -100 < 100
        ∧ derivedTripCount (-100) 100 1 < 9223372036854775807)%Z ->
     LoopOpRewriteMaxTripCountPattern 4 commentLoop
       = Ok failure
           (graphAfter (matchIdiom {| ipBlock := 0; ipBefore := Some 4 |} 4) commentLoop)
     ∧ irOps (graphAfter (matchIdiom {| ipBlock := 0; ipBefore := Some 4 |} 4)
                commentLoop) !! 4 = Some commentLoopOp
     ∧ irBlocks (graphAfter (matchIdiom {| ipBlock := 0; ipBefore := Some 4 |} 4)
                   commentLoop) !! 1 = irBlocks commentLoop !! 1)
  ∧ ((0 < 1 ∧ -100 < 100
      ∧ derivedTripCount (-100) 100 1 < 9223372036854775807)%Z ->
     is_Some (irBlocks commentLoop !! opBlock commentLoopOp) ->
     is_Some (getType commentLoop (BlockArgument 1 1)) ->
     ∃ g', LoopOpRewriteMaxTripCountPattern 4 commentLoop = Ok success g').
Proof.
  apply (maxTripCount_constant_case commentLoop
           (graphAfter (matchIdiom {| ipBlock := 0; ipBefore := Some 4 |} 4) commentLoop)
           4 commentLoopOp 1 (OpResult 0 0) commentLoopIdiom
           (-100) 100 1 9223372036854775807).
  - reflexivity.
  - reflexivity.
  - reflexivity.
  - simpl. lia.
  - reflexivity.
  - vm_compute. reflexivity.
  - vm_compute. reflexivity.
  - vm_compute. reflexivity.
  - vm_compute. reflexivity.
  - vm_compute. reflexivity.
  - vm_compute. reflexivity.
Defined.

(** C1 (the code at a failing input). With [lowerBound = 0],
    [upperBound = 2^53 + 1], [step = 1] and the constant maximum trip count
    [2^53 + 1], the trip count [ceil((upperBound - lowerBound) / step)] is
    [2^53 + 1], which is not smaller than the maximum trip count, so that
    the pattern should decline.  The range, converted to [double], rounds
    to [2^53]: the pattern succeeds and installs [2^53] as the maximum trip
    count, one iteration short of the loop. *)
Theorem maxTripCount_narrowed_below_exact_ceiling :
  ceilDiv (9007199254740993 - 0) 1 = 9007199254740993%Z
  ∧ ¬ (ceilDiv (9007199254740993 - 0) 1 < 9007199254740993)%Z
  ∧ derivedTripCount 0 9007199254740993 1 = 9007199254740992%Z
  ∧ ∃ g' c,
      LoopOpRewriteMaxTripCountPattern 4
        (loopGraph 9007199254740993 0 9007199254740993 1) = Ok success g'
      ∧ getOperand g' 4 0 = Some (OpResult c 0)
      ∧ irOps (loopGraph 9007199254740993 0 9007199254740993 1) !! c = None
      ∧ isa g' c ONNXConstantOp = true
      ∧ getOneIntegerConstant g' (OpResult c 0) = Some 9007199254740992%Z.
Proof.
  split_and!; try (vm_compute; reflexivity).
  - vm_compute. discriminate.
  - exists (graphAfter (LoopOpRewriteMaxTripCountPattern 4)
              (loopGraph 9007199254740993 0 9007199254740993 1)), 11.
    split_and!; vm_compute; reflexivity.
Qed.

(** The example of the comment in Rewrite.cpp: the maximum trip count
    [9223372036854775807] of the loop from [-100] to [100] by [1] becomes
    [200]. *)
Example commentLoop_rewritten :
  ∃ g' c,
    LoopOpRewriteMaxTripCountPattern 4 commentLoop = Ok success g'
    ∧ getOperand g' 4 0 = Some (OpResult c 0)
    ∧ getOneIntegerConstant g' (OpResult c 0) = Some 200%Z.
Proof.
  exists (graphAfter (LoopOpRewriteMaxTripCountPattern 4) commentLoop), 11.
  split_and!; vm_compute; reflexivity.
Qed.

(** With [upper <= lower] or [step <= 0] the pattern declines. *)
Example degenerate_loops_decline :
  (∃ g1, LoopOpRewriteMaxTripCountPattern 4
           (loopGraph 9223372036854775807 100 100 1) = Ok failure g1)
  ∧ (∃ g1, LoopOpRewriteMaxTripCountPattern 4
             (loopGraph 9223372036854775807 (-100) 100 0) = Ok failure g1)
  ∧ (∃ g1, LoopOpRewriteMaxTripCountPattern 4 (loopGraph 200 (-100) 100 1)
           = Ok failure g1).
Proof.
  split_and!; eexists; vm_compute; reflexivity.
Qed.

(* ================================================================== *)
(** ** A narrowed loop is not narrowed again *)
(* ================================================================== *)

Lemma isDefinedByIntegerConstantOp_is_Some g v :
  is_Some (elementTypeOf g v) -> is_Some (isDefinedByIntegerConstantOp g v).
Proof.
  unfold isDefinedByIntegerConstantOp, hasIntegerElementType, elementTypeOf.
  destruct v as [o i|]; [|eauto].
  destruct (getType g (OpResult o i)) as [t|]; simpl; [|by intros [? ?]].
  destruct (getElementType t); simpl; [eauto|by intros [? ?]].
Qed.

Lemma operandsSetTo_isDefinedByIntegerConstantOp w g g' v :
  operandsSetTo w g g' ->
  isDefinedByIntegerConstantOp g' v = isDefinedByIntegerConstantOp g v.
Proof.
  intros Hrel. destruct v as [o i|]; [|done].
  unfold isDefinedByIntegerConstantOp, hasIntegerElementType, getType.
  rewrite (operandsSetTo_isa _ _ _ _ _ Hrel).
  destruct Hrel as [_ H]. specialize (H o).
  destruct (irOps g !! o) as [op|], (irOps g' !! o) as [op'|]; try done.
  destruct H as [Hs _]. unfold opStatic in Hs. injection Hs as _ Ht Ha _ _.
  simpl. by rewrite Ht, Ha.
Qed.

Lemma emitOp_elementTypeOf ip n operands attrs g v g' first :
  emitOp ip n operands attrs None g = Ok v g' ->
  operands !! 0 = Some first -> is_Some (elementTypeOf g first) ->
  is_Some (elementTypeOf g' v).
Proof.
  unfold emitOp. intros H Hfirst [e He].
  apply bind_Ok_inv in H as (first' & g0 & H0 & H).
  apply assertSome_Ok_inv in H0 as [Hfirst' ->].
  apply bind_Ok_inv in H as (t & g0 & H0 & H).
  apply getsSome_Ok_inv in H0 as [Ht ->].
  apply bind_Ok_inv in H as (o & g1 & Hcreate & H).
  apply ret_Ok_inv in H as [<- <-].
  apply createOp_lookup in Hcreate. unfold elementTypeOf, getType.
  rewrite Hcreate. simpl. unfold elementTypeOf in He.
  replace first' with first in Ht by congruence. rewrite Ht in He. eauto.
Qed.

Lemma matchOp_newValue ip loopOp g v g2 :
  matchOp ip loopOp g = Ok (true, v) g2 ->
  is_Some (isDefinedByIntegerConstantOp g2 v).
Proof.
  unfold matchOp. intros H.
  apply bind_Ok_inv in H as (maxV0 & g0 & H0 & H).
  apply getsSome_Ok_inv in H0 as [Hmax0 ->].
  apply bind_Ok_inv in H as (idiom & g1 & H1 & H).
  destruct idiom as [b|]; [|by minv].
  apply matchIdiom_inv in H1
    as (maxV & _ & _ & _ & _ & _ & Hmax & Hconst & _ & _ & _ & _ & _ & _ & Hg).
  assert (maxV0 = maxV) as -> by congruence.
  apply isDefinedByIntegerConstantOp_elementType in Hconst.
  apply (grows_elementTypeOf _ _ _ _ Hg) in Hconst.
  apply bind_Ok_inv in H as (constants & g1' & Hc & H).
  apply getsSome_Ok_inv in Hc as [_ ->].
  apply isDefinedByIntegerConstantOp_is_Some.
  destruct constants.
  - unfold resolveConstant in H. minvs.
    match goal with
    | Hk : onnx_constant _ _ _ _ = Ok _ _ |- _ =>
        apply onnx_constant_inv in Hk as (c & -> & _ & Hc & _)
    end.
    injection H as <-. unfold elementTypeOf, getType. rewrite Hc. simpl. eauto.
  - unfold resolveDynamic in H.
    repeat (apply bind_Ok_inv in H as (? & ? & ? & H)).
    apply ret_Ok_inv in H as [[= <-] <-].
    match goal with
    | Hmin : emitOp _ ONNXMinOp _ _ _ _ = Ok _ _ |- _ =>
        eapply emitOp_elementTypeOf; [exact Hmin|reflexivity|]
    end.
    repeat match goal with
    | H : getsSome _ _ = Ok _ _ |- _ => apply getsSome_Ok_inv in H as [_ ->]
    end.
    repeat match goal with
    | H : (if ?d then _ else _) _ = Ok _ _ |- _ =>
        destruct d; [apply onnx_cast_grows in H|apply ret_Ok_inv in H as [_ ->]]
    | H : emitOp _ _ _ _ _ _ = Ok _ _ |- _ => apply emitOp_grows in H
    | H : onnx_cast _ _ _ _ = Ok _ _ |- _ => apply onnx_cast_grows in H
    end.
    all: clear Hg.
    all: repeat match goal with
         | H : grows _ ?a ?b |- is_Some (elementTypeOf ?b _) =>
             apply (grows_elementTypeOf _ _ _ _ H)
         end; done.
Qed.

(** X1: once [LoopOpRewriteMaxTripCountPattern] has narrowed a loop, a
    second application to the same loop declines and leaves the graph as
    it is: the break condition is now a block argument, which the matcher
    does not accept. *)
Theorem LoopOpRewriteMaxTripCountPattern_fires_once (g g' : IR) (loopOp : OpId) :
  LoopOpRewriteMaxTripCountPattern loopOp g = Ok success g' ->
  LoopOpRewriteMaxTripCountPattern loopOp g' = Ok failure g'.
Proof.
  unfold LoopOpRewriteMaxTripCountPattern at 1. intros H.
  apply bind_Ok_inv in H as ([] & g0 & H0 & H). apply castOp_Ok_inv in H0 as [Hloop ->].
  apply bind_Ok_inv in H as (ip & g0 & H0 & H). apply getsSome_Ok_inv in H0 as [_ ->].
  apply bind_Ok_inv in H as (maxV & g0 & H0 & H). apply getsSome_Ok_inv in H0 as [Hmax ->].
  apply bind_Ok_inv in H as ([matched newV] & g2 & Hmatch & H).
  destruct matched; [|by minv]. simpl in H.
  pose proof (matchOp_newValue _ _ _ _ _ Hmatch) as Hnew.
  apply rewriteLoop_inv in H
    as (_ & g3 & bodyBlock & terminator & Hrel3 & Hrepl & Hb3 & Ht3 & Harg & Hset).
  apply matchOp_inv in Hmatch
    as (loop & bb & returnOp & lessOp & i & Hl & Hr & _ & _ & _ & _ & Hg).
  pose proof (setOperand_operandsSetTo _ _ _ _ _ Hset) as Hrel.
  (* The loop in the rewritten graph. *)
  destruct Hg as (Hops & _).
  destruct (operandsSetTo_lookup_fwd _ _ _ _ _ Hrel3 (Hops _ _ Hl)) as (loop3 & Hl3 & Hs3).
  destruct (operandsSetTo_lookup_fwd _ _ _ _ _ Hrel Hl3) as (loop' & Hl' & Hs').
  assert (opRegions loop' = opRegions loop) as Hregions.
  { unfold opStatic in Hs3, Hs'. injection Hs3 as _ _ _ E3 _.
    injection Hs' as _ _ _ E' _. congruence. }
  assert (bodyBlock = bb) as ->.
  { unfold bodyOf in Hb3. rewrite Hl3 in Hb3. simpl in Hb3.
    unfold opStatic in Hs3. injection Hs3 as _ _ _ E3 _. rewrite E3, Hr in Hb3.
    simpl in Hb3. congruence. }
  assert (isa g' loopOp ONNXLoopOp = true) as Hloop'.
  { rewrite (operandsSetTo_isa _ _ _ _ _ Hrel), (operandsSetTo_isa _ _ _ _ _ Hrel3).
    apply isa_Some. apply isa_Some in Hloop as (op & Hop & Hn).
    exists op. split; [by apply Hops|done]. }
  (* Its maximum trip count is the new value or the block argument. *)
  assert (getOperand g3 loopOp 0 = Some newV) as Hmax3.
  { apply Hrepl. unfold getOperand in *.
    destruct (irOps g !! loopOp) as [op|] eqn:E; [|discriminate].
    by rewrite (Hops _ _ E). }
  assert (∃ v b, getOperand g' loopOp 0 = Some v
                 ∧ isDefinedByIntegerConstantOp g' v = Some b) as (v & b & Hmax' & Hb).
  { pose proof Hrel as [_ Hall]. specialize (Hall loopOp).
    unfold getOperand in Hmax3 |- *. rewrite Hl3 in Hmax3, Hall. rewrite Hl' in Hall |- *.
    simpl in *. destruct Hall as [_ Hall]. destruct (Hall 0) as [E|[_ E]].
    - destruct Hnew as [b Hb]. exists newV, b. split; [congruence|].
      rewrite (operandsSetTo_isDefinedByIntegerConstantOp _ _ _ _ Hrel).
      by rewrite (operandsSetTo_isDefinedByIntegerConstantOp _ _ _ _ Hrel3).
    - exists (BlockArgument bb 1), false. done. }
  (* The second run. *)
  unfold LoopOpRewriteMaxTripCountPattern.
  rewrite (bind_Ok _ _ _ _ _ (castOp_Ok _ _ _ Hloop')).
  assert (setInsertionPoint g' loopOp
          = Some {| ipBlock := opBlock loop'; ipBefore := Some loopOp |}) as Hip.
  { unfold setInsertionPoint. by rewrite Hl'. }
  rewrite (bind_Ok _ _ _ _ _ (getsSome_Ok _ _ _ Hip)).
  rewrite (bind_Ok _ _ _ _ _ (getsSome_Ok _ _ _ Hmax')).
  assert (matchIdiom {| ipBlock := opBlock loop'; ipBefore := Some loopOp |} loopOp g'
          = Ok None g') as Hidiom.
  { unfold matchIdiom.
    rewrite (bind_Ok _ _ _ _ _ (getsSome_Ok _ _ _ Hmax')).
    rewrite (bind_Ok _ _ _ _ _ (getsSome_Ok _ _ _ Hb)).
    destruct b; [|done]. simpl.
    rewrite (bind_Ok _ _ _ _ _ (getOp_Ok _ _ _ Hl')).
    rewrite Hregions, Hr. simpl. unfold bind at 1, ret at 1.
    assert (getTerminator g' bb = Some terminator) as Ht'.
    { destruct Hrel as [Hblocks _]. unfold getTerminator. by rewrite Hblocks. }
    rewrite (bind_Ok _ _ _ _ _ (getsSome_Ok _ _ _ Ht')).
    unfold bind at 1, gets at 1.
    destruct (isa g' terminator ONNXReturnOp); [|done]. simpl.
    rewrite (bind_Ok _ _ _ _ _
               (getsSome_Ok _ _ _ (setOperand_getOperand _ _ _ _ _ Hset))).
    done. }
  assert (matchOp {| ipBlock := opBlock loop'; ipBefore := Some loopOp |} loopOp g'
          = Ok (false, v) g') as Hmatch.
  { unfold matchOp.
    rewrite (bind_Ok _ _ _ _ _ (getsSome_Ok _ _ _ Hmax')).
    by rewrite (bind_Ok _ _ _ _ _ Hidiom). }
  by rewrite (bind_Ok _ _ _ _ _ Hmatch).
Qed.

Lemma LoopOpRewriteMaxTripCountPattern_fires_once_witness :
  LoopOpRewriteMaxTripCountPattern 4
    (graphAfter (LoopOpRewriteMaxTripCountPattern 4) commentLoop)
  = Ok failure (graphAfter (LoopOpRewriteMaxTripCountPattern 4) commentLoop)
  ∧ LoopOpRewriteMaxTripCountPattern 4
      (graphAfter (LoopOpRewriteMaxTripCountPattern 4) loopGraphDynamic)
    = Ok failure (graphAfter (LoopOpRewriteMaxTripCountPattern 4) loopGraphDynamic).
Proof.
  split.
  - apply (LoopOpRewriteMaxTripCountPattern_fires_once commentLoop).
    vm_compute. reflexivity.
  - apply (LoopOpRewriteMaxTripCountPattern_fires_once loopGraphDynamic).
    vm_compute. reflexivity.
Defined.

Lemma matchIdiom_grows ip loopOp g r g1 :
  matchIdiom ip loopOp g = Ok r g1 -> grows (ipBlock ip) g g1.
Proof.
  unfold matchIdiom. intros H. minvs; try apply grows_refl.
  eapply grows_trans; by eapply hoistBound_grows.
Qed.

Lemma matchOp_grows ip loopOp g r g2 :
  matchOp ip loopOp g = Ok r g2 -> grows (ipBlock ip) g g2.
Proof.
  unfold matchOp. intros H.
  apply bind_Ok_inv in H as (maxV & g0 & H0 & H).
  apply getsSome_Ok_inv in H0 as [_ ->].
  apply bind_Ok_inv in H as (idiom & g1 & Hidiom & H).
  apply matchIdiom_grows in Hidiom.
  destruct idiom as [b|].
  - apply bind_Ok_inv in H as (constants & g1' & Hc & H).
    apply getsSome_Ok_inv in Hc as [_ ->].
    eapply grows_trans; [done|].
    destruct constants; [by eapply resolveConstant_grows | by eapply resolveDynamic_grows].
  - by apply ret_Ok_inv in H as [_ <-].
Qed.

(** X2: when [LoopOpRewriteMaxTripCountPattern] declines, every operation
    of the graph is as it was, and so is every block but the one of the
    loop, which keeps its arguments: the pattern has at most created
    operations in front of the loop (the bounds it had hoisted before it
    declined). *)
Theorem LoopOpRewriteMaxTripCountPattern_declines (g g' : IR) (loopOp : OpId) :
  LoopOpRewriteMaxTripCountPattern loopOp g = Ok failure g' ->
  ∃ loop, irOps g !! loopOp = Some loop ∧ opName loop = ONNXLoopOp
          ∧ grows (opBlock loop) g g'.
Proof.
  unfold LoopOpRewriteMaxTripCountPattern. intros H.
  apply bind_Ok_inv in H as ([] & g0 & H0 & H). apply castOp_Ok_inv in H0 as [Hloop ->].
  apply bind_Ok_inv in H as (ip & g0 & H0 & H). apply getsSome_Ok_inv in H0 as [Hip ->].
  apply bind_Ok_inv in H as (maxV & g0 & H0 & H). apply getsSome_Ok_inv in H0 as [_ ->].
  apply bind_Ok_inv in H as ([matched newV] & g2 & Hmatch & H).
  apply isa_Some in Hloop as (loop & Hl & Hn). exists loop. split_and!; [done..|].
  unfold setInsertionPoint in Hip. rewrite Hl in Hip. injection Hip as <-.
  apply matchOp_grows in Hmatch. destruct matched; simpl in H.
  - by apply rewriteLoop_inv in H as [? _].
  - by apply ret_Ok_inv in H as [_ <-].
Qed.

Lemma LoopOpRewriteMaxTripCountPattern_declines_witness :
  ∃ loop, irOps (loopGraph 9223372036854775807 100 100 1) !! 4 = Some loop
          ∧ opName loop = ONNXLoopOp
          ∧ grows (opBlock loop) (loopGraph 9223372036854775807 100 100 1)
              (graphAfter (LoopOpRewriteMaxTripCountPattern 4)
                 (loopGraph 9223372036854775807 100 100 1)).
Proof.
  apply (LoopOpRewriteMaxTripCountPattern_declines
           (loopGraph 9223372036854775807 100 100 1)).
  vm_compute. reflexivity.
Defined.

Open Scope Z_scope.

(* ================================================================== *)
(** ** 64-bit arithmetic *)
(* ================================================================== *)

Lemma wrap64_range z : - 2 ^ 63 <= wrap64 z < 2 ^ 63.
Proof. unfold wrap64. pose proof (Z.mod_pos_bound (z + 2 ^ 63) (2 ^ 64)). lia. Qed.

Lemma wrap64_id z : - 2 ^ 63 <= z < 2 ^ 63 -> wrap64 z = z.
Proof. intros Hz. unfold wrap64. rewrite Z.mod_small; lia. Qed.

Lemma wrap64_shift z k : wrap64 (z + 2 ^ 64 * k) = wrap64 z.
Proof.
  unfold wrap64. replace (z + 2 ^ 64 * k + 2 ^ 63) with (z + 2 ^ 63 + k * 2 ^ 64) by ring.
  by rewrite Z.mod_add.
Qed.

Lemma wrap64_spec z : ∃ k, wrap64 z = z + 2 ^ 64 * k.
Proof.
  exists (- ((z + 2 ^ 63) / 2 ^ 64)). unfold wrap64.
  pose proof (Z.div_mod (z + 2 ^ 63) (2 ^ 64)). lia.
Qed.

Lemma wrap64_idemp z : wrap64 (wrap64 z) = wrap64 z.
Proof. apply wrap64_id, wrap64_range. Qed.

(** Two integers that differ by a multiple of [2 ^ 64] wrap to the same
    number. *)
Lemma wrap64_eq a b k : a = b + 2 ^ 64 * k -> wrap64 a = wrap64 b.
Proof. intros ->. apply wrap64_shift. Qed.

Lemma add64_wrap_l a b : add64 (wrap64 a) b = wrap64 (a + b).
Proof.
  unfold add64. destruct (wrap64_spec a) as [k ->].
  apply (wrap64_eq _ _ k). ring.
Qed.

Lemma add64_wrap_r a b : add64 a (wrap64 b) = wrap64 (a + b).
Proof.
  unfold add64. destruct (wrap64_spec b) as [k ->].
  apply (wrap64_eq _ _ k). ring.
Qed.

(* ================================================================== *)
(** ** Arrays *)
(* ================================================================== *)

Lemma nth64_Some {A} (l : list A) i x :
  nth64 l i = Some x ↔ 0 <= i ∧ l !! Z.to_nat i = Some x.
Proof.
  unfold nth64. destruct (0 <=? i) eqn:Hi.
  - apply Z.leb_le in Hi. split; [by intros ->|by intros [_ ->]].
  - apply Z.leb_gt in Hi. split; [done|]. intros [? _]. lia.
Qed.

Lemma nth64_of_nat {A} (l : list A) (i : nat) : nth64 l (Z.of_nat i) = l !! i.
Proof.
  unfold nth64. destruct (0 <=? Z.of_nat i) eqn:Hi.
  - by rewrite Nat2Z.id.
  - apply Z.leb_gt in Hi. lia.
Qed.

(* ================================================================== *)
(** ** Pads and strides of the generated Conv *)
(* ================================================================== *)

Lemma dilatedKernel_Some kernel dilation :
  (length kernel <= length dilation)%nat ->
  ∃ newKernel, dilatedKernel kernel dilation = Some newKernel
    ∧ length newKernel = length kernel
    ∧ ∀ i k d, kernel !! i = Some k -> dilation !! i = Some d ->
               newKernel !! i = Some (wrap64 ((k - 1) * d + 1)).
Proof.
  intros Hlen. unfold dilatedKernel.
  destruct (mapM _ _) as [newKernel|] eqn:Hm.
  - exists newKernel. split; [done|].
    pose proof (length_mapM _ _ _ Hm) as Hl. rewrite length_seq in Hl.
    split; [done|]. intros i k d Hk Hd.
    apply mapM_Some_1 in Hm.
    pose proof (lookup_lt_Some _ _ _ Hk) as Hi.
    destruct (Forall2_lookup_l _ _ _ i i Hm) as (y & Hy & Hf).
    { by apply lookup_seq_lt. }
    rewrite Hy. f_equal. unfold ArrayAttrIntVal in Hf. rewrite Hk, Hd in Hf.
    simpl in Hf. injection Hf as <-.
    unfold add64, mul64, sub64.
    destruct (wrap64_spec (k - 1)) as [a ->].
    destruct (wrap64_spec (d - 1)) as [b ->].
    destruct (wrap64_spec ((k - 1 + 2 ^ 64 * a) * (d - 1 + 2 ^ 64 * b))) as [c ->].
    apply (wrap64_eq _ _ (a * (d - 1) + b * (k - 1) + 2 ^ 64 * a * b + c)). ring.
  - apply mapM_None_1, Exists_exists in Hm as (i & Hi & Hf).
    apply elem_of_seq in Hi. unfold ArrayAttrIntVal in Hf.
    destruct (lookup_lt_is_Some_2 kernel i) as [k Hk]; [lia|].
    destruct (lookup_lt_is_Some_2 dilation i) as [d Hd]; [lia|].
    by rewrite Hk, Hd in Hf.
Qed.

Lemma dilatedKernel_None kernel dilation :
  (length dilation < length kernel)%nat -> dilatedKernel kernel dilation = None.
Proof.
  intros Hlen. unfold dilatedKernel. apply mapM_None_2, Exists_exists.
  exists (length dilation). split; [apply elem_of_seq; lia|].
  unfold ArrayAttrIntVal.
  destruct (kernel !! length dilation); simpl; [|done].
  by rewrite (lookup_ge_None_2 dilation).
Qed.

(** The pads are computed when the arrays are long enough, one entry per
    entry of [pads] read, each [(k - 1) * d - p] for the kernel size [k]
    and the dilation [d] of its axis. *)
Lemma getPadsConvTranspose_Some kernel pads dilation :
  (length kernel <= length dilation)%nat ->
  (length kernel * 2 <= length pads)%nat ->
  ∃ newPads, getPadsConvTranspose kernel pads dilation = Some newPads
    ∧ length newPads = (length kernel * 2)%nat
    ∧ ∀ i k d p, kernel !! (i mod length kernel)%nat = Some k ->
                 dilation !! (i mod length kernel)%nat = Some d ->
                 pads !! i = Some p -> (i < length kernel * 2)%nat ->
                 newPads !! i = Some (wrap64 ((k - 1) * d - p)).
Proof.
  intros Hd Hp. unfold getPadsConvTranspose.
  destruct (dilatedKernel_Some kernel dilation Hd) as (newKernel & -> & Hl & Hnk).
  simpl. destruct (mapM _ _) as [newPads|] eqn:Hm.
  - exists newPads. split; [done|].
    pose proof (length_mapM _ _ _ Hm) as Hlen. rewrite length_seq in Hlen.
    split; [done|]. intros i k d p Hk Hdi Hpi Hi.
    apply mapM_Some_1 in Hm.
    destruct (Forall2_lookup_l _ _ _ i i Hm) as (y & Hy & Hf).
    { by apply lookup_seq_lt. }
    rewrite Hy. f_equal. unfold ArrayAttrIntVal in Hf.
    rewrite (Hnk _ _ _ Hk Hdi), Hpi in Hf. simpl in Hf. injection Hf as <-.
    unfold sub64.
    destruct (wrap64_spec ((k - 1) * d + 1)) as [a ->].
    destruct (wrap64_spec ((k - 1) * d + 1 + 2 ^ 64 * a - p)) as [b ->].
    apply (wrap64_eq _ _ (a + b)). ring.
  - apply mapM_None_1, Exists_exists in Hm as (i & Hi & Hf).
    apply elem_of_seq in Hi. unfold ArrayAttrIntVal in Hf.
    assert (length kernel ≠ 0)%nat as Hne by lia.
    destruct (lookup_lt_is_Some_2 newKernel (i mod length kernel)%nat) as [k Hk].
    { rewrite Hl. by apply Nat.mod_upper_bound. }
    destruct (lookup_lt_is_Some_2 pads i) as [p Hpi]; [lia|].
    by rewrite Hk, Hpi in Hf.
Qed.

Lemma getPadsConvTranspose_None kernel pads dilation :
  kernel ≠ [] ->
  (length dilation < length kernel ∨ length pads < length kernel * 2)%nat ->
  getPadsConvTranspose kernel pads dilation = None.
Proof.
  intros Hne Hshort. unfold getPadsConvTranspose.
  destruct (decide (length dilation < length kernel)%nat) as [Hd|Hd].
  { by rewrite dilatedKernel_None. }
  destruct Hshort as [?|Hp]; [done|].
  destruct (dilatedKernel_Some kernel dilation) as (newKernel & -> & Hl & _); [lia|].
  simpl. apply mapM_None_2, Exists_exists.
  exists (length pads). split; [apply elem_of_seq; lia|].
  unfold ArrayAttrIntVal.
  destruct (newKernel !! _); simpl; [|done].
  by rewrite (lookup_ge_None_2 pads).
Qed.

Lemma getPadsConvTranspose_involutive_at kernel dilation newKernel pads newPads :
  dilatedKernel kernel dilation = Some newKernel ->
  Forall (fun p => - 2 ^ 63 <= p < 2 ^ 63) pads ->
  length pads = (length kernel * 2)%nat ->
  getPadsConvTranspose kernel pads dilation = Some newPads ->
  getPadsConvTranspose kernel newPads dilation = Some pads.
Proof.
  intros Hnk Hrange Hlen. unfold getPadsConvTranspose. rewrite Hnk. simpl.
  intros Hm. apply mapM_Some_1 in Hm. apply mapM_Some_2.
  assert (length newPads = length pads) as Hlen'.
  { apply Forall2_length in Hm. rewrite length_seq in Hm. lia. }
  apply Forall2_same_length_lookup_2.
  { rewrite length_seq. lia. }
  intros i j p Hj Hp. apply lookup_seq in Hj as [-> Hi]. simpl.
  destruct (Forall2_lookup_l _ _ _ i i Hm) as (q & Hq & Hf).
  { by apply lookup_seq_lt. }
  unfold ArrayAttrIntVal in *. rewrite Hp in Hf.
  destruct (newKernel !! _) as [k|]; [|done]. simpl in *.
  injection Hf as <-. rewrite Hq. simpl. f_equal.
  rewrite <- (wrap64_id p) at 2.
  2:{ by apply (Forall_lookup_1 _ _ _ _ Hrange Hp). }
  unfold sub64.
  destruct (wrap64_spec (k - p)) as [a ->].
  destruct (wrap64_spec (k - p + 2 ^ 64 * a - 1)) as [b ->].
  destruct (wrap64_spec (k - (k - p + 2 ^ 64 * a - 1 + 2 ^ 64 * b))) as [c ->].
  apply (wrap64_eq _ _ (c - a - b)). ring.
Qed.

Lemma hasUnitStrides_spec strides :
  hasUnitStrides strides = true ↔ Forall (fun s => s = 1) strides.
Proof.
  unfold hasUnitStrides. induction strides as [|s l IH]; simpl.
  - split; [by constructor|done].
  - rewrite andb_true_iff, Forall_cons, Z.eqb_eq, IH. done.
Qed.

Lemma createUnitStrides_fixed strides :
  createUnitStrides strides = strides ↔ Forall (fun s => s = 1) strides.
Proof.
  unfold createUnitStrides. induction strides as [|s l IH]; simpl.
  - split; [by constructor|done].
  - rewrite Forall_cons. split.
    + intros [= <- Hl]. split; [done|]. by apply IH.
    + intros [-> Hl]. f_equal. by apply IH.
Qed.

Lemma getIndexOfAxisInPerm_Some permAttr axis i :
  getIndexOfAxisInPerm permAttr axis = Some i ->
  nth64 permAttr i = Some axis
  ∧ ∀ j, 0 <= j < i -> nth64 permAttr j ≠ Some axis.
Proof.
  unfold getIndexOfAxisInPerm. intros Hf.
  apply fmap_Some in Hf as ([n x] & Hfind & ->). simpl.
  apply list_find_Some in Hfind as (Hn & -> & Hfirst).
  split; [by rewrite nth64_of_nat|].
  intros j Hj Hjx. apply nth64_Some in Hjx as [_ Hjx].
  apply (Hfirst (Z.to_nat j) axis); [done|lia|done].
Qed.

Lemma getIndexOfAxisInPerm_None permAttr axis :
  getIndexOfAxisInPerm permAttr axis = None ↔ axis ∉ permAttr.
Proof.
  unfold getIndexOfAxisInPerm. rewrite fmap_None, list_find_None, Forall_forall.
  split.
  - intros H Hin. by apply (H axis).
  - intros H x Hx ->. done.
Qed.

Lemma getIndexOfAxisInPerm_NoDup permAttr axis (i : nat) :
  NoDup permAttr -> permAttr !! i = Some axis ->
  getIndexOfAxisInPerm permAttr axis = Some (Z.of_nat i).
Proof.
  intros Hnd Hi. unfold getIndexOfAxisInPerm.
  destruct (list_find _ _) as [[n x]|] eqn:Hfind; simpl.
  - apply list_find_Some in Hfind as (Hn & -> & _).
    by rewrite (NoDup_lookup _ _ _ _ Hnd Hn Hi).
  - apply list_find_None in Hfind.
    by destruct (Forall_lookup_1 _ _ _ _ Hfind Hi).
Qed.

(** X3: [getPadsConvTranspose] fails exactly when the kernel is not empty
    and [dilation] has fewer entries than the kernel or [pads] fewer than
    twice as many; otherwise it yields twice as many pads as the kernel
    has entries, pad [i] being [(k - 1) * d - pads[i]] in 64-bit arithmetic
    for the kernel size [k] and the dilation [d] of axis
    [i mod kernel.size()]. *)
Theorem getPadsConvTranspose_entries (kernel pads dilation : list Z) :
  (kernel ≠ [] ->
   (length dilation < length kernel ∨ length pads < length kernel * 2)%nat ->
   getPadsConvTranspose kernel pads dilation = None)
  ∧ ((length kernel <= length dilation)%nat ->
     (length kernel * 2 <= length pads)%nat ->
     ∃ newPads, getPadsConvTranspose kernel pads dilation = Some newPads
       ∧ length newPads = (length kernel * 2)%nat
       ∧ ∀ i k d p, kernel !! (i mod length kernel)%nat = Some k ->
                    dilation !! (i mod length kernel)%nat = Some d ->
                    pads !! i = Some p -> (i < length kernel * 2)%nat ->
                    newPads !! i = Some (wrap64 ((k - 1) * d - p))).
Proof.
  split.
  - apply getPadsConvTranspose_None.
  - apply getPadsConvTranspose_Some.
Qed.

Lemma getPadsConvTranspose_entries_witness :
  ∃ newPads, getPadsConvTranspose [2; 3] [0; 1; 0; 1] [2; 2] = Some newPads
    ∧ length newPads = 4%nat
    ∧ ∀ i k d p, [2; 3] !! (i mod 2)%nat = Some k ->
                 [2; 2] !! (i mod 2)%nat = Some d ->
                 [0; 1; 0; 1] !! i = Some p -> (i < 4)%nat ->
                 newPads !! i = Some (wrap64 ((k - 1) * d - p)).
Proof.
  apply (proj2 (getPadsConvTranspose_entries [2; 3] [0; 1; 0; 1] [2; 2])); simpl; lia.
Defined.

(** X4: for a fixed kernel and dilation, [getPadsConvTranspose] is its own
    inverse on pads of 64-bit range: the pads computed from the computed
    pads are the given ones. *)
Theorem getPadsConvTranspose_involutive (kernel pads dilation newPads : list Z) :
  Forall (fun p => - 2 ^ 63 <= p < 2 ^ 63) pads ->
  length pads = (length kernel * 2)%nat ->
  getPadsConvTranspose kernel pads dilation = Some newPads ->
  getPadsConvTranspose kernel newPads dilation = Some pads.
Proof.
  intros Hrange Hlen Hrun.
  destruct (dilatedKernel kernel dilation) as [newKernel|] eqn:Hnk.
  - by apply (getPadsConvTranspose_involutive_at _ _ newKernel _ _ Hnk Hrange Hlen).
  - unfold getPadsConvTranspose in Hrun. by rewrite Hnk in Hrun.
Qed.

Lemma getPadsConvTranspose_involutive_witness :
  getPadsConvTranspose [2; 3] [2; 3; 2; 2] [2; 2] = Some [0; 1; 0; 2].
Proof.
  apply (getPadsConvTranspose_involutive [2; 3] [0; 1; 0; 2] [2; 2] [2; 3; 2; 2]).
  - repeat constructor; lia.
  - reflexivity.
  - reflexivity.
Defined.

Lemma wrap64_0 : wrap64 0 = 0.
Proof. reflexivity. Qed.

Lemma dilated_unit k : add64 k (mul64 (sub64 k 1) (sub64 1 1)) = wrap64 k.
Proof.
  unfold add64, mul64, sub64. change (1 - 1) with 0. rewrite wrap64_0, Z.mul_0_r, wrap64_0.
  by rewrite Z.add_0_r.
Qed.

Lemma pad_unit k : sub64 (sub64 (wrap64 k) 0) 1 = wrap64 (k - 1).
Proof.
  unfold sub64. rewrite Z.sub_0_r, wrap64_idemp.
  destruct (wrap64_spec k) as [a ->]. apply (wrap64_eq _ _ a). ring.
Qed.

(** X5: [getPadsConvTranspose2D] agrees with [getPadsConvTranspose] on a
    kernel of two entries; on a kernel of one entry it fails (it reads
    [newKernel[1]]); on a kernel of three entries it takes the kernel size
    of axis [i mod 2], so that pad 2 comes from [kernel[0]] where
    [getPadsConvTranspose] takes [kernel[2]]. *)
Theorem getPadsConvTranspose2D_two_axes :
  (∀ k0 k1 pads dilation,
     getPadsConvTranspose2D [k0; k1] pads dilation
     = getPadsConvTranspose [k0; k1] pads dilation)
  ∧ (∀ k0 pads dilation, getPadsConvTranspose2D [k0] pads dilation = None)
  ∧ (∀ k0 k1 k2,
       getPadsConvTranspose2D [k0; k1; k2] [0; 0; 0; 0; 0; 0] [1; 1; 1]
       = Some [wrap64 (k0 - 1); wrap64 (k1 - 1); wrap64 (k0 - 1);
               wrap64 (k1 - 1); wrap64 (k0 - 1); wrap64 (k1 - 1)]
       ∧ getPadsConvTranspose [k0; k1; k2] [0; 0; 0; 0; 0; 0] [1; 1; 1]
         = Some [wrap64 (k0 - 1); wrap64 (k1 - 1); wrap64 (k2 - 1);
                 wrap64 (k0 - 1); wrap64 (k1 - 1); wrap64 (k2 - 1)]).
Proof.
  split; [done|]. split.
  - intros k0 pads dilation. unfold getPadsConvTranspose2D, dilatedKernel.
    simpl. unfold ArrayAttrIntVal. simpl.
    destruct (dilation !! 0%nat) as [d|]; [|done]. simpl.
    destruct (pads !! 0%nat) as [p|]; done.
  - intros k0 k1 k2.
    unfold getPadsConvTranspose2D, getPadsConvTranspose, dilatedKernel, ArrayAttrIntVal.
    cbn [length seq mapM mbind option_bind lookup list_lookup mret option_ret
         Nat.mul Nat.add Nat.modulo Nat.divmod fst snd Nat.sub].
    by rewrite !dilated_unit, !pad_unit.
Qed.

(** X6: [createUnitStrides] keeps the number of strides and yields strides
    that [hasUnitStrides] accepts; [hasUnitStrides] accepts exactly the
    strides that [createUnitStrides] leaves as they are. *)
Theorem unit_strides (strides : list Z) :
  length (createUnitStrides strides) = length strides
  ∧ hasUnitStrides (createUnitStrides strides) = true
  ∧ (hasUnitStrides strides = true ↔ createUnitStrides strides = strides).
Proof.
  split; [apply length_fmap|]. split.
  - apply hasUnitStrides_spec. unfold createUnitStrides.
    apply Forall_fmap, Forall_true. done.
  - rewrite hasUnitStrides_spec. symmetry. apply createUnitStrides_fixed.
Qed.

(** X7: on a permutation array without repeated entries,
    [getIndexOfAxisInPerm] inverts the array: it returns index [i] for an
    axis exactly when entry [i] is that axis, and the null attribute exactly
    when the axis does not occur. *)
Theorem getIndexOfAxisInPerm_inverse (permAttr : list Z) (axis : Z) :
  NoDup permAttr ->
  (∀ i, getIndexOfAxisInPerm permAttr axis = Some i ↔ nth64 permAttr i = Some axis)
  ∧ (getIndexOfAxisInPerm permAttr axis = None ↔ axis ∉ permAttr).
Proof.
  intros Hnd. split; [|apply getIndexOfAxisInPerm_None].
  intros i. split.
  - intros H. by apply getIndexOfAxisInPerm_Some in H as [H _].
  - intros H. apply nth64_Some in H as [Hi H].
    rewrite (getIndexOfAxisInPerm_NoDup _ _ _ Hnd H). f_equal. lia.
Qed.

Lemma getIndexOfAxisInPerm_inverse_witness :
  (∀ i, getIndexOfAxisInPerm [2; 0; 1] 1 = Some i ↔ nth64 [2; 0; 1] i = Some 1)
  ∧ (getIndexOfAxisInPerm [2; 0; 1] 1 = None ↔ 1 ∉ [2; 0; 1]).
Proof.
  apply (getIndexOfAxisInPerm_inverse [2; 0; 1] 1).
  apply (bool_decide_unpack _). vm_compute. reflexivity.
Defined.

(* ================================================================== *)
(** ** Transposition and reversal of the weight tensor *)
(* ================================================================== *)

Lemma emitBind_Some {A B} (c : Emit A) (k : A -> Emit B) created a created1 :
  c created = Some (a, created1) -> emitBind c k created = k a created1.
Proof. unfold emitBind. by intros ->. Qed.

Lemma emitBind_assoc {A B C} (c : Emit A) (k1 : A -> Emit B) (k2 : B -> Emit C) created :
  emitBind (emitBind c k1) k2 created
  = emitBind c (fun a => emitBind (k1 a) k2) created.
Proof. unfold emitBind. by destruct (c created) as [[a created1]|]. Qed.

Lemma emitBind_ret_l {A B} (a : A) (k : A -> Emit B) created :
  emitBind (emitRet a) k created = k a created.
Proof. reflexivity. Qed.

Lemma emitBind_assert_Some {A B} (a : A) (k : A -> Emit B) created :
  emitBind (emitAssert (Some a)) k created = k a created.
Proof. reflexivity. Qed.

Lemma emitAssert_Some {A} (o : option A) a created :
  o = Some a -> emitAssert o created = Some (a, created).
Proof. by intros ->. Qed.

Lemma create1_run op operands t created :
  create1 op operands t created
  = Some (mkTValue (Made (length created) 0) t, created ++ [mkCreated op operands [t]]).
Proof. reflexivity. Qed.

Lemma emitONNXTranspose_run x perms shape e transposed created :
  typeOf x = RankedTensorType shape e ->
  length shape = length perms ->
  mapM (nth64 shape) perms = Some transposed ->
  emitONNXTranspose x perms created
  = Some (mkTValue (Made (length created) 0) (RankedTensorType transposed e),
          created ++ [mkCreated (OnnxTranspose perms) [x]
                                [RankedTensorType transposed e]]).
Proof.
  intros Ht Hlen Hm. unfold emitONNXTranspose. rewrite Ht.
  destruct (decide _) as [_|]; [|done].
  by rewrite (emitBind_Some _ _ _ _ _ (emitAssert_Some _ _ _ Hm)).
Qed.

Lemma reverseAllElements_run input dimension shape e n len created :
  typeOf input = RankedTensorType shape e ->
  dimension = 0 ∨ dimension = 1 ->
  nth64 shape (1 - dimension) = Some n ->
  nth64 shape dimension = Some len ->
  n <= INT_MAX ->
  reverseAllElements input dimension created
  = Some (mkTValue (Made (S (length created)) 0) (RankedTensorType shape e),
          created ++
            [mkCreated (OnnxConstantInt64 (replicate (Z.to_nat n) len)) []
               [RankedTensorType [Z.of_nat (Z.to_nat n)] (IntegerType 64)];
             mkCreated (OnnxReverseSequence (1 - dimension) dimension)
               [input;
                mkTValue (Made (length created) 0)
                  (RankedTensorType [Z.of_nat (Z.to_nat n)] (IntegerType 64))]
               [RankedTensorType shape e]]).
Proof.
  intros Ht Hdim Hn Hlen Hmax. unfold reverseAllElements.
  rewrite Ht. simpl getShape. unfold emitBind at 1. simpl.
  assert ((if dimension =? 0 then 1 else 0) = 1 - dimension) as ->.
  { by destruct Hdim as [-> | ->]. }
  assert ((if dimension =? 0 then 0 else 1) = dimension) as ->.
  { by destruct Hdim as [-> | ->]. }
  assert (negb ((dimension =? 0) || (dimension =? 1)) = false) as ->.
  { by destruct Hdim as [-> | ->]. }
  rewrite Hn. unfold emitBind at 1. simpl.
  unfold intCount. destruct (n <=? INT_MAX) eqn:Hle; [|apply Z.leb_gt in Hle; lia].
  unfold emitBind at 1. simpl.
  assert (match Z.to_nat n with
          | O => Some []
          | S _ => len0 ← nth64 shape dimension; Some (replicate (Z.to_nat n) len0)
          end = Some (replicate (Z.to_nat n) len)) as ->.
  { rewrite Hlen. by destruct (Z.to_nat n). }
  unfold emitBind at 1. simpl.
  unfold emitONNXReverseSequence, constantInt64.
  rewrite (emitBind_Some _ _ _ _ _ (create1_run _ _ _ _)).
  rewrite Ht. simpl. rewrite create1_run.
  rewrite length_replicate, length_app. simpl.
  replace (length created + 1)%nat with (S (length created)) by lia.
  by rewrite <- app_assoc.
Qed.

Lemma reversedIndex_full n len batchAxis timeAxis idx b t :
  nth64 idx batchAxis = Some b ->
  nth64 idx timeAxis = Some t ->
  0 <= b < n -> 0 <= t < len ->
  reversedIndex (replicate (Z.to_nat n) len) batchAxis timeAxis idx
  = Some (<[Z.to_nat timeAxis := len - 1 - t]> idx).
Proof.
  intros Hb Ht Hbn Htl. unfold reversedIndex. rewrite Hb, Ht. simpl.
  assert (nth64 (replicate (Z.to_nat n) len) b = Some len) as ->.
  { apply nth64_Some. split; [lia|]. apply lookup_replicate_2. lia. }
  simpl. destruct (t <? len) eqn:Hlt; [done|]. apply Z.ltb_ge in Hlt. lia.
Qed.

#[local] Arguments reversedIndex : simpl never.
#[local] Arguments emitBind : simpl never.
#[local] Arguments emitRet : simpl never.
#[local] Arguments reverseOneAndRotate : simpl never.
#[local] Arguments transposedIndex : simpl never.
#[local] Arguments emitONNXTranspose : simpl never.
#[local] Arguments reverseAllElements : simpl never.

Ltac eval_seqZ :=
  repeat match goal with
         | |- context [seqZ ?a ?b] =>
             let r := eval vm_compute in (seqZ a b) in change (seqZ a b) with r
         end.

Ltac eval_closed :=
  repeat match goal with
         | |- context [emitRepeat ?n] =>
             lazymatch n with
             | O => fail
             | S _ => fail
             | _ => let r := eval vm_compute in n in change n with r
             end
         | |- context [negb ?b] =>
             let r := eval vm_compute in (negb b) in change (negb b) with r
         | |- context [Z.of_nat ?n] =>
             let r := eval vm_compute in (Z.of_nat n) in change (Z.of_nat n) with r
         | |- context [Z.eqb ?a ?b] =>
             let r := eval vm_compute in (Z.eqb a b) in
             lazymatch r with
             | true => change (Z.eqb a b) with true
             | false => change (Z.eqb a b) with false
             end
         end.

Ltac run_transpose :=
  first
    [ erewrite emitBind_Some;
      [|eapply emitONNXTranspose_run; [reflexivity|reflexivity|lazy; reflexivity]]
    | erewrite emitONNXTranspose_run; [|reflexivity|reflexivity|lazy; reflexivity] ].

Ltac run_reverse :=
  erewrite emitBind_Some;
  [|eapply reverseAllElements_run;
    [reflexivity|by (left + right)|lazy; reflexivity|lazy; reflexivity|lia]].

Ltac hide_elems l :=
  lazymatch l with
  | ?x :: ?r =>
      tryif is_var x then hide_elems r
      else (let v := fresh "v" in
            let H := fresh "Hv" in
            remember x as v eqn:H; hide_elems r)
  | _ => idtac
  end.

Ltac eval_transposed :=
  match goal with
  | |- context [transposedIndex ?p ?i] => hide_elems i
  end;
  match goal with
  | |- context [transposedIndex ?p ?i] =>
      let r := eval vm_compute in (transposedIndex p i) in
      change (transposedIndex p i) with r
  end;
  repeat match goal with
         | H : ?v = _ |- _ => is_var v; subst v
         end.

Ltac eval_to_nat :=
  repeat match goal with
         | |- context [Z.to_nat (Zpos ?p)] =>
             let r := eval vm_compute in (Z.to_nat (Zpos p)) in
             change (Z.to_nat (Zpos p)) with r
         | |- context [Z.to_nat Z0] => change (Z.to_nat Z0) with O
         end.

Ltac eval_source :=
  change (1 - 0) with 1; change (1 - 1) with 0;
  repeat first
    [ progress eval_transposed; cbn [mbind option_bind]
    | erewrite reversedIndex_full; [|reflexivity|reflexivity|lia|lia];
      eval_to_nat; cbn [mbind option_bind insert list_insert] ].

Ltac run_emit :=
  repeat first [ rewrite emitBind_assoc | rewrite emitBind_ret_l
               | rewrite emitBind_assert_Some
               | run_transpose | run_reverse ].

Lemma reverseOneAndRotate_static {B} rank e t shape second (k : TValue -> Emit B)
    created :
  typeOf t = RankedTensorType shape e ->
  nth64 shape 1 = Some second ->
  second ≠ kDynamic ->
  emitBind (reverseOneAndRotate rank e t) k created
  = emitBind (let+ reverse0 := reverseAllElements t 0 in
              emitONNXTranspose reverse0 (seqZ 1 (rank - 1) ++ [0])) k created.
Proof.
  intros Ht Hs Hne. unfold reverseOneAndRotate.
  rewrite Ht. simpl getShape.
  repeat first [rewrite emitBind_assoc | rewrite emitBind_assert_Some | rewrite Hs].
  destruct (second =? kDynamic) eqn:Heq; [|done].
  by apply Z.eqb_eq in Heq.
Qed.

Ltac run_odd :=
  erewrite reverseOneAndRotate_static;
  [|reflexivity|reflexivity|unfold kDynamic; lia].

Ltac bounds :=
  repeat match goal with
         | H : Forall _ (_ :: _) |- _ => apply Forall_cons in H as [? H]
         | H : Forall2 _ (_ :: _) (_ :: _) |- _ => apply Forall2_cons in H as [? H]
         | H : Forall2 _ (_ :: _) ?l |- _ =>
             is_var l; apply Forall2_cons_inv_l in H as (? & ? & ? & H & ->)
         | H : Forall2 _ [] ?l |- _ => apply Forall2_nil_inv_l in H as ->
         | H : inBounds _ _ |- _ => unfold inBounds in H
         end.

Ltac run_weight :=
  cbn -[INT_MAX]; repeat rewrite emitBind_assert_Some;
  cbn -[INT_MAX]; eval_seqZ; eval_closed;
  simpl emitRepeat; unfold reverseTwoAndRotate; eval_seqZ;
  repeat first [ progress run_emit | run_odd; eval_seqZ
               | progress (eval_closed; cbv iota) ];
  cbn [length app].

Ltac source_weight :=
  unfold sourceOf, denoteAll; cbn; eval_source; try reflexivity.

(** X8: on a weight tensor N x C x D0 x ... with one to three spatial
    dimensions, [reverseWeightTensor] creates a value of type
    C x N x D0 x ... whose element (c, n, d0, ...) is the element
    (n, c, D0 - 1 - d0, ...) of the weight. *)
Theorem reverseWeightTensor_reverses (given : Value) (e : ElementType) (N C : Z)
    (spatial : list Z) :
  (1 <= length spatial <= 3)%nat ->
  Forall (fun d => 0 <= d <= INT_MAX) (N :: C :: spatial) ->
  ∃ result created,
    reverseWeightTensor
      (mkTValue (Given given) (RankedTensorType (N :: C :: spatial) e)) []
    = Some (result, created)
    ∧ typeOf result = RankedTensorType (C :: N :: spatial) e
    ∧ ∀ c n idx, inBounds (C :: N :: spatial) (c :: n :: idx) ->
        sourceOf created result (c :: n :: idx)
        = Some (n :: c :: zip_with (fun d i => d - 1 - i) spatial idx).
Proof.
  intros Hlen Hb.
  destruct spatial as [|D0 [|D1 [|D2 [|]]]]; simpl in Hlen; try lia; bounds.
  - unfold reverseWeightTensor. run_weight.
    do 2 eexists. split; [reflexivity|]. split; [reflexivity|].
    intros c n idx Hin. bounds. source_weight.
  - unfold reverseWeightTensor. run_weight.
    do 2 eexists. split; [reflexivity|]. split; [reflexivity|].
    intros c n idx Hin. bounds. source_weight.
  - unfold reverseWeightTensor. run_weight.
    do 2 eexists. split; [reflexivity|]. split; [reflexivity|].
    intros c n idx Hin. bounds. source_weight.
Qed.

Lemma reverseWeightTensor_reverses_witness :
  ∃ result created,
    reverseWeightTensor
      (mkTValue (Given (BlockArgument 0 0)) (RankedTensorType [2; 3; 5; 7] (FloatType 32))) []
    = Some (result, created)
    ∧ typeOf result = RankedTensorType [3; 2; 5; 7] (FloatType 32)
    ∧ ∀ c n idx, inBounds [3; 2; 5; 7] (c :: n :: idx) ->
        sourceOf created result (c :: n :: idx)
        = Some (n :: c :: zip_with (fun d i => d - 1 - i) [5; 7] idx).
Proof.
  apply (reverseWeightTensor_reverses (BlockArgument 0 0) (FloatType 32) 2 3 [5; 7]).
  - simpl. lia.
  - repeat constructor; unfold INT_MAX; lia.
Defined.

(** X9: with four spatial dimensions the loop of [reverseWeightTensor]
    makes one round only: the result has type D3 x D2 x N x C x D0 x D1, and
    of the spatial dimensions only D0 and D1 are reversed. *)
Theorem reverseWeightTensor_four_spatial (given : Value) (e : ElementType)
    (N C D0 D1 D2 D3 : Z) :
  Forall (fun d => 0 <= d <= INT_MAX) [N; C; D0; D1; D2; D3] ->
  ∃ result created,
    reverseWeightTensor
      (mkTValue (Given given) (RankedTensorType [N; C; D0; D1; D2; D3] e)) []
    = Some (result, created)
    ∧ typeOf result = RankedTensorType [D3; D2; N; C; D0; D1] e
    ∧ ∀ n c d0 d1 d2 d3,
        inBounds [D3; D2; N; C; D0; D1] [d3; d2; n; c; d0; d1] ->
        sourceOf created result [d3; d2; n; c; d0; d1]
        = Some [n; c; D0 - 1 - d0; D1 - 1 - d1; d2; d3].
Proof.
  intros Hb. bounds.
  unfold reverseWeightTensor. run_weight.
  do 2 eexists. split; [reflexivity|]. split; [reflexivity|].
  intros n c d0 d1 d2 d3 Hin. bounds. source_weight.
Qed.

Lemma reverseWeightTensor_four_spatial_witness :
  ∃ result created,
    reverseWeightTensor
      (mkTValue (Given (BlockArgument 0 0))
         (RankedTensorType [2; 3; 5; 7; 11; 13] (FloatType 32))) []
    = Some (result, created)
    ∧ typeOf result = RankedTensorType [13; 11; 2; 3; 5; 7] (FloatType 32)
    ∧ ∀ n c d0 d1 d2 d3,
        inBounds [13; 11; 2; 3; 5; 7] [d3; d2; n; c; d0; d1] ->
        sourceOf created result [d3; d2; n; c; d0; d1]
        = Some [n; c; 5 - 1 - d0; 7 - 1 - d1; d2; d3].
Proof.
  apply (reverseWeightTensor_four_spatial (BlockArgument 0 0) (FloatType 32) 2 3 5 7 11 13).
  repeat constructor; unfold INT_MAX; lia.
Defined.

(** X10: on a weight tensor with two or three spatial dimensions,
    [reverseWeightTensor4D] creates a value of type C x N x D0 x ... whose
    element (c, n, d0, ...) is the element (n, c, D0 - 1 - d0, ...) of the
    weight. *)
Theorem reverseWeightTensor4D_reverses (given : Value) (e : ElementType) (N C : Z)
    (spatial : list Z) :
  (2 <= length spatial <= 3)%nat ->
  Forall (fun d => 0 <= d <= INT_MAX) (N :: C :: spatial) ->
  ∃ result created,
    reverseWeightTensor4D
      (mkTValue (Given given) (RankedTensorType (N :: C :: spatial) e)) []
    = Some (result, created)
    ∧ typeOf result = RankedTensorType (C :: N :: spatial) e
    ∧ ∀ c n idx, inBounds (C :: N :: spatial) (c :: n :: idx) ->
        sourceOf created result (c :: n :: idx)
        = Some (n :: c :: zip_with (fun d i => d - 1 - i) spatial idx).
Proof.
  intros Hlen Hb.
  destruct spatial as [|D0 [|D1 [|D2 [|]]]]; simpl in Hlen; try lia; bounds.
  - unfold reverseWeightTensor4D. run_weight.
    do 2 eexists. split; [reflexivity|]. split; [reflexivity|].
    intros c n idx Hin. bounds. source_weight.
  - unfold reverseWeightTensor4D. run_weight.
    do 2 eexists. split; [reflexivity|]. split; [reflexivity|].
    intros c n idx Hin. bounds. source_weight.
Qed.

Lemma reverseWeightTensor4D_reverses_witness :
  ∃ result created,
    reverseWeightTensor4D
      (mkTValue (Given (BlockArgument 0 0))
         (RankedTensorType [2; 3; 5; 7; 11] (FloatType 32))) []
    = Some (result, created)
    ∧ typeOf result = RankedTensorType [3; 2; 5; 7; 11] (FloatType 32)
    ∧ ∀ c n idx, inBounds [3; 2; 5; 7; 11] (c :: n :: idx) ->
        sourceOf created result (c :: n :: idx)
        = Some (n :: c :: zip_with (fun d i => d - 1 - i) [5; 7; 11] idx).
Proof.
  apply (reverseWeightTensor4D_reverses (BlockArgument 0 0) (FloatType 32) 2 3 [5; 7; 11]).
  - simpl. lia.
  - repeat constructor; unfold INT_MAX; lia.
Defined.

Lemma denoteAll_snoc created c :
  denoteAll (created ++ [c])
  = denoteAll created ++ [denoteCreated (denoteAll created) c].
Proof. unfold denoteAll. by rewrite foldl_app. Qed.

Lemma length_denoteAll created : length (denoteAll created) = length created.
Proof.
  induction created as [|c created IH] using rev_ind; [done|].
  rewrite denoteAll_snoc, !length_app, IH. done.
Qed.

Lemma denoteAll_app created more :
  ∃ tail, denoteAll (created ++ more) = denoteAll created ++ tail.
Proof.
  induction more as [|c more [tail IH]] using rev_ind.
  - exists []. by rewrite !app_nil_r.
  - exists (tail ++ [denoteCreated (denoteAll (created ++ more)) c]).
    by rewrite app_assoc, denoteAll_snoc, IH, app_assoc.
Qed.

Lemma denoteOperand_app created more x d :
  denoteOperand (denoteAll created) x = Some d ->
  denoteOperand (denoteAll (created ++ more)) x = Some d.
Proof.
  unfold denoteOperand. destruct (valueOf x) as [|p [|]]; try done.
  destruct (denoteAll_app created more) as [tail ->].
  destruct (denoteAll created !! p) as [o|] eqn:Hp; [|done].
  by rewrite (lookup_app_l_Some _ _ _ _ Hp).
Qed.

Lemma denoteOperand_last created c d t :
  denoteCreated (denoteAll created) c = Some d ->
  denoteOperand (denoteAll (created ++ [c])) (mkTValue (Made (length created) 0) t)
  = Some d.
Proof.
  intros Hd. unfold denoteOperand. simpl.
  rewrite denoteAll_snoc, lookup_app_r; rewrite length_denoteAll; [|done].
  by rewrite Nat.sub_diag, Hd.
Qed.

Lemma inBounds_nth64 shape idx axis d :
  inBounds shape idx -> nth64 shape axis = Some d ->
  ∃ i, nth64 idx axis = Some i ∧ 0 <= i < d.
Proof.
  intros Hin Hd. apply nth64_Some in Hd as [Haxis Hd].
  destruct (Forall2_lookup_l _ _ _ _ _ Hin Hd) as (i & Hi & Hr).
  exists i. split; [|done]. by apply nth64_Some.
Qed.

(** X11: [reverseAllElements] on dimension 0 or 1 of a ranked tensor creates
    a value of the same type whose element at an index is the element of
    the input with the index of that dimension mirrored. *)
Theorem reverseAllElements_reverses (input : TValue) (dimension : Z)
    (shape : list Z) (e : ElementType) (n len : Z) (created : list Created)
    (source : list Z -> option (list Z)) :
  typeOf input = RankedTensorType shape e ->
  dimension = 0 ∨ dimension = 1 ->
  nth64 shape (1 - dimension) = Some n ->
  nth64 shape dimension = Some len ->
  n <= INT_MAX ->
  denoteOperand (denoteAll created) input = Some (Elements source) ->
  ∃ result created',
    reverseAllElements input dimension created = Some (result, created')
    ∧ typeOf result = typeOf input
    ∧ ∀ idx t, inBounds shape idx -> nth64 idx dimension = Some t ->
        sourceOf created' result idx
        = source (<[Z.to_nat dimension := len - 1 - t]> idx).
Proof.
  intros Ht Hdim Hn Hlen Hmax Hsrc.
  rewrite (reverseAllElements_run _ _ _ _ _ _ _ Ht Hdim Hn Hlen Hmax).
  do 2 eexists. split; [reflexivity|]. split; [by rewrite Ht|].
  intros idx t Hin Hidx.
  destruct (inBounds_nth64 _ _ _ _ Hin Hn) as (b & Hb & Hbn).
  destruct (inBounds_nth64 _ _ _ _ Hin Hlen) as (t' & Ht' & Htl).
  rewrite Hidx in Ht'. injection Ht' as <-.
  unfold sourceOf.
  set (constant := mkCreated (OnnxConstantInt64 _) _ _).
  set (reverse := mkCreated (OnnxReverseSequence _ _) _ _).
  change (created ++ [constant; reverse]) with (created ++ [constant] ++ [reverse]).
  rewrite app_assoc.
  assert (denoteCreated (denoteAll (created ++ [constant])) reverse
          = Some (Elements (fun idx =>
              reversedIndex (replicate (Z.to_nat n) len) (1 - dimension) dimension idx
              ≫= source))) as Hrev.
  { unfold denoteCreated, reverse. cbn [createdOp createdOperands].
    rewrite (denoteOperand_app _ _ _ _ Hsrc).
    by rewrite (denoteOperand_last created constant
                  (Integers (replicate (Z.to_nat n) len)) _ eq_refl). }
  pose proof (denoteOperand_last _ reverse _ (RankedTensorType shape e) Hrev) as Hres.
  rewrite length_app in Hres. cbn [length] in Hres.
  replace (length created + 1)%nat with (S (length created)) in Hres by lia.
  rewrite Hres.
  by rewrite (reversedIndex_full _ _ _ _ _ _ _ Hb Hidx Hbn Htl).
Qed.

Lemma reverseAllElements_reverses_witness :
  ∃ result created',
    reverseAllElements
      (mkTValue (Given (BlockArgument 0 0)) (RankedTensorType [5; 7; 2] (FloatType 32)))
      0 []
    = Some (result, created')
    ∧ typeOf result = RankedTensorType [5; 7; 2] (FloatType 32)
    ∧ ∀ idx t, inBounds [5; 7; 2] idx -> nth64 idx 0 = Some t ->
        sourceOf created' result idx = Some (<[Z.to_nat 0 := 5 - 1 - t]> idx).
Proof.
  apply (reverseAllElements_reverses
           (mkTValue (Given (BlockArgument 0 0)) (RankedTensorType [5; 7; 2] (FloatType 32)))
           0 [5; 7; 2] (FloatType 32) 7 5 [] Some).
  - reflexivity.
  - by left.
  - reflexivity.
  - reflexivity.
  - unfold INT_MAX. lia.
  - reflexivity.
Defined.

(* ================================================================== *)
(** ** Padding between the elements of the input *)
(* ================================================================== *)

Lemma imap_keep {A} (l : list A) : imap (fun _ d => d) l = l.
Proof. induction l as [|x l IH]; [done|]. rewrite imap_cons. by rewrite <- IH at 2. Qed.

Lemma imap_set_axis {A} (f : A -> A) (a : nat) (l : list A) :
  imap (fun i d => if Z.of_nat i =? Z.of_nat a then f d else d) l = alter f a l.
Proof.
  revert a. induction l as [|x l IH]; intros a; [done|].
  rewrite imap_cons. destruct a as [|a].
  - change (alter f 0%nat (x :: l)) with (f x :: l). f_equal.
    rewrite <- (imap_keep l) at 2. apply imap_ext.
    intros i y _. cbv [Basics.compose].
    destruct (Z.eqb_spec (Z.of_nat (S i)) (Z.of_nat 0)); [lia|done].
  - change (alter f (S a) (x :: l)) with (x :: alter f a l). f_equal.
    rewrite <- IH. apply imap_ext. intros i y _. cbv [Basics.compose].
    destruct (Z.eqb_spec (Z.of_nat (S i)) (Z.of_nat (S a))),
             (Z.eqb_spec (Z.of_nat i) (Z.of_nat a)); try done; lia.
Qed.

Lemma imap_axis {A} (f : A -> A) (axis : Z) (l : list A) :
  0 <= axis ->
  imap (fun i d => if Z.of_nat i =? axis then f d else d) l
  = alter f (Z.to_nat axis) l.
Proof.
  intros Haxis. rewrite <- (imap_set_axis f (Z.to_nat axis) l).
  by rewrite Z2Nat.id.
Qed.

Lemma alter_const_insert {A} (v : A) (a : nat) (l : list A) :
  alter (fun _ => v) a l = <[a := v]> l.
Proof.
  revert a. induction l as [|x l IH]; intros [|a]; simpl; try done.
  f_equal. apply IH.
Qed.

Lemma alter_at {A} (f : A -> A) (a : nat) (l : list A) x :
  l !! a = Some x -> alter f a l = <[a := f x]> l.
Proof.
  revert a. induction l as [|y l IH]; intros [|a]; simpl; try done.
  - by intros [= ->].
  - intros H. f_equal. by apply IH.
Qed.

Lemma filled_Some {A} (n : Z) (x : A) :
  0 <= n <= UINT32_MAX -> filled n x = Some (replicate (Z.to_nat n) x).
Proof.
  intros [H0 H1]. unfold filled.
  apply Z.leb_le in H0, H1. by rewrite H0, H1.
Qed.

Lemma filled_None {A} (n : Z) (x : A) : n < 0 -> filled n x = None.
Proof.
  intros Hn. unfold filled. destruct (0 <=? n) eqn:H; [|done].
  apply Z.leb_le in H. lia.
Qed.

Lemma emitSplitAxisOutputLength1_run input axis shape e n created :
  typeOf input = RankedTensorType shape e ->
  nth64 shape axis = Some n ->
  0 <= n <= UINT32_MAX ->
  ∃ results created',
    emitSplitAxisOutputLength1 input axis created = Some (results, created')
    ∧ length results = Z.to_nat n
    ∧ Forall (fun v => typeOf v
                       = RankedTensorType (<[Z.to_nat axis := 1]> shape) e) results
    ∧ length created' = (length created + 2)%nat.
Proof.
  intros Ht Hn Hrange. unfold emitSplitAxisOutputLength1. rewrite Ht.
  cbn [elementTypeOfT getShape getRank].
  rewrite emitBind_assert_Some, emitBind_assert_Some, Hn, emitBind_assert_Some.
  rewrite (filled_Some _ _ Hrange), emitBind_assert_Some.
  unfold constantInt64.
  rewrite (emitBind_Some _ _ _ _ _ (create1_run _ _ _ _)).
  rewrite emitBind_assert_Some, (filled_Some _ _ Hrange), emitBind_assert_Some.
  apply nth64_Some in Hn as [Haxis _].
  rewrite (imap_axis (fun _ => 1) axis shape Haxis), alter_const_insert.
  unfold create. do 2 eexists. split; [reflexivity|].
  split; [by rewrite length_imap, length_replicate|]. split.
  - apply Forall_forall. intros v Hv.
    apply list_elem_of_lookup in Hv as [i Hi].
    rewrite list_lookup_imap in Hi. apply fmap_Some in Hi as (t & Hl & ->).
    apply lookup_replicate in Hl as [-> _]. done.
  - rewrite !length_app. simpl. lia.
Qed.

Lemma emitPadsAxisEnd_run v inputShape axis size e created :
  elementTypeOfT (typeOf v) = Some e ->
  0 <= axis < Z.of_nat (length inputShape) ->
  ∃ result created',
    emitPadsAxisEnd v inputShape axis size created = Some (result, created')
    ∧ typeOf result
      = RankedTensorType (alter (fun d => add64 d size) (Z.to_nat axis) inputShape) e
    ∧ length created' = (length created + 2)%nat.
Proof.
  intros He Haxis. unfold emitPadsAxisEnd.
  rewrite He, emitBind_assert_Some.
  assert (((Z.of_nat (length inputShape) + axis) mod 2 ^ 64
           <? Z.of_nat (length inputShape) * 2) = true) as ->.
  { apply Z.ltb_lt.
    pose proof (Z.mod_le (Z.of_nat (length inputShape) + axis) (2 ^ 64)). lia. }
  unfold constantInt64.
  rewrite (emitBind_Some _ _ _ _ _ (create1_run _ _ _ _)), create1_run.
  rewrite (imap_axis _ axis inputShape (proj1 Haxis)).
  do 2 eexists. split; [reflexivity|]. split; [done|].
  rewrite !length_app. simpl. lia.
Qed.

Lemma emitMapM_pads (l : list TValue) axis padSize shape e created :
  Forall (fun v => typeOf v = RankedTensorType shape e) l ->
  0 <= axis < Z.of_nat (length shape) ->
  ∃ results created',
    emitMapM (fun v =>
                let+ vShape := emitAssert (getShape (typeOf v)) in
                emitPadsAxisEnd v vShape axis padSize) l created
    = Some (results, created')
    ∧ length results = length l
    ∧ Forall (fun v => typeOf v
                = RankedTensorType
                    (alter (fun d => add64 d padSize) (Z.to_nat axis) shape) e) results
    ∧ length created' = (length created + 2 * length l)%nat.
Proof.
  intros Hl Haxis. revert created.
  induction Hl as [|v l Hv Hl IH]; intros created.
  - do 2 eexists. split; [reflexivity|]. repeat split; [constructor|simpl; lia].
  - cbn [emitMapM]. rewrite emitBind_assoc, Hv. cbn [getShape].
    rewrite emitBind_assert_Some.
    destruct (emitPadsAxisEnd_run v shape axis padSize e created)
      as (r & created1 & Hrun & Hr & Hlen1); [by rewrite Hv|done|].
    rewrite (emitBind_Some _ _ _ _ _ Hrun).
    destruct (IH created1) as (rs & created2 & Hrun2 & Hlen & Hrs & Hlen2).
    rewrite (emitBind_Some _ _ _ _ _ Hrun2).
    do 2 eexists. split; [reflexivity|]. split; [simpl; lia|]. split.
    + by constructor.
    + simpl. lia.
Qed.

Lemma sumAxisSizes_same (l : list TValue) axis shape e d a :
  Forall (fun v => typeOf v = RankedTensorType shape e) l ->
  nth64 shape axis = Some d ->
  sumAxisSizes axis l (wrap64 a) = Some (wrap64 (a + Z.of_nat (length l) * d)).
Proof.
  intros Hl Hd. revert a. induction Hl as [|v l Hv Hl IH]; intros a.
  - simpl. do 2 f_equal. lia.
  - cbn [sumAxisSizes]. rewrite Hv. cbn [getShape mbind option_bind]. rewrite Hd.
    cbn [mbind option_bind]. rewrite add64_wrap_l, IH. do 2 f_equal.
    rewrite length_cons. lia.
Qed.

Lemma sumAxisSizes_app axis l1 l2 acc :
  sumAxisSizes axis (l1 ++ l2) acc
  = sumAxisSizes axis l1 acc ≫= sumAxisSizes axis l2.
Proof.
  revert acc. induction l1 as [|v l1 IH]; intros acc; [done|].
  cbn [app sumAxisSizes].
  destruct (getShape (typeOf v)) as [s|]; [|done]. cbn [mbind option_bind].
  destruct (nth64 s axis) as [d|]; [|done]. cbn [mbind option_bind]. apply IH.
Qed.

Lemma lookup_insert_axis (shape : list Z) (a : nat) (v d : Z) :
  shape !! a = Some d -> (<[a := v]> shape) !! a = Some v.
Proof. intros H. apply list_lookup_insert_eq. by eapply lookup_lt_Some. Qed.

Lemma emitConcat_run inputs first axis shapeFirst e total created :
  inputs !! 0%nat = Some first ->
  typeOf first = RankedTensorType shapeFirst e ->
  sumAxisSizes axis inputs 0 = Some total ->
  0 <= axis ->
  emitConcat inputs axis created
  = Some (mkTValue (Made (length created) 0)
            (RankedTensorType (<[Z.to_nat axis := total]> shapeFirst) e),
          created ++ [mkCreated (OnnxConcat axis) inputs
                        [RankedTensorType (<[Z.to_nat axis := total]> shapeFirst) e]]).
Proof.
  intros Hfirst Ht Hsum Haxis. unfold emitConcat.
  rewrite Hfirst, emitBind_assert_Some, Ht. cbn [elementTypeOfT getShape].
  rewrite !emitBind_assert_Some, Hsum, emitBind_assert_Some.
  rewrite (imap_axis (fun _ => total) axis shapeFirst Haxis), alter_const_insert.
  apply create1_run.
Qed.

Lemma insertPadAxis_run input axis padSize shape e n created :
  typeOf input = RankedTensorType shape e ->
  nth64 shape axis = Some n ->
  1 <= n <= UINT32_MAX ->
  ∃ result created',
    insertPadAxis input axis padSize created = Some (result, created')
    ∧ typeOf result
      = RankedTensorType
          (<[Z.to_nat axis := wrap64 (n + (n - 1) * padSize)]> shape) e
    ∧ length created' = (length created + 2 * Z.to_nat n + 1)%nat.
Proof.
  intros Ht Hn Hrange. unfold insertPadAxis.
  destruct (emitSplitAxisOutputLength1_run input axis shape e n created Ht Hn)
    as (pieces & created1 & Hsplit & Hlen & Hpieces & Hlen1); [lia|].
  rewrite (emitBind_Some _ _ _ _ _ Hsplit).
  apply nth64_Some in Hn as [Haxis Hn].
  pose proof (lookup_lt_Some _ _ _ Hn) as Hlt.
  destruct (last pieces) as [lastPiece|] eqn:Hlast.
  2:{ apply last_None in Hlast. subst pieces. simpl in Hlen. lia. }
  apply last_Some in Hlast as [front ->].
  rewrite emitBind_assert_Some, removelast_last.
  apply Forall_app in Hpieces as [Hfront Hl].
  rewrite Forall_singleton in Hl.
  rewrite length_app in Hlen. simpl in Hlen.
  set (shape1 := <[Z.to_nat axis := 1]> shape) in *.
  assert (length shape1 = length shape) as Hlen_shape1 by apply length_insert.
  destruct (emitMapM_pads front axis padSize shape1 e created1 Hfront)
    as (padded & created2 & Hpads & Hlen_padded & Hpadded & Hlen2); [lia|].
  rewrite (emitBind_Some _ _ _ _ _ Hpads).
  assert (shape1 !! Z.to_nat axis = Some 1) as Hone.
  { by apply (lookup_insert_axis shape _ 1 n). }
  rewrite (alter_at _ _ _ _ Hone) in Hpadded.
  unfold shape1 in Hpadded. rewrite list_insert_insert_eq in Hpadded.
  set (shape2 := <[Z.to_nat axis := add64 1 padSize]> shape) in *.
  set (total := wrap64 (n + (n - 1) * padSize)).
  assert (sumAxisSizes axis (padded ++ [lastPiece]) 0 = Some total) as Hsum.
  { rewrite sumAxisSizes_app. change 0 with (wrap64 0) at 1.
    rewrite (sumAxisSizes_same padded axis shape2 e (add64 1 padSize) 0 Hpadded).
    2:{ apply nth64_Some. split; [done|].
        by apply (lookup_insert_axis shape _ _ n). }
    cbn [mbind option_bind].
    rewrite (sumAxisSizes_same [lastPiece] axis shape1 e 1).
    2:{ by apply Forall_singleton. }
    2:{ by apply nth64_Some. }
    f_equal. unfold total, add64. simpl length.
    destruct (wrap64_spec (1 + padSize)) as [k ->].
    apply (wrap64_eq _ _ (Z.of_nat (length padded) * k)).
    rewrite Hlen_padded. replace (Z.of_nat (length front)) with (n - 1) by lia.
    change (Z.of_nat 1) with 1. ring. }
  destruct padded as [|p0 padded].
  - rewrite (emitConcat_run _ lastPiece axis shape1 e total created2); try done.
    do 2 eexists. split; [reflexivity|]. split.
    + simpl. unfold shape1. by rewrite list_insert_insert_eq.
    + rewrite length_app. simpl in *. lia.
  - apply Forall_cons in Hpadded as [Hp0 _].
    rewrite (emitConcat_run _ p0 axis shape2 e total created2); try done.
    do 2 eexists. split; [reflexivity|]. split.
    + simpl. unfold shape2. by rewrite list_insert_insert_eq.
    + rewrite length_app. simpl in *. lia.
Qed.

(** X12: on an axis of known size [n >= 1], [insertPadAxis] creates
    [2 * n + 1] operations and a value whose type is the input type with the
    size of the axis [n + (n - 1) * padSize] (in 64-bit arithmetic): the
    [n] slices of the split, the first [n - 1] of them padded. *)
Theorem insertPadAxis_shape (input : TValue) (axis padSize : Z) (shape : list Z)
    (e : ElementType) (n : Z) (created : list Created) :
  typeOf input = RankedTensorType shape e ->
  nth64 shape axis = Some n ->
  1 <= n <= UINT32_MAX ->
  ∃ result created',
    insertPadAxis input axis padSize created = Some (result, created')
    ∧ typeOf result
      = RankedTensorType
          (<[Z.to_nat axis := wrap64 (n + (n - 1) * padSize)]> shape) e
    ∧ length created' = (length created + 2 * Z.to_nat n + 1)%nat.
Proof. apply insertPadAxis_run. Qed.

Lemma insertPadAxis_shape_witness :
  ∃ result created',
    insertPadAxis
      (mkTValue (Given (BlockArgument 0 0)) (RankedTensorType [1; 3; 5; 7] (FloatType 32)))
      2 1 []
    = Some (result, created')
    ∧ typeOf result
      = RankedTensorType (<[Z.to_nat 2 := wrap64 (5 + (5 - 1) * 1)]> [1; 3; 5; 7])
          (FloatType 32)
    ∧ length created' = (length (@nil Created) + 2 * Z.to_nat 5 + 1)%nat.
Proof.
  apply (insertPadAxis_shape
           (mkTValue (Given (BlockArgument 0 0))
              (RankedTensorType [1; 3; 5; 7] (FloatType 32)))
           2 1 [1; 3; 5; 7] (FloatType 32) 5 []).
  - reflexivity.
  - reflexivity.
  - unfold UINT32_MAX. lia.
Defined.

(** X13: [insertPadAxis] aborts on an axis that is empty or whose size is
    not known (a negative size, as [kDynamic] is): the split has no
    result to take the last one of. *)
Theorem insertPadAxis_empty_axis (input : TValue) (axis padSize : Z)
    (shape : list Z) (e : ElementType) (n : Z) (created : list Created) :
  typeOf input = RankedTensorType shape e ->
  nth64 shape axis = Some n ->
  n <= 0 ->
  insertPadAxis input axis padSize created = None.
Proof.
  intros Ht Hn Hle. unfold insertPadAxis.
  destruct (decide (n = 0)) as [->|Hne].
  - destruct (emitSplitAxisOutputLength1_run input axis shape e 0 created Ht Hn)
      as (pieces & created1 & Hsplit & Hlen & _); [unfold UINT32_MAX; lia|].
    rewrite (emitBind_Some _ _ _ _ _ Hsplit).
    destruct pieces; [done|]. simpl in Hlen. lia.
  - unfold emitSplitAxisOutputLength1. rewrite Ht. cbn [elementTypeOfT getShape].
    rewrite !emitBind_assoc, emitBind_assert_Some.
    rewrite !emitBind_assoc, emitBind_assert_Some, Hn.
    rewrite !emitBind_assoc, emitBind_assert_Some.
    rewrite filled_None by lia. done.
Qed.

Lemma insertPadAxis_empty_axis_witness :
  insertPadAxis
    (mkTValue (Given (BlockArgument 0 0))
       (RankedTensorType [1; 3; kDynamic; 7] (FloatType 32)))
    2 1 [] = None.
Proof.
  apply (insertPadAxis_empty_axis _ 2 1 [1; 3; kDynamic; 7] (FloatType 32) kDynamic []).
  - reflexivity.
  - reflexivity.
  - unfold kDynamic. lia.
Defined.

Lemma insertPadsFrom_run (strides dims : list Z) :
  Forall2 (fun d s => 1 <= d <= UINT32_MAX ∧ 1 <= s ∧ (d - 1) * s + 1 < 2 ^ 63)
          dims strides ->
  ∀ (i : nat) (pre others : list Z) (e : ElementType) (input : TValue)
    (created : list Created),
  length pre = (2 + i)%nat ->
  typeOf input = RankedTensorType (pre ++ dims ++ others) e ->
  ∃ result created',
    insertPadsFrom i strides input created = Some (result, created')
    ∧ typeOf result
      = RankedTensorType
          (pre ++ zip_with (fun d s => (d - 1) * s + 1) dims strides ++ others) e.
Proof.
  induction 1 as [|d s dims strides (Hd & Hs & Hfit) Hrest IH];
    intros i pre others e input created Hpre Ht.
  - do 2 eexists. split; [reflexivity|]. done.
  - cbn [insertPadsFrom].
    assert (nth64 (pre ++ (d :: dims) ++ others) (2 + Z.of_nat i) = Some d) as Hnth.
    { apply nth64_Some. split; [lia|].
      change ((d :: dims) ++ others) with (d :: (dims ++ others)).
      apply list_lookup_middle. lia. }
    destruct (insertPadAxis_run input (2 + Z.of_nat i) (sub64 s 1)
                (pre ++ (d :: dims) ++ others) e d created Ht Hnth Hd)
      as (padded & created1 & Hrun & Htype & _).
    rewrite (emitBind_Some _ _ _ _ _ Hrun).
    assert (wrap64 (d + (d - 1) * sub64 s 1) = (d - 1) * s + 1) as Hsize.
    { rewrite <- (wrap64_id ((d - 1) * s + 1)) by nia.
      unfold sub64. destruct (wrap64_spec (s - 1)) as [k ->].
      apply (wrap64_eq _ _ ((d - 1) * k)). ring. }
    rewrite Hsize in Htype.
    replace (Z.to_nat (2 + Z.of_nat i)) with (length pre + 0)%nat in Htype by lia.
    rewrite insert_app_r in Htype. cbn [app insert list_insert] in Htype.
    destruct (IH (S i) (pre ++ [(d - 1) * s + 1]) others e padded created1)
      as (result & created2 & Hrun2 & Htype2).
    { rewrite length_app. simpl. lia. }
    { by rewrite <- app_assoc. }
    exists result, created2. split; [done|].
    rewrite Htype2. by rewrite <- app_assoc.
Qed.

(** X14: on an input N x C x D0 x ... whose first spatial dimensions have
    known sizes, [insertPadsConvTransposeInput] creates a value in which
    the spatial dimension of every stride [s] has size [(d - 1) * s + 1]:
    [s - 1] pads follow each element but the last. *)
Theorem insertPadsConvTransposeInput_shape (input : TValue) (e : ElementType)
    (N C : Z) (dims others strides : list Z) (created : list Created) :
  typeOf input = RankedTensorType (N :: C :: dims ++ others) e ->
  Forall2 (fun d s => 1 <= d <= UINT32_MAX ∧ 1 <= s ∧ (d - 1) * s + 1 < 2 ^ 63)
          dims strides ->
  ∃ result created',
    insertPadsConvTransposeInput input strides created = Some (result, created')
    ∧ typeOf result
      = RankedTensorType
          (N :: C :: zip_with (fun d s => (d - 1) * s + 1) dims strides ++ others) e.
Proof.
  intros Ht Hdims. unfold insertPadsConvTransposeInput.
  by apply (insertPadsFrom_run strides dims Hdims 0 [N; C] others e input created).
Qed.

Lemma insertPadsConvTransposeInput_shape_witness :
  ∃ result created',
    insertPadsConvTransposeInput
      (mkTValue (Given (BlockArgument 0 0)) (RankedTensorType [1; 3; 5; 7] (FloatType 32)))
      [2; 3] []
    = Some (result, created')
    ∧ typeOf result
      = RankedTensorType
          (1 :: 3 :: zip_with (fun d s => (d - 1) * s + 1) [5; 7] [2; 3] ++ [])
          (FloatType 32).
Proof.
  apply (insertPadsConvTransposeInput_shape
           (mkTValue (Given (BlockArgument 0 0))
              (RankedTensorType [1; 3; 5; 7] (FloatType 32)))
           (FloatType 32) 1 3 [5; 7] [] [2; 3] []).
  - reflexivity.
  - repeat constructor; unfold UINT32_MAX; lia.
Defined.

Lemma padAxesFrom_run (dims outs : list Z) :
  Forall2 (fun d o => 0 <= d <= o ∧ o < 2 ^ 63) dims outs ->
  ∀ (i : nat) (pre others : list Z) (e : ElementType) (input : TValue)
    (created : list Created),
  length pre = (2 + i)%nat ->
  typeOf input = RankedTensorType (pre ++ dims ++ others) e ->
  ∃ result created',
    padAxesFrom i (zip_with (fun d o => o - d) dims outs) input created
    = Some (result, created')
    ∧ typeOf result = RankedTensorType (pre ++ outs ++ others) e.
Proof.
  induction 1 as [|d o dims outs (Hd & Ho) Hrest IH];
    intros i pre others e input created Hpre Ht.
  - do 2 eexists. split; [reflexivity|]. done.
  - cbn [zip_with padAxesFrom]. rewrite Ht. cbn [getShape].
    rewrite emitBind_assert_Some.
    destruct (emitPadsAxisEnd_run input (pre ++ (d :: dims) ++ others)
                (2 + Z.of_nat i) (o - d) e created)
      as (padded & created1 & Hrun & Htype & _).
    { by rewrite Ht. }
    { rewrite !length_app. simpl. lia. }
    rewrite (emitBind_Some _ _ _ _ _ Hrun).
    replace (Z.to_nat (2 + Z.of_nat i)) with (length pre + 0)%nat in Htype by lia.
    change ((d :: dims) ++ others) with (d :: (dims ++ others)) in Htype.
    rewrite (alter_at _ _ _ d) in Htype.
    2:{ apply list_lookup_middle. lia. }
    rewrite insert_app_r in Htype. cbn [insert list_insert] in Htype.
    assert (add64 d (o - d) = o) as Hsize.
    { unfold add64. replace (d + (o - d)) with o by lia. apply wrap64_id. lia. }
    rewrite Hsize in Htype.
    destruct (IH (S i) (pre ++ [o]) others e padded created1)
      as (result & created2 & Hrun2 & Htype2).
    { rewrite length_app. simpl. lia. }
    { by rewrite <- app_assoc. }
    exists result, created2. split; [done|].
    rewrite Htype2. by rewrite <- app_assoc.
Qed.

Lemma padSize_run (N C : Z) (dims outs : list Z) :
  Forall2 (fun d o => 0 <= d <= o ∧ o < 2 ^ 63) dims outs ->
  mapM (fun ia : nat * Z =>
          d ← nth64 (N :: C :: dims)
                (Z.of_nat (length (N :: C :: dims)) - Z.of_nat (length outs)
                 + Z.of_nat ia.1);
          if 0 <=? sub64 ia.2 d then Some (sub64 ia.2 d) else None)
       (imap pair outs)
  = Some (zip_with (fun d o => o - d) dims outs).
Proof.
  intros Hall. pose proof (Forall2_length _ _ _ Hall) as Hlen.
  apply mapM_Some_2, Forall2_same_length_lookup_2.
  { rewrite length_imap, length_zip_with. lia. }
  intros i [j o0] size Hio Hsize. rewrite list_lookup_imap in Hio.
  apply fmap_Some in Hio as (o & Ho & [= -> ->]). cbn [fst snd].
  apply lookup_zip_with_Some in Hsize as (d & o'' & -> & Hd & Ho'').
  rewrite Ho in Ho''. injection Ho'' as <-.
  destruct (Forall2_lookup_lr _ _ _ _ _ _ Hall Hd Ho) as [Hdo Ho63].
  assert (nth64 (N :: C :: dims)
            (Z.of_nat (length (N :: C :: dims)) - Z.of_nat (length outs) + Z.of_nat i)
          = Some d) as ->.
  { apply nth64_Some. simpl length. split; [lia|].
    replace (Z.to_nat (Z.of_nat (S (S (length dims))) - Z.of_nat (length outs)
                       + Z.of_nat i)) with (S (S i)) by lia.
    done. }
  cbn [mbind option_bind]. unfold sub64. rewrite wrap64_id by lia.
  destruct (0 <=? o - d) eqn:Hle; [done|]. apply Z.leb_gt in Hle. lia.
Qed.

(** X15: when the ConvOp has the literal output dimensions
    N x C x D0 x ... and [output_shape] gives for every spatial dimension
    a size that is not below it, [insertAdditionalPadsConvTranspose]
    creates a value of type N x C x output_shape; with an empty
    [output_shape] it aborts (it reads [padSize[0]]). *)
Theorem insertAdditionalPadsConvTranspose_shape (input : TValue) (e : ElementType)
    (N C : Z) (dims outputShapeAttr : list Z) (created : list Created) :
  insertAdditionalPadsConvTranspose (Some <$> N :: C :: dims) input [] created = None
  ∧ (elementTypeOfT (typeOf input) = Some e ->
     outputShapeAttr ≠ [] ->
     Forall2 (fun d o => 0 <= d <= o ∧ o < 2 ^ 63) dims outputShapeAttr ->
     ∃ result created',
       insertAdditionalPadsConvTranspose (Some <$> N :: C :: dims) input
         outputShapeAttr created
       = Some (result, created')
       ∧ typeOf result = RankedTensorType (N :: C :: outputShapeAttr) e).
Proof.
  split; [done|].
  intros He Hne Hall. unfold insertAdditionalPadsConvTranspose. cbv zeta.
  assert (default kDynamic <$> (Some <$> N :: C :: dims) = N :: C :: dims) as ->.
  { rewrite <- list_fmap_compose. apply list_fmap_id. }
  rewrite length_fmap, (padSize_run N C dims outputShapeAttr Hall).
  rewrite emitBind_assert_Some.
  destruct Hall as [|d o dims outs (Hd & Ho) Hrest]; [done|].
  cbn [zip_with lookup list_lookup tail]. rewrite emitBind_assert_Some.
  destruct (emitPadsAxisEnd_run input (N :: C :: d :: dims) 2 (o - d) e created He)
    as (padded & created1 & Hrun & Htype & _).
  { simpl length. lia. }
  rewrite (emitBind_Some _ _ _ _ _ Hrun).
  assert (add64 d (o - d) = o) as Hsize.
  { unfold add64. replace (d + (o - d)) with o by lia. apply wrap64_id. lia. }
  change (Z.to_nat 2) with 2%nat in Htype. cbn [alter list_alter] in Htype.
  rewrite Hsize in Htype.
  destruct (padAxesFrom_run dims outs Hrest 1 [N; C; o] [] e padded created1)
    as (result & created2 & Hrun2 & Htype2); [done|by rewrite app_nil_r|].
  exists result, created2. split; [done|].
  rewrite Htype2. by rewrite app_nil_r.
Qed.

Lemma insertAdditionalPadsConvTranspose_shape_witness :
  ∃ result created',
    insertAdditionalPadsConvTranspose (Some <$> [1; 3; 5; 7])
      (mkTValue (Given (BlockArgument 0 0)) (RankedTensorType [1; 3; 5; 7] (FloatType 32)))
      [6; 9] []
    = Some (result, created')
    ∧ typeOf result = RankedTensorType [1; 3; 6; 9] (FloatType 32).
Proof.
  apply (proj2 (insertAdditionalPadsConvTranspose_shape
                  (mkTValue (Given (BlockArgument 0 0))
                     (RankedTensorType [1; 3; 5; 7] (FloatType 32)))
                  (FloatType 32) 1 3 [5; 7] [6; 9] [])).
  - reflexivity.
  - done.
  - repeat constructor; lia.
Defined.

(* ================================================================== *)
(** ** The matchers of the load/store chain eliminator *)
(* ================================================================== *)

Lemma isa_functional g o n n' : isa g o n = true -> isa g o n' = true -> n = n'.
Proof.
  intros (op & Ho & <-)%isa_Some (op' & Ho' & <-)%isa_Some. congruence.
Qed.

Lemma scanManyAndSingle_spec g many single users manyOp singleOp :
  many ≠ single ->
  scanManyAndSingle g many single users manyOp singleOp = true
  ↔ Forall (fun u => isa g u many = true ∨ isa g u single = true) users
    ∧ (is_Some manyOp ∨ Exists (fun u => isa g u many = true) users)
    ∧ (length (filter (fun u => isa g u single = true) users)
       + match singleOp with Some _ => 1 | None => 0 end = 1)%nat.
Proof.
  intros Hne. revert manyOp singleOp.
  induction users as [|u users IH]; intros manyOp singleOp.
  - simpl. rewrite andb_true_iff, !bool_decide_eq_true. split.
    + intros [Hm Hs]. split; [constructor|]. split; [by left|].
      by destruct Hs as [? ->].
    + intros (_ & [Hm|Hm] & Hs).
      * split; [done|]. destruct singleOp; [done|]. simpl in Hs. lia.
      * by apply Exists_nil in Hm.
  - cbn [scanManyAndSingle]. rewrite Forall_cons, Exists_cons, filter_cons.
    destruct (isa g u many) eqn:Hmany.
    + assert (isa g u single = false) as Hsingle.
      { destruct (isa g u single) eqn:E; [|done].
        by destruct (Hne (isa_functional _ _ _ _ Hmany E)). }
      rewrite IH. rewrite decide_False by (rewrite Hsingle; done).
      split.
      * intros (Hall & _ & Hone). split; [by split; [left|]|]. split; [|done].
        right. by left.
      * intros ([_ Hall] & _ & Hone). split; [done|]. split; [|done].
        left. done.
    + destruct (isa g u single) eqn:Hsingle.
      * rewrite decide_True by done. destruct singleOp as [s|].
        -- split; [done|]. intros (_ & _ & Hone). simpl in Hone. lia.
        -- rewrite IH. simpl. split.
           ++ intros (Hall & Hm & Hone). split; [by split; [right|]|].
              split; [|lia]. destruct Hm as [Hm|Hm]; [by left|]. right. by right.
           ++ intros ([_ Hall] & Hm & Hone). split; [done|]. split; [|lia].
              destruct Hm as [Hm|[Hm|Hm]]; [by left|done|by right].
      * split; [done|]. intros ([[?|?] _] & _); done.
Qed.

Lemma matchMultiple_users (g : IR) (memRef : Value) :
  (matchMultipleStoreSingleStick g memRef = true
   ↔ isBlockArgument memRef = false
     ∧ Forall (fun u => isa g u AffineStoreOp = true ∨ isa g u ZLowStickOp = true)
              (getUsers g memRef)
     ∧ Exists (fun u => isa g u AffineStoreOp = true) (getUsers g memRef)
     ∧ length (filter (fun u => isa g u ZLowStickOp = true) (getUsers g memRef))
       = 1%nat)
  ∧ (matchMultipleLoadSingleUnstick g memRef = true
     ↔ isBlockArgument memRef = false
       ∧ Forall (fun u => isa g u AffineLoadOp = true ∨ isa g u ZLowUnstickOp = true)
                (getUsers g memRef)
       ∧ Exists (fun u => isa g u AffineLoadOp = true) (getUsers g memRef)
       ∧ length (filter (fun u => isa g u ZLowUnstickOp = true) (getUsers g memRef))
         = 1%nat).
Proof.
  unfold matchMultipleStoreSingleStick, matchMultipleLoadSingleUnstick.
  destruct (isBlockArgument memRef).
  { split; (split; [done|by intros [? _]]). }
  rewrite !scanManyAndSingle_spec by done. simpl.
  split.
  - split.
    + intros (Hall & [[? ?]|Hm] & Hone); [done|]. split_and!; [done..|lia].
    + intros (_ & Hall & Hm & Hone). split_and!; [done|by right|lia].
  - split.
    + intros (Hall & [[? ?]|Hm] & Hone); [done|]. split_and!; [done..|lia].
    + intros (_ & Hall & Hm & Hone). split_and!; [done|by right|lia].
Qed.

Lemma collectStoresOf_chain g loadOp users storeOps storeOps' :
  collectStoresOf g loadOp users storeOps = Some (Some storeOps') ->
  Forall (chainStore g) storeOps -> Forall (chainStore g) storeOps'.
Proof.
  revert storeOps. induction users as [|u users IH]; intros storeOps Hrun Hall.
  - by injection Hrun as <-.
  - cbn [collectStoresOf] in Hrun. case_decide; [by eapply IH|].
    destruct (isa g u AffineStoreOp) eqn:Hstore; [|done].
    destruct (matchUnstickLoadStoreStick g u) as [[|]|] eqn:Hm; try done.
    simpl in Hrun. eapply IH; [done|]. apply Forall_app. split; [done|].
    by apply Forall_singleton.
Qed.

Lemma collectStores_chain g loadOps storeOps storeOps' :
  collectStores g loadOps storeOps = Some (Some storeOps') ->
  Forall (chainStore g) storeOps -> Forall (chainStore g) storeOps'.
Proof.
  revert storeOps. induction loadOps as [|l loadOps IH]; intros storeOps Hrun Hall.
  - by injection Hrun as <-.
  - cbn [collectStores] in Hrun.
    destruct (collectStoresOf g l _ storeOps) as [[mid|]|] eqn:Hof; try done.
    simpl in Hrun. eapply IH; [done|]. by eapply collectStoresOf_chain.
Qed.

Lemma matchAndCollectAffineStore_chain g loadOps storeOps :
  matchAndCollectAffineStore g loadOps = Some (Some storeOps) ->
  Forall (chainStore g) storeOps ∧ storeOps ≠ [].
Proof.
  unfold matchAndCollectAffineStore. intros Hrun.
  destruct (collectStores g loadOps []) as [[collected|]|] eqn:Hc; try done.
  simpl in Hrun.
  destruct (checkStrangeStores g collected collected) as [[|]|]; try done.
  simpl in Hrun. injection Hrun as Hne.
  destruct collected as [|s collected]; [done|]. injection Hne as <-.
  split; [|done]. by eapply collectStores_chain.
Qed.

Lemma chainStore_memref g storeOp :
  chainStore g storeOp ->
  ∃ destMemref,
    getOperand g storeOp 1 = Some destMemref
    ∧ matchMultipleStoreSingleStick g destMemref = true.
Proof.
  intros [_ Hm]. unfold matchUnstickLoadStoreStick in Hm.
  destruct (getOperand g storeOp 1) as [destMemref|]; [|done]. simpl in Hm.
  destruct (getOperand g storeOp 0) as [storeValue|]; [|done]. simpl in Hm.
  destruct (getDefiningOp destMemref); [|done].
  destruct (negb (isa g _ AllocOp)); [done|].
  destruct (matchMultipleStoreSingleStick g destMemref) eqn:E; [|done].
  by exists destMemref.
Qed.

Lemma findStickOf_single g storeOp users myStickOp r :
  isa g storeOp AffineStoreOp = true ->
  Forall (fun u => isa g u AffineStoreOp = true ∨ isa g u ZLowStickOp = true) users ->
  (length (filter (fun u => isa g u ZLowStickOp = true) users)
   + match myStickOp with Some _ => 1 | None => 0 end = 1)%nat ->
  findStickOf g storeOp users myStickOp = Some (Some r) ->
  ∃ stickOp, r = Some stickOp
             ∧ (myStickOp = Some stickOp
                ∨ (stickOp ∈ users ∧ isa g stickOp ZLowStickOp = true)).
Proof.
  intros Hstore. revert myStickOp.
  induction users as [|u users IH]; intros myStickOp Hall Hone Hrun.
  - injection Hrun as <-. destruct myStickOp as [s|]; [|simpl in Hone; lia].
    exists s. split; [done|by left].
  - apply Forall_cons in Hall as [Hu Hall].
    rewrite filter_cons in Hone. cbn [findStickOf] in Hrun.
    assert (∀ s, isa g s AffineStoreOp = true -> isa g s ZLowStickOp = false) as Hex.
    { intros s Hs. destruct (isa g s ZLowStickOp) eqn:E; [|done].
      by pose proof (isa_functional _ _ _ _ Hs E). }
    case_decide as Hself.
    { subst u. rewrite decide_False in Hone by (rewrite (Hex _ Hstore); done).
      destruct (IH _ Hall Hone Hrun) as (s & -> & [?|[? ?]]); exists s;
        (split; [done|]); [by left|right]. split; [by right|done]. }
    destruct (isa g u AffineStoreOp) eqn:Hus.
    { rewrite decide_False in Hone by (rewrite (Hex _ Hus); done).
      destruct (IH _ Hall Hone Hrun) as (s & -> & [?|[? ?]]); exists s;
        (split; [done|]); [by left|right]. split; [by right|done]. }
    destruct Hu as [?|Hstick]; [done|]. rewrite Hstick in Hrun, Hone.
    rewrite decide_True in Hone by done.
    destruct (irOps g !! u ≫= _) as [layout|]; [|done]. simpl in Hrun.
    destruct (_ || _); [done|].
    destruct myStickOp as [s|]; [done|].
    simpl in Hone.
    destruct (IH (Some u) Hall ltac:(simpl; lia) Hrun) as (s & -> & [Hs|[? ?]]).
    + injection Hs as <-. exists u. split; [done|]. right. split; [by left|done].
    + exists s. split; [done|]. right. split; [by right|done].
Qed.

Lemma collectStickOps_other g storeOps stickOps m stickOps' m' k :
  collectStickOps g storeOps stickOps m = Some (Some (stickOps', m')) ->
  k ∉ storeOps -> m' !! k = m !! k.
Proof.
  revert stickOps m. induction storeOps as [|s storeOps IH]; intros stickOps m Hrun Hk.
  - by injection Hrun as _ <-.
  - cbn [collectStickOps] in Hrun.
    destruct (getOperand g s 1) as [destMemref|]; [|done]. simpl in Hrun.
    destruct (findStickOf g s _ None) as [[r|]|]; try done. simpl in Hrun.
    apply not_elem_of_cons in Hk as [Hks Hk].
    rewrite (IH _ _ Hrun Hk). by apply lookup_insert_ne.
Qed.

Lemma collectStickOps_sticks g storeOps stickOps m stickOps' m' :
  collectStickOps g storeOps stickOps m = Some (Some (stickOps', m')) ->
  Forall (chainStore g) storeOps ->
  Forall is_Some stickOps ->
  Forall is_Some stickOps'
  ∧ ∀ storeOp, storeOp ∈ storeOps ->
      ∃ stickOp destMemref,
        m' !! storeOp = Some (Some stickOp)
        ∧ getOperand g storeOp 1 = Some destMemref
        ∧ stickOp ∈ getUsers g destMemref
        ∧ isa g stickOp ZLowStickOp = true.
Proof.
  revert stickOps m.
  induction storeOps as [|s storeOps IH]; intros stickOps m Hrun Hchain Hsticks.
  - injection Hrun as <- <-. split; [done|]. by intros ? ?%elem_of_nil.
  - apply Forall_cons in Hchain as [Hs Hchain].
    cbn [collectStickOps] in Hrun.
    destruct (chainStore_memref _ _ Hs) as (destMemref & Hdest & Hmulti).
    rewrite Hdest in Hrun. simpl in Hrun.
    destruct (findStickOf g s _ None) as [[r|]|] eqn:Hfind; try done.
    simpl in Hrun.
    apply (proj1 (matchMultiple_users g destMemref)) in Hmulti
      as (_ & Hall & _ & Hone).
    destruct (findStickOf_single g s (getUsers g destMemref) None r (proj1 Hs) Hall)
      as (stickOp & -> & [?|[Hin Hstick]]); [lia|done|done|].
    destruct (IH _ _ Hrun Hchain) as [Hsticks' Hmap].
    { apply Forall_app. split; [done|]. apply Forall_singleton. by eexists. }
    split; [done|]. intros storeOp Hstore.
    destruct (decide (storeOp ∈ storeOps)) as [Hrest|Hrest]; [by apply Hmap|].
    apply elem_of_cons in Hstore as [->|?]; [|done].
    exists stickOp, destMemref. split_and!; try done.
    rewrite (collectStickOps_other _ _ _ _ _ _ _ Hrun Hrest).
    apply lookup_insert_eq.
Qed.

(** X16: after [matchAndCollectAffineStore] has accepted the stores,
    [matchAndCollectStickOp], when it accepts them too, links every store to
    a stick: no entry of [stickOps] and no value of [StoreOpStickOpMap] at a
    collected store is the null operation, and the stick of a store is a
    [zlow.stick] among the users of the memref of the store. *)
Theorem matched_stores_have_sticks (g : IR) (loadOps storeOps : list OpId)
    (stickOps : list (option OpId)) (StoreOpStickOpMap : gmap OpId (option OpId)) :
  matchAndCollectAffineStore g loadOps = Some (Some storeOps) ->
  matchAndCollectStickOp g storeOps = Some (Some (stickOps, StoreOpStickOpMap)) ->
  Forall is_Some stickOps
  ∧ ∀ storeOp, storeOp ∈ storeOps ->
      ∃ stickOp destMemref,
        StoreOpStickOpMap !! storeOp = Some (Some stickOp)
        ∧ getOperand g storeOp 1 = Some destMemref
        ∧ stickOp ∈ getUsers g destMemref
        ∧ isa g stickOp ZLowStickOp = true.
Proof.
  intros Hstores Hsticks.
  apply matchAndCollectAffineStore_chain in Hstores as [Hchain _].
  unfold matchAndCollectStickOp in Hsticks.
  destruct (collectStickOps g storeOps [] ∅) as [[[sticks m]|]|] eqn:Hc; try done.
  simpl in Hsticks. destruct sticks as [|s0 sticks]; [done|].
  injection Hsticks as <- <-.
  by apply (collectStickOps_sticks g storeOps [] ∅).
Qed.

Lemma matched_stores_have_sticks_witness :
  Forall is_Some [Some 7%nat]
  ∧ ∀ storeOp, storeOp ∈ [5%nat] ->
      ∃ stickOp destMemref,
        ({[5%nat := Some 7%nat]} : gmap OpId (option OpId)) !! storeOp
        = Some (Some stickOp)
        ∧ getOperand (copyGraph transposingMap) storeOp 1 = Some destMemref
        ∧ stickOp ∈ getUsers (copyGraph transposingMap) destMemref
        ∧ isa (copyGraph transposingMap) stickOp ZLowStickOp = true.
Proof.
  apply (matched_stores_have_sticks (copyGraph transposingMap) [4%nat] [5%nat]
           [Some 7%nat] {[5%nat := Some 7%nat]}).
  - vm_compute. reflexivity.
  - vm_compute. reflexivity.
Defined.

(** X17: [matchMultipleStoreSingleStick] accepts a memref exactly when it
    is not a block argument, each of its users is an [affine.store] or a
    [zlow.stick], one of them at least is a store, and exactly one of its
    uses is by a stick; [matchMultipleLoadSingleUnstick] is the same test
    with [affine.load] and [zlow.unstick]. *)
Theorem matchMultiple_spec (g : IR) (memRef : Value) :
  (matchMultipleStoreSingleStick g memRef = true
   ↔ isBlockArgument memRef = false
     ∧ Forall (fun u => isa g u AffineStoreOp = true ∨ isa g u ZLowStickOp = true)
              (getUsers g memRef)
     ∧ Exists (fun u => isa g u AffineStoreOp = true) (getUsers g memRef)
     ∧ length (filter (fun u => isa g u ZLowStickOp = true) (getUsers g memRef))
       = 1%nat)
  ∧ (matchMultipleLoadSingleUnstick g memRef = true
     ↔ isBlockArgument memRef = false
       ∧ Forall (fun u => isa g u AffineLoadOp = true ∨ isa g u ZLowUnstickOp = true)
                (getUsers g memRef)
       ∧ Exists (fun u => isa g u AffineLoadOp = true) (getUsers g memRef)
       ∧ length (filter (fun u => isa g u ZLowUnstickOp = true) (getUsers g memRef))
         = 1%nat).
Proof. apply matchMultiple_users. Qed.

Lemma UnstickLoadStoreStickRemovalPattern_inv g g' unstickOp removable result
    removable' :
  UnstickLoadStoreStickRemovalPattern unstickOp removable g
  = Ok (result, removable') g' ->
  match result with
  | failure => g' = g ∧ removable' = removable
  | success =>
      ∃ stickifiedMemRef cpuMemRef stickifiedType cpuType layout loadOps storeOps
        stickOps StoreOpStickOpMap,
        getOperand g unstickOp 0 = Some stickifiedMemRef
        ∧ getOperand g unstickOp 1 = Some cpuMemRef
        ∧ getType g stickifiedMemRef = Some stickifiedType
        ∧ hasNonIdentityLayout stickifiedType = true
        ∧ getType g cpuMemRef = Some cpuType
        ∧ hasNonIdentityLayout cpuType = false
        ∧ (irOps g !! unstickOp ≫= fun op => layoutAttr (opAttrs op)) = Some layout
        ∧ layout ≠ LAYOUT_1D ∧ layout ≠ LAYOUT_2DS
        ∧ matchAndCollectAffineLoad g unstickOp cpuMemRef = Some loadOps
        ∧ matchAndCollectAffineStore g loadOps = Some (Some storeOps)
        ∧ matchAndCollectStickOp g storeOps = Some (Some (stickOps, StoreOpStickOpMap))
        ∧ irOps g' !! unstickOp = None
        ∧ removable' = removable ∪ list_to_set (omap id stickOps)
  end.
Proof.
  unfold UnstickLoadStoreStickRemovalPattern. intros H. minv.
  destruct (hasNonIdentityLayout x13) eqn:Hstickified; simpl in H;
    [|by apply ret_Ok_inv in H as [[= <- <-] <-]].
  destruct (hasNonIdentityLayout x15) eqn:Hcpu;
    [by apply ret_Ok_inv in H as [[= <- <-] <-]|].
  destruct (bool_decide (x7 = LAYOUT_1D)) eqn:H1D;
    [by apply ret_Ok_inv in H as [[= <- <-] <-]|].
  destruct (bool_decide (x7 = LAYOUT_2DS)) eqn:H2DS;
    [by apply ret_Ok_inv in H as [[= <- <-] <-]|].
  simpl in H. apply bind_Ok_inv in H as (loads & g1 & Hloads & H).
  apply gets_Ok_inv in Hloads as [-> ->].
  destruct (matchAndCollectAffineLoad g unstickOp x3) as [loadOps|] eqn:Hloads;
    [|by apply ret_Ok_inv in H as [[= <- <-] <-]].
  apply bind_Ok_inv in H as (stores & g1 & Hstores & H).
  apply getsSome_Ok_inv in Hstores as [Hstores ->].
  destruct stores as [storeOps|]; [|by apply ret_Ok_inv in H as [[= <- <-] <-]].
  apply bind_Ok_inv in H as (sticks & g1 & Hsticks & H).
  apply getsSome_Ok_inv in Hsticks as [Hsticks ->].
  destruct sticks as [[stickOps StoreOpStickOpMap]|];
    [|by apply ret_Ok_inv in H as [[= <- <-] <-]].
  apply bind_Ok_inv in H as ([] & g1 & _ & H).
  apply bind_Ok_inv in H as ([] & g2 & _ & H).
  apply bind_Ok_inv in H as ([] & g3 & Herase & H).
  apply ret_Ok_inv in H as [[= <- <-] <-].
  apply eraseOp_inv in Herase as (op & _ & ->).
  exists x1, x3, x13, x15, x7, loadOps, storeOps, stickOps, StoreOpStickOpMap.
  split_and!; try done.
  - rewrite H3. simpl. done.
  - by apply bool_decide_eq_false in H1D.
  - by apply bool_decide_eq_false in H2DS.
  - apply erased_lookup_eq.
Qed.

(** X18: when [UnstickLoadStoreStickRemovalPattern] reports failure it has
    changed neither the graph nor the set [removableStickOps]; when it
    reports success the guards and the three matchers had accepted the
    unstick (an affine layout on the stickified memref, none on the other,
    a layout that is neither 1D nor 2DS), the unstick is no longer an
    operation of the graph, and the linked sticks have joined the set. *)
Theorem UnstickLoadStoreStickRemovalPattern_outcome (g g' : IR) (unstickOp : OpId)
    (removableStickOps removableStickOps' : gset OpId) (result : LogicalResult) :
  UnstickLoadStoreStickRemovalPattern unstickOp removableStickOps g
  = Ok (result, removableStickOps') g' ->
  match result with
  | failure => g' = g ∧ removableStickOps' = removableStickOps
  | success =>
      ∃ stickifiedMemRef cpuMemRef stickifiedType cpuType layout loadOps storeOps
        stickOps StoreOpStickOpMap,
        getOperand g unstickOp 0 = Some stickifiedMemRef
        ∧ getOperand g unstickOp 1 = Some cpuMemRef
        ∧ getType g stickifiedMemRef = Some stickifiedType
        ∧ hasNonIdentityLayout stickifiedType = true
        ∧ getType g cpuMemRef = Some cpuType
        ∧ hasNonIdentityLayout cpuType = false
        ∧ (irOps g !! unstickOp ≫= fun op => layoutAttr (opAttrs op)) = Some layout
        ∧ layout ≠ LAYOUT_1D ∧ layout ≠ LAYOUT_2DS
        ∧ matchAndCollectAffineLoad g unstickOp cpuMemRef = Some loadOps
        ∧ matchAndCollectAffineStore g loadOps = Some (Some storeOps)
        ∧ matchAndCollectStickOp g storeOps = Some (Some (stickOps, StoreOpStickOpMap))
        ∧ irOps g' !! unstickOp = None
        ∧ removableStickOps' = removableStickOps ∪ list_to_set (omap id stickOps)
  end.
Proof. apply UnstickLoadStoreStickRemovalPattern_inv. Qed.

Lemma UnstickLoadStoreStickRemovalPattern_outcome_witness :
  ∃ stickifiedMemRef cpuMemRef stickifiedType cpuType layout loadOps storeOps
    stickOps StoreOpStickOpMap,
    getOperand (copyGraph transposingMap) 3 0 = Some stickifiedMemRef
    ∧ getOperand (copyGraph transposingMap) 3 1 = Some cpuMemRef
    ∧ getType (copyGraph transposingMap) stickifiedMemRef = Some stickifiedType
    ∧ hasNonIdentityLayout stickifiedType = true
    ∧ getType (copyGraph transposingMap) cpuMemRef = Some cpuType
    ∧ hasNonIdentityLayout cpuType = false
    ∧ (irOps (copyGraph transposingMap) !! 3%nat
       ≫= fun op => layoutAttr (opAttrs op)) = Some layout
    ∧ layout ≠ LAYOUT_1D ∧ layout ≠ LAYOUT_2DS
    ∧ matchAndCollectAffineLoad (copyGraph transposingMap) 3 cpuMemRef = Some loadOps
    ∧ matchAndCollectAffineStore (copyGraph transposingMap) loadOps
      = Some (Some storeOps)
    ∧ matchAndCollectStickOp (copyGraph transposingMap) storeOps
      = Some (Some (stickOps, StoreOpStickOpMap))
    ∧ irOps (graphAfter (UnstickLoadStoreStickRemovalPattern 3 ∅)
               (copyGraph transposingMap)) !! 3%nat = None
    ∧ ({[7%nat]} : gset OpId) = ∅ ∪ list_to_set (omap id stickOps).
Proof.
  apply (UnstickLoadStoreStickRemovalPattern_outcome (copyGraph transposingMap)
           (graphAfter (UnstickLoadStoreStickRemovalPattern 3 ∅)
              (copyGraph transposingMap))
           3 ∅ {[7%nat]} success).
  vm_compute. reflexivity.
Defined.
